(** * DeepTutor web client: API endpoint resolution and the research data contract

    The development has three parts.

    - [Api] embeds [web/lib/api.ts]: how the base URL of the backend is
      resolved from the browser runtime configuration and the process
      environment, and how HTTP and WebSocket URLs are built from it.
    - [Contract] embeds the research type declarations ([TopicBlock],
      [ToolTrace], [TaskState], [ResearchEventType], [ResearchEvent]) as
      predicates on JavaScript objects.
    - [Research] is a model of the research orchestrator (agent loop, block
      scheduler, citation allocator, event stream).  Its code is not among
      the sources, which hold only its data contract; it is modelled from the
      design document.

    Further modules embed more of the sources: [Layout] and [ServerWrapper]
    (where the base URL comes from at run time), [Launcher] and [DevLauncher]
    (the command-line launchers), [BuildPackage] (the packaging script),
    [Settings], [ConfigTab] and [RTXModelSelector] (the settings pages). *)

From Stdlib Require Import String Ascii Arith ZArith Lia List Bool Sorted DecimalString.
From stdpp Require Import base option list strings gmap.

Set Warnings "-register-all".
Local Open Scope string_scope.

(* ===================================================================== *)
(** ** JavaScript string primitives used by the sources *)
(* ===================================================================== *)

(** Strings are sequences of characters.  The primitives below only compare
    with ASCII characters and cut a string next to one, so they do not depend
    on how other characters are encoded. *)

Module Js.

(** [s.startsWith(p)]. *)
Definition startsWith (s p : string) : bool := String.prefix p s.

(** [s.endsWith(p)]: [s] is [p], or its tail ends with [p]. *)
Fixpoint endsWith (s p : string) : bool :=
  (s =? p) ||
  match s with
  | EmptyString => false
  | String _ s' => endsWith s' p
  end.

(** [s.slice(0, -1)]: a negative end counts from the end of the string, so
    the result is the first [length s - 1] characters. *)
Definition slice_0_m1 (s : string) : string :=
  String.substring 0 (String.length s - 1) s.

(** The rest of [s] after the literal prefix [p], when [s] starts with it. *)
Fixpoint strip_prefix (p s : string) : option string :=
  match p with
  | EmptyString => Some s
  | String a p' =>
      match s with
      | EmptyString => None
      | String b s' => if Ascii.eqb a b then strip_prefix p' s' else None
      end
  end.

(** [s.replace(/^lit/, repl)] for a literal [lit] anchored at the start and a
    replacement without [$] patterns: the first (and only possible) match is
    the prefix. *)
Definition replace_anchored (lit repl s : string) : string :=
  match strip_prefix lit s with
  | Some rest => repl +:+ rest
  | None => s
  end.

(** JavaScript truthiness of an optional string, as used in [if (v) return v]:
    [undefined] and the empty string are falsy; a truthy value is handed on. *)
Definition truthy (v : option string) : option string :=
  match v with
  | Some s => if s =? "" then None else Some s
  | None => None
  end.

End Js.

(* ===================================================================== *)
(** ** [web/lib/api.ts] *)
(* ===================================================================== *)

Module Api.
Import Js.

(** [window.__RUNTIME_CONFIG__], an object with an optional [API_BASE_URL]. *)
Record RuntimeConfig := { API_BASE_URL : option string }.

(** The part of the browser's [window] the module reads. *)
Record Window := { __RUNTIME_CONFIG__ : option RuntimeConfig }.

(** The global objects the module reads: [window] (absent outside a browser,
    where [typeof window === "undefined"]) and [process.env]. *)
Record Globals := {
  window : option Window;
  process_env : gmap string string
}.

Definition readRuntimeConfig (g : Globals) : option RuntimeConfig :=
  match window g with
  | None => None
  | Some w => __RUNTIME_CONFIG__ w
  end.

Definition default_base : string := "http://localhost:8004/realtimex".

Definition resolveApiBaseUrl (g : Globals) : string :=
  let runtime := readRuntimeConfig g in
  match truthy (runtime ≫= API_BASE_URL) with
  | Some u => u
  | None =>
      match truthy (process_env g !! "API_BASE_URL") with
      | Some e => e
      | None => default_base
      end
  end.

Definition apiUrl (g : Globals) (path : string) : string :=
  let baseUrl := resolveApiBaseUrl g in
  let normalizedPath := if startsWith path "/" then path else "/" +:+ path in
  let base := if endsWith baseUrl "/" then slice_0_m1 baseUrl else baseUrl in
  base +:+ normalizedPath.

Definition wsUrl (g : Globals) (path : string) : string :=
  let base :=
    replace_anchored "https:" "wss:"
      (replace_anchored "http:" "ws:" (resolveApiBaseUrl g)) in
  let normalizedPath := if startsWith path "/" then path else "/" +:+ path in
  let normalizedBase := if endsWith base "/" then slice_0_m1 base else base in
  normalizedBase +:+ normalizedPath.

(** The two normalizations that [apiUrl] and [wsUrl] share, by name:
    [path.startsWith("/") ? path : `/${path}`]. *)
Definition normalizePath (path : string) : string :=
  if startsWith path "/" then path else "/" +:+ path.

(** [base.endsWith("/") ? base.slice(0, -1) : base]. *)
Definition normalizeBase (base : string) : string :=
  if endsWith base "/" then slice_0_m1 base else base.

(** The runtime configuration supplies the non-empty base URL [u]. *)
Definition runtime_supplies (g : Globals) (u : string) : Prop :=
  exists w rc, window g = Some w /\ __RUNTIME_CONFIG__ w = Some rc
               /\ API_BASE_URL rc = Some u /\ u <> "".

(** The environment variable [API_BASE_URL] holds the non-empty [u]. *)
Definition env_supplies (g : Globals) (u : string) : Prop :=
  process_env g !! "API_BASE_URL" = Some u /\ u <> "".

(** Globals used to exercise the functions. *)
Definition server_side : Globals := {| window := None; process_env := ∅ |}.

Definition browser_with (u : string) : Globals :=
  {| window := Some {| __RUNTIME_CONFIG__ := Some {| API_BASE_URL := Some u |} |};
     process_env := ∅ |}.

Definition server_with_env (u : string) : Globals :=
  {| window := None; process_env := {["API_BASE_URL" := u]} |}.


(** The base with one trailing ["/"] removed, when it has one. *)
Definition strips_one_trailing_slash (base b : string) : Prop :=
  (endsWith base "/" = true /\ base = b +:+ "/")
  \/ (endsWith base "/" = false /\ b = base).

(** The path with a leading ["/"] added, when it has none. *)
Definition adds_leading_slash (path q : string) : Prop :=
  (startsWith path "/" = true /\ q = path)
  \/ (startsWith path "/" = false /\ q = "/" +:+ path).

End Api.

(* ===================================================================== *)
(** ** The research data contract (type declarations of the web client) *)
(* ===================================================================== *)

Module Contract.

(** JSON values, as they arrive over the streaming connection.  The numbers
    of the contract are counts, sizes and times; they are taken as
    integers. *)
Inductive value :=
| JNull
| JBool (b : bool)
| JNum (n : Z)
| JStr (s : string)
| JArr (l : list value)
| JObj (o : gmap string value).

(** *** Primitive types *)

Definition is_string (v : value) : bool :=
  match v with JStr _ => true | _ => false end.

Definition is_number (v : value) : bool :=
  match v with JNum _ => true | _ => false end.

Definition is_boolean (v : value) : bool :=
  match v with JBool _ => true | _ => false end.

(** [Record<string, any>]. *)
Definition is_record (v : value) : bool :=
  match v with JObj _ => true | _ => false end.

(** [T[]]. *)
Definition array_of (ty : value -> bool) (v : value) : bool :=
  match v with JArr l => forallb ty l | _ => false end.

(** An object type given by a predicate on its properties. *)
Definition object_of (ty : gmap string value -> bool) (v : value) : bool :=
  match v with JObj o => ty o | _ => false end.

(** A union of string literals, given by an enumeration and the literal of
    each member. *)
Definition literal_of {A} (name : A -> string) (all : list A) (v : value) : bool :=
  match v with
  | JStr s => existsb (fun e => name e =? s) all
  | _ => false
  end.

(** A required property [k: T]. *)
Definition required (o : gmap string value) (k : string) (ty : value -> bool) : bool :=
  match o !! k with Some v => ty v | None => false end.

(** An optional property [k?: T]. *)
Definition optional (o : gmap string value) (k : string) (ty : value -> bool) : bool :=
  match o !! k with Some v => ty v | None => true end.

(** *** String-literal unions *)

(** [TopicBlock.status]. *)
Inductive TopicBlockStatus := pending | researching | completed | failed.

Definition TopicBlockStatus_name (s : TopicBlockStatus) : string :=
  match s with
  | pending => "pending"
  | researching => "researching"
  | completed => "completed"
  | failed => "failed"
  end.

Definition TopicBlockStatus_all : list TopicBlockStatus :=
  [pending; researching; completed; failed].

(** [TaskState.status]. *)
Inductive TaskStatus := task_pending | task_running | task_completed | task_failed.

Definition TaskStatus_name (s : TaskStatus) : string :=
  match s with
  | task_pending => "pending"
  | task_running => "running"
  | task_completed => "completed"
  | task_failed => "failed"
  end.

Definition TaskStatus_all : list TaskStatus :=
  [task_pending; task_running; task_completed; task_failed].

(** [ThoughtEntry.type]. *)
Inductive ThoughtType := sufficiency | plan | tool_call | note | error_thought.

Definition ThoughtType_name (t : ThoughtType) : string :=
  match t with
  | sufficiency => "sufficiency"
  | plan => "plan"
  | tool_call => "tool_call"
  | note => "note"
  | error_thought => "error"
  end.

Definition ThoughtType_all : list ThoughtType :=
  [sufficiency; plan; tool_call; note; error_thought].

(** [ResearchState.executionMode]. *)
Inductive ExecutionMode := series | parallel.

(** [ResearchEventType]: the WebSocket event types. *)
Inductive ResearchEventType :=
(* Planning *)
| planning_started
| rephrase_completed
| decompose_started
| decompose_completed
| queue_seeded
| planning_completed
(* Researching - Pipeline *)
| researching_started
| parallel_status_update
| block_started
| block_completed
| block_failed
| researching_completed
(* Researching - Agent *)
| iteration_started
| checking_sufficiency
| knowledge_sufficient
| generating_query
| tool_calling
| tool_completed
| processing_notes
| iteration_completed
| new_topic_added
(* Reporting *)
| reporting_started
| deduplicate_completed
| outline_completed
| writing_section
| writing_completed
| reporting_completed
(* System *)
| log
| error
| status.

Definition ResearchEventType_name (e : ResearchEventType) : string :=
  match e with
  | planning_started => "planning_started"
  | rephrase_completed => "rephrase_completed"
  | decompose_started => "decompose_started"
  | decompose_completed => "decompose_completed"
  | queue_seeded => "queue_seeded"
  | planning_completed => "planning_completed"
  | researching_started => "researching_started"
  | parallel_status_update => "parallel_status_update"
  | block_started => "block_started"
  | block_completed => "block_completed"
  | block_failed => "block_failed"
  | researching_completed => "researching_completed"
  | iteration_started => "iteration_started"
  | checking_sufficiency => "checking_sufficiency"
  | knowledge_sufficient => "knowledge_sufficient"
  | generating_query => "generating_query"
  | tool_calling => "tool_calling"
  | tool_completed => "tool_completed"
  | processing_notes => "processing_notes"
  | iteration_completed => "iteration_completed"
  | new_topic_added => "new_topic_added"
  | reporting_started => "reporting_started"
  | deduplicate_completed => "deduplicate_completed"
  | outline_completed => "outline_completed"
  | writing_section => "writing_section"
  | writing_completed => "writing_completed"
  | reporting_completed => "reporting_completed"
  | log => "log"
  | error => "error"
  | status => "status"
  end.

Definition ResearchEventType_all : list ResearchEventType :=
  [ planning_started; rephrase_completed; decompose_started;
    decompose_completed; queue_seeded; planning_completed;
    researching_started; parallel_status_update; block_started;
    block_completed; block_failed; researching_completed;
    iteration_started; checking_sufficiency; knowledge_sufficient;
    generating_query; tool_calling; tool_completed; processing_notes;
    iteration_completed; new_topic_added;
    reporting_started; deduplicate_completed; outline_completed;
    writing_section; writing_completed; reporting_completed;
    log; error; status ].

(** The member of the union that a string names, if any. *)
Definition ResearchEventType_of_string (s : string) : option ResearchEventType :=
  find (fun e => ResearchEventType_name e =? s) ResearchEventType_all.

Global Instance ResearchEventType_eq_dec : EqDecision ResearchEventType.
Proof. solve_decision. Defined.

Global Instance TopicBlockStatus_eq_dec : EqDecision TopicBlockStatus.
Proof. solve_decision. Defined.

(** *** Interfaces *)

Definition ToolTrace (o : gmap string value) : bool :=
  optional o "tool_id" is_string
  && optional o "citation_id" is_string
  && required o "tool_type" is_string
  && required o "query" is_string
  && required o "raw_answer" is_string
  && required o "summary" is_string
  && optional o "timestamp" is_string
  && optional o "raw_answer_truncated" is_boolean
  && optional o "raw_answer_original_size" is_number.

Definition TopicBlock (o : gmap string value) : bool :=
  required o "block_id" is_string
  && required o "sub_topic" is_string
  && required o "overview" is_string
  && required o "status" (literal_of TopicBlockStatus_name TopicBlockStatus_all)
  && required o "tool_traces" (array_of (object_of ToolTrace))
  && required o "iteration_count" is_number
  && required o "created_at" is_string
  && required o "updated_at" is_string
  && optional o "metadata" is_record.

Definition ThoughtEntry (o : gmap string value) : bool :=
  required o "type" (literal_of ThoughtType_name ThoughtType_all)
  && required o "content" is_string
  && optional o "metadata" is_record
  && required o "timestamp" is_number.

Definition TaskState (o : gmap string value) : bool :=
  required o "id" is_string
  && required o "topic" is_string
  && required o "status" (literal_of TaskStatus_name TaskStatus_all)
  && required o "iteration" is_number
  && required o "maxIterations" is_number
  && required o "currentAction" is_string
  && required o "toolsUsed" (array_of is_string)
  && required o "thoughts" (array_of (object_of ThoughtEntry))
  && required o "lastUpdate" is_number
  && optional o "currentTool" is_string
  && optional o "currentQuery" is_string.

(** [ResearchEvent]; the index signature [[key: string]: any] leaves every
    other property unconstrained. *)
Definition ResearchEvent (o : gmap string value) : bool :=
  required o "type" (literal_of ResearchEventType_name ResearchEventType_all)
  && optional o "stage" is_string
  && optional o "status" is_string
  && optional o "timestamp" is_string
  && optional o "research_id" is_string.

(** *** The event names the design document enumerates *)

(** Section 4.1, Topic Planner. *)
Definition spec_planning_events : list string :=
  [ "planning_started"; "rephrase_completed"; "decompose_started";
    "decompose_completed"; "queue_seeded"; "planning_completed" ].

(** Section 4.2, Block Scheduler. *)
Definition spec_scheduler_events : list string :=
  [ "researching_started"; "block_started"; "block_completed";
    "block_failed"; "parallel_status_update"; "researching_completed" ].

(** Section 4.3, Research Agent. *)
Definition spec_agent_events : list string :=
  [ "checking_sufficiency"; "knowledge_sufficient"; "generating_query";
    "tool_calling"; "tool_completed"; "processing_notes";
    "new_topic_added"; "iteration_completed" ].

(** Section 4.4, Report Synthesizer. *)
Definition spec_reporting_events : list string :=
  [ "reporting_started"; "deduplicate_completed"; "outline_completed";
    "writing_section"; "writing_completed"; "reporting_completed" ].

(** Section 6, system-level event types. *)
Definition spec_system_events : list string := [ "log"; "error"; "status" ].

Definition spec_event_names : list string :=
  spec_planning_events ++ spec_scheduler_events ++ spec_agent_events
  ++ spec_reporting_events ++ spec_system_events.

(** *** Sample objects *)

Definition sample_ToolTrace : gmap string value :=
  <["tool_type" := JStr "web_search"]>
  (<["query" := JStr "light reactions"]>
  (<["raw_answer" := JStr "..."]>
  (<["summary" := JStr "chlorophyll absorbs light"]> ∅))).

Definition sample_TopicBlock : gmap string value :=
  <["block_id" := JStr "block_1"]>
  (<["sub_topic" := JStr "Light reactions"]>
  (<["overview" := JStr "How light energy is captured"]>
  (<["status" := JStr "pending"]>
  (<["tool_traces" := JArr [JObj sample_ToolTrace]]>
  (<["iteration_count" := JNum 0]>
  (<["created_at" := JStr "2025-01-01T00:00:00"]>
  (<["updated_at" := JStr "2025-01-01T00:00:00"]> ∅))))))).

Definition sample_TaskState : gmap string value :=
  <["id" := JStr "block_1"]>
  (<["topic" := JStr "Light reactions"]>
  (<["status" := JStr "pending"]>
  (<["iteration" := JNum 0]>
  (<["maxIterations" := JNum 3]>
  (<["currentAction" := JStr "Waiting"]>
  (<["toolsUsed" := JArr []]>
  (<["thoughts" := JArr []]>
  (<["lastUpdate" := JNum 0]> ∅)))))))).

(** The four properties of [ResearchEvent] declared with [?]. *)
Definition ResearchEvent_optional_fields : list string :=
  ["stage"; "status"; "timestamp"; "research_id"].

(** The smallest event: a [type] and nothing else. *)
Definition bare_event : gmap string value := {["type" := JStr "log"]}.

Definition full_event : gmap string value :=
  <["stage" := JStr "researching"]>
  (<["status" := JStr "running"]>
  (<["timestamp" := JStr "2025-01-01T00:00:00"]>
  (<["research_id" := JStr "r1"]> bare_event))).

(** *** Proof automation *)

(** Case analysis on membership in a list that is written out. *)
Ltac list_cases H :=
  repeat (apply elem_of_cons in H as [-> | H]); [.. | now apply elem_of_nil in H].

End Contract.

(* ===================================================================== *)
(** ** The research orchestrator *)
(* ===================================================================== *)

(** The sources hold the data contract of the orchestrator and none of its
    code.  This module models, from the design document, the parts the
    properties below are about: the Research Agent loop (section 4.3), the
    Block Scheduler with its queue, worker bound and run-level cancellation
    (sections 4.2 and 5), the allocation of citation identifiers (sections 3
    and 5) and the publication of per-block events (section 4.5).  Planning
    and report synthesis are outside the model, and so are timestamps. *)

Module Research.
Import Contract.
Local Open Scope list_scope.

(** Modelled from the spec: a block is identified by its position in the
    run's table of blocks (the contract carries the identifier as a string). *)
Abbreviation block_id := nat (only parsing).

(** Modelled from the spec: section 3, ToolTrace, the record of one tool
    invocation; the citation identifier is the number the allocator handed
    out. *)
Record ToolTrace := {
  citation_id : nat;
  tool_type : string;
  query : string;
  raw_answer : string;
  summary : string;
  raw_answer_truncated : bool;
  raw_answer_original_size : option nat
}.

(** Modelled from the spec: section 3, ThoughtEntry, one step of the agent's
    visible reasoning. *)
Record ThoughtEntry := {
  thought_type : ThoughtType;
  content : string
}.

(** Modelled from the spec: what the Language Model Interface returns when
    asked to formulate the next query. *)
Record Query := {
  query_text : string;
  query_tool : string
}.

(** Modelled from the spec: what the Tool Invocation Interface returns, a raw
    result and a short summary, and the materially new sub-topic the result
    surfaces, if any. *)
Record ToolResult := {
  result_raw : string;
  result_summary : string;
  result_discovered : option string
}.

(** Modelled from the spec: section 4.3, the control point of the agent loop
    between two steps. *)
Inductive Phase :=
| AtLoopHead
| Checking
| Generating
| Calling (q : Query)
| Processing (r : ToolResult).

(** Modelled from the spec: section 7, the failures that end a block. *)
Inductive FailureReason :=
| ToolInvocationError
| ModelInvocationError
| CancellationError.

(** Modelled from the spec: section 3, TopicBlock, with the agent's control
    point, the partial-knowledge note and the failure reason of its
    metadata. *)
Record TopicBlock := {
  sub_topic : string;
  status : TopicBlockStatus;
  tool_traces : list ToolTrace;
  iteration_count : nat;
  thoughts : list ThoughtEntry;
  phase : Phase;
  partial_knowledge : bool;
  failure : option FailureReason
}.

(** Modelled from the spec: sections 2 and 5, the external collaborators.
    Each call is identified by the block, the iteration and the attempt (0,
    or 1 for the retry); [None] is a failure or a timeout of that call. *)
Record Collaborators := {
  check_sufficiency : block_id -> nat -> nat -> option bool;
  formulate_query : block_id -> nat -> nat -> option Query;
  invoke_tool : block_id -> nat -> Query -> nat -> option ToolResult
}.

(** Modelled from the spec: section 7, local recovery is a single retry at
    the call boundary. *)
Definition with_retry {A} (call : nat -> option A) : option A :=
  match call 0 with
  | Some a => Some a
  | None => call 1
  end.

(** Modelled from the spec: section 6, the run configuration, and the size
    beyond which a raw answer is stored truncated. *)
Record Config := {
  max_iterations : nat;
  execution_mode : ExecutionMode;
  max_concurrency : nat;
  raw_answer_limit : nat
}.

(** Modelled from the spec: section 5, the worker pool has size
    [maxConcurrency], 1 in series mode. *)
Definition workers (cfg : Config) : nat :=
  match execution_mode cfg with
  | series => 1
  | parallel => max_concurrency cfg
  end.

(** Modelled from the spec: section 6, a published event with the emitting
    block and, for [tool_completed], the citation identifier in its
    payload. *)
Record Event := {
  ev_type : ResearchEventType;
  ev_block : block_id;
  ev_citation : option nat
}.

(** Modelled from the spec: an event without a payload. *)
Definition event (t : ResearchEventType) (b : block_id) : Event :=
  {| ev_type := t; ev_block := b; ev_citation := None |}.

(** Modelled from the spec: section 3, the raw answer is stored possibly
    truncated, with an original-size marker when truncated. *)
Definition mk_trace (limit cid : nat) (q : Query) (r : ToolResult) : ToolTrace :=
  let size := String.length (result_raw r) in
  if (limit <? size)%nat then
    {| citation_id := cid;
       tool_type := query_tool q;
       query := query_text q;
       raw_answer := String.substring 0 limit (result_raw r);
       summary := result_summary r;
       raw_answer_truncated := true;
       raw_answer_original_size := Some size |}
  else
    {| citation_id := cid;
       tool_type := query_tool q;
       query := query_text q;
       raw_answer := result_raw r;
       summary := result_summary r;
       raw_answer_truncated := false;
       raw_answer_original_size := None |}.

(** Modelled from the spec: the contract carries a citation identifier as a
    string; the number is written in decimal. *)
Definition citation_label (n : nat) : string :=
  NilEmpty.string_of_uint (Nat.to_uint n).

(** Modelled from the spec: a trace as it is delivered, an object of the
    contract's [ToolTrace]; the original size is present when the trace
    carries one. *)
Definition trace_json (t : ToolTrace) : gmap string value :=
  let o : gmap string value :=
    <["citation_id" := JStr (citation_label (citation_id t))]>
    (<["tool_type" := JStr (tool_type t)]>
    (<["query" := JStr (query t)]>
    (<["raw_answer" := JStr (raw_answer t)]>
    (<["summary" := JStr (summary t)]>
    (<["raw_answer_truncated" := JBool (raw_answer_truncated t)]> ∅))))) in
  match raw_answer_original_size t with
  | Some size => <["raw_answer_original_size" := JNum (Z.of_nat size)]> o
  | None => o
  end.

(** Modelled from the spec: an event as it is delivered, an object of the
    contract's [ResearchEvent] with the block and the citation in its
    payload. *)
Definition event_json (e : Event) : gmap string value :=
  let o : gmap string value :=
    <["type" := JStr (ResearchEventType_name (ev_type e))]>
    (<["block_id" := JNum (Z.of_nat (ev_block e))]> ∅) in
  match ev_citation e with
  | Some n => <["citation_id" := JStr (citation_label n)]> o
  | None => o
  end.

(** *** Updates of a block *)

(** Modelled from the spec: section 3, a block is created pending, with no
    trace and no iteration. *)
Definition new_block (topic : string) : TopicBlock :=
  {| sub_topic := topic; status := pending; tool_traces := [];
     iteration_count := 0; thoughts := []; phase := AtLoopHead;
     partial_knowledge := false; failure := None |}.

(** Modelled from the spec: section 4.3, every step appends a ThoughtEntry;
    here the agent moves to the control point [ph]. *)
Definition advance (ph : Phase) (th : ThoughtEntry) (blk : TopicBlock) : TopicBlock :=
  {| sub_topic := sub_topic blk; status := status blk;
     tool_traces := tool_traces blk;
     iteration_count := iteration_count blk;
     thoughts := thoughts blk ++ [th]; phase := ph;
     partial_knowledge := partial_knowledge blk; failure := failure blk |}.

(** Modelled from the spec: section 4.3, a ToolTrace is appended to the
    block. *)
Definition append_trace (t : ToolTrace) (blk : TopicBlock) : TopicBlock :=
  {| sub_topic := sub_topic blk; status := status blk;
     tool_traces := tool_traces blk ++ [t];
     iteration_count := iteration_count blk;
     thoughts := thoughts blk; phase := phase blk;
     partial_knowledge := partial_knowledge blk; failure := failure blk |}.

(** Modelled from the spec: section 4.3, an iteration ends; the count goes
    up and the loop is back at its head. *)
Definition complete_iteration (th : ThoughtEntry) (blk : TopicBlock) : TopicBlock :=
  {| sub_topic := sub_topic blk; status := status blk;
     tool_traces := tool_traces blk;
     iteration_count := S (iteration_count blk);
     thoughts := thoughts blk ++ [th]; phase := AtLoopHead;
     partial_knowledge := partial_knowledge blk; failure := failure blk |}.

(** Modelled from the spec: section 4.2, [pending -> researching]. *)
Definition start_block (blk : TopicBlock) : TopicBlock :=
  {| sub_topic := sub_topic blk; status := researching;
     tool_traces := tool_traces blk;
     iteration_count := iteration_count blk;
     thoughts := thoughts blk; phase := phase blk;
     partial_knowledge := partial_knowledge blk; failure := failure blk |}.

(** Modelled from the spec: section 4.3, the block ends as completed, with
    or without the partial-knowledge note. *)
Definition complete_block (partial : bool) (th : ThoughtEntry) (blk : TopicBlock) : TopicBlock :=
  {| sub_topic := sub_topic blk; status := completed;
     tool_traces := tool_traces blk;
     iteration_count := iteration_count blk;
     thoughts := thoughts blk ++ [th]; phase := phase blk;
     partial_knowledge := partial; failure := None |}.

(** Modelled from the spec: section 7, the block ends as failed; the
    failure is recorded as its terminal thought. *)
Definition fail_block (why : FailureReason) (th : ThoughtEntry) (blk : TopicBlock) : TopicBlock :=
  {| sub_topic := sub_topic blk; status := failed;
     tool_traces := tool_traces blk;
     iteration_count := iteration_count blk;
     thoughts := thoughts blk ++ [th]; phase := phase blk;
     partial_knowledge := partial_knowledge blk; failure := Some why |}.

(** Modelled from the spec: a thought of the given type. *)
Definition thought (t : ThoughtType) (text : string) : ThoughtEntry :=
  {| thought_type := t; content := text |}.

(** *** The Research Agent *)

(** Modelled from the spec: section 9, what one step of the agent hands back
    to the scheduler: the block as it now is, the events to publish, whether
    the citation identifier it was offered has been used, and the sub-topic
    it discovered. *)
Record StepResult := {
  next_block : TopicBlock;
  emitted : list Event;
  minted : bool;
  discovered : option string
}.

(** Modelled from the spec: a step that uses no citation identifier and
    discovers nothing. *)
Definition result (blk : TopicBlock) (evs : list Event) : StepResult :=
  {| next_block := blk; emitted := evs; minted := false; discovered := None |}.

(** Modelled from the spec: section 4.3, one step of the per-block loop
    (check sufficiency, formulate the query, invoke the tool, integrate the
    notes, close the iteration) for block [b], which is being researched;
    [cid] is the citation identifier the allocator offers. *)
Definition agent_step (c : Collaborators) (cfg : Config) (b : block_id)
    (cid : nat) (blk : TopicBlock) : StepResult :=
  let i := iteration_count blk in
  match phase blk with
  | AtLoopHead =>
      if (max_iterations cfg <=? i)%nat then
        result (complete_block true
                  (thought note "iteration budget exhausted, knowledge is partial") blk)
               []
      else
        result (advance Checking (thought sufficiency "are the notes sufficient") blk)
               [event checking_sufficiency b]
  | Checking =>
      match with_retry (check_sufficiency c b i) with
      | None =>
          result (fail_block ModelInvocationError
                    (thought error_thought "sufficiency check failed twice") blk)
                 []
      | Some true =>
          result (complete_block false (thought sufficiency "notes are sufficient") blk)
                 [event knowledge_sufficient b]
      | Some false =>
          result (advance Generating (thought plan "formulate the next query") blk)
                 [event generating_query b]
      end
  | Generating =>
      match with_retry (formulate_query c b i) with
      | None =>
          result (fail_block ModelInvocationError
                    (thought error_thought "query formulation failed twice") blk)
                 []
      | Some q =>
          result (advance (Calling q) (thought tool_call (query_text q)) blk)
                 [event tool_calling b]
      end
  | Calling q =>
      match with_retry (invoke_tool c b i q) with
      | None =>
          result (fail_block ToolInvocationError
                    (thought error_thought "tool invocation failed twice") blk)
                 []
      | Some r =>
          {| next_block :=
               advance (Processing r) (thought note (result_summary r))
                 (append_trace (mk_trace (raw_answer_limit cfg) cid q r) blk);
             emitted :=
               [ {| ev_type := tool_completed; ev_block := b;
                    ev_citation := Some cid |};
                 event processing_notes b ];
             minted := true;
             discovered := None |}
      end
  | Processing r =>
      {| next_block := complete_iteration (thought note "notes integrated") blk;
         emitted :=
           match result_discovered r with
           | Some _ => [event new_topic_added b; event iteration_completed b]
           | None => [event iteration_completed b]
           end;
         minted := false;
         discovered := result_discovered r |}
  end.

(** *** The Block Scheduler *)

(** Modelled from the spec: section 3, ResearchState, the part the scheduler
    owns: the table of blocks, the FIFO queue of pending blocks, the global
    citation counter, the published events, and whether the run was
    cancelled. *)
Record RunState := {
  blocks : list TopicBlock;
  queue : list block_id;
  next_citation : nat;
  events : list Event;
  cancelled : bool
}.

(** Modelled from the spec: section 4.1, the planner seeds the queue with
    the initial blocks. *)
Definition init (topics : list string) : RunState :=
  {| blocks := new_block <$> topics;
     queue := seq 0 (length topics);
     next_citation := 1;
     events := [];
     cancelled := false |}.

(** Modelled from the spec: section 4.2, the terminal states of a block. *)
Definition is_terminal (s : TopicBlockStatus) : bool :=
  match s with
  | completed | failed => true
  | pending | researching => false
  end.

(** Modelled from the spec: the block is being researched. *)
Definition is_researching (blk : TopicBlock) : bool :=
  match status blk with researching => true | _ => false end.

(** Modelled from the spec: section 3, the currently-active task ids, the
    blocks being researched. *)
Definition active (st : RunState) : list block_id :=
  List.filter (fun b => match blocks st !! b with
                        | Some blk => is_researching blk
                        | None => false
                        end) (seq 0 (length (blocks st))).

(** Modelled from the spec: section 4.2, the scheduler announces the end of a
    block by [block_completed] or [block_failed]. *)
Definition closing_events (b : block_id) (blk : TopicBlock) : list Event :=
  match status blk with
  | completed => [event block_completed b]
  | failed => [event block_failed b]
  | pending | researching => []
  end.

(** Modelled from the spec: section 4.2, an idle worker takes the block at
    the head of the queue; nothing happens when no worker is idle, the queue
    is empty or the run was cancelled. *)
Definition dispatch (cfg : Config) (st : RunState) : RunState :=
  if cancelled st then st
  else if (length (active st) <? workers cfg)%nat then
    match queue st with
    | [] => st
    | b :: q =>
        {| blocks := alter start_block b (blocks st);
           queue := q;
           next_citation := next_citation st;
           events := events st ++ [event block_started b];
           cancelled := false |}
    end
  else st.

(** Modelled from the spec: section 4.2, the block of a discovered
    sub-topic. *)
Definition new_blocks (found : option string) : list TopicBlock :=
  match found with
  | Some topic => [new_block topic]
  | None => []
  end.

(** Modelled from the spec: section 4.2, the identifier under which a
    discovered sub-topic is queued. *)
Definition new_ids (found : option string) (next : block_id) : list block_id :=
  match found with
  | Some _ => [next]
  | None => []
  end.

(** Modelled from the spec: sections 4.2, 5 and 9, the worker that holds
    block [b] runs one step of its agent, and the scheduler takes the result
    over: the block is updated, a discovered sub-topic is appended to the
    table and to the queue, the citation counter moves on when the offered
    identifier was used, and the events are published in order. *)
Definition step (c : Collaborators) (cfg : Config) (b : block_id)
    (st : RunState) : RunState :=
  if cancelled st then st
  else
    match blocks st !! b with
    | None => st
    | Some blk =>
        if is_researching blk then
          let r := agent_step c cfg b (next_citation st) blk in
          {| blocks := <[b := next_block r]> (blocks st) ++ new_blocks (discovered r);
             queue := queue st ++ new_ids (discovered r) (length (blocks st));
             next_citation :=
               if minted r then S (next_citation st) else next_citation st;
             events := events st ++ emitted r ++ closing_events b (next_block r);
             cancelled := false |}
        else st
    end.

(** Modelled from the spec: section 5, on cancellation a block that has not
    ended fails with a cancellation reason. *)
Definition cancel_block (blk : TopicBlock) : TopicBlock :=
  if is_terminal (status blk) then blk
  else fail_block CancellationError (thought error_thought "run cancelled") blk.

(** Modelled from the spec: section 7, the failure of a cancelled block is
    visible as a [block_failed] event. *)
Definition cancel_event (b : block_id) (blk : TopicBlock) : list Event :=
  if is_terminal (status blk) then [] else [event block_failed b].

(** Modelled from the spec: the events of a cancellation, for the blocks
    [bs] numbered from [b]. *)
Fixpoint cancel_events (b : block_id) (bs : list TopicBlock) : list Event :=
  match bs with
  | [] => []
  | blk :: bs' => cancel_event b blk ++ cancel_events (S b) bs'
  end.

(** Modelled from the spec: section 5, the run-level cancellation signal:
    every block that has not ended becomes failed with a cancellation
    reason, and nothing is dispatched or stepped afterwards. *)
Definition cancel (st : RunState) : RunState :=
  if cancelled st then st
  else
    {| blocks := cancel_block <$> blocks st;
       queue := [];
       next_citation := next_citation st;
       events := events st ++ cancel_events 0 (blocks st);
       cancelled := true |}.

(** Modelled from the spec: what may happen next in a run. *)
Inductive Action :=
| Dispatch
| Step (b : block_id)
| Cancel.

(** Modelled from the spec: the effect of one action. *)
Definition exec (c : Collaborators) (cfg : Config) (st : RunState)
    (a : Action) : RunState :=
  match a with
  | Dispatch => dispatch cfg st
  | Step b => step c cfg b st
  | Cancel => cancel st
  end.

(** Modelled from the spec: a run is any interleaving of these actions, from
    the seeded state; series mode is the case of one worker. *)
Definition run (c : Collaborators) (cfg : Config) (sched : list Action)
    (st : RunState) : RunState :=
  foldl (exec c cfg) st sched.

(** *** What the properties are stated with *)

(** The citation identifiers in the order in which they were assigned, read
    off the published [tool_completed] events. *)
Definition assigned (evs : list Event) : list nat := omap ev_citation evs.

Definition trace_ids (blk : TopicBlock) : list nat :=
  citation_id <$> tool_traces blk.

(** The citation identifiers on the traces of all blocks. *)
Definition all_citation_ids (bs : list TopicBlock) : list nat :=
  mjoin (trace_ids <$> bs).

(** The types of the events published for block [b], in publication order. *)
Definition block_events (b : block_id) (evs : list Event) : list ResearchEventType :=
  ev_type <$> filter (fun e => ev_block e = b) evs.

(** A truncated trace carries its original size, which is beyond the
    limit. *)
Definition trace_marked (cfg : Config) (t : ToolTrace) : Prop :=
  raw_answer_truncated t = true ->
  exists size, raw_answer_original_size t = Some size
               /\ raw_answer_limit cfg < size.

(** *** The state machine of a block's events *)

(** Modelled from the spec: sections 4.2 and 4.3, which event may follow
    which in the events of one block ([None]: no event yet).  A block is
    started, then each iteration passes through [checking_sufficiency],
    [generating_query], [tool_calling] (closed by [tool_completed]),
    [processing_notes] (with an optional [new_topic_added]) and
    [iteration_completed], and loops back; the block ends after
    [knowledge_sufficient] or at the head of the loop by [block_completed],
    or it fails; nothing follows [block_completed] or [block_failed]. *)
Definition follows (prev : option ResearchEventType) (e : ResearchEventType) : bool :=
  match prev, e with
  | None, block_started => true
  | None, block_failed => true
  | Some block_started, (checking_sufficiency | block_completed | block_failed) => true
  | Some checking_sufficiency,
      (knowledge_sufficient | generating_query | block_failed) => true
  | Some knowledge_sufficient, block_completed => true
  | Some generating_query, (tool_calling | block_failed) => true
  | Some tool_calling, (tool_completed | block_failed) => true
  | Some tool_completed, processing_notes => true
  | Some processing_notes,
      (new_topic_added | iteration_completed | block_failed) => true
  | Some new_topic_added, iteration_completed => true
  | Some iteration_completed,
      (checking_sufficiency | block_completed | block_failed) => true
  | _, _ => false
  end.

(** The event reached by following a sequence of events from [prev], if
    each may follow the one before. *)
Fixpoint walk (prev : option ResearchEventType) (l : list ResearchEventType)
    : option (option ResearchEventType) :=
  match l with
  | [] => Some prev
  | e :: l' => if follows prev e then walk (Some e) l' else None
  end.

(** A sequence of events is a valid path through the state machine. *)
Definition valid_path (l : list ResearchEventType) : Prop :=
  is_Some (walk None l).

(** Modelled from the spec: section 4.3, the five states of the loop. *)
Inductive LoopState :=
| CheckingSufficiency
| GeneratingQuery
| ToolCalling
| ProcessingNotes
| IterationCompleted.

Global Instance LoopState_eq_dec : EqDecision LoopState.
Proof. solve_decision. Defined.

(** The state an event announces, if it announces one. *)
Definition loop_state (e : ResearchEventType) : option LoopState :=
  match e with
  | checking_sufficiency => Some CheckingSufficiency
  | generating_query => Some GeneratingQuery
  | tool_calling => Some ToolCalling
  | processing_notes => Some ProcessingNotes
  | iteration_completed => Some IterationCompleted
  | _ => None
  end.

(** Modelled from the spec: section 4.3, [checking_sufficiency ->
    generating_query -> tool_calling -> processing_notes ->
    iteration_completed], looping back to [checking_sufficiency]. *)
Definition next_loop_state (s : LoopState) : LoopState :=
  match s with
  | CheckingSufficiency => GeneratingQuery
  | GeneratingQuery => ToolCalling
  | ToolCalling => ProcessingNotes
  | ProcessingNotes => IterationCompleted
  | IterationCompleted => CheckingSufficiency
  end.

(** The state that must come next: the first state of the loop, or the
    successor of the current one. *)
Definition expected_state (cur : option LoopState) : LoopState :=
  match cur with
  | None => CheckingSufficiency
  | Some s => next_loop_state s
  end.

(** No transition is skipped: each state is the one expected after the
    state before. *)
Fixpoint loop_path_from (cur : option LoopState) (l : list LoopState) : bool :=
  match l with
  | [] => true
  | s :: l' => bool_decide (s = expected_state cur) && loop_path_from (Some s) l'
  end.

Definition loop_path (l : list ResearchEventType) : Prop :=
  loop_path_from None (omap loop_state l) = true.

(** The events that announce the end of a block. *)
Definition is_closing (e : ResearchEventType) : bool :=
  match e with
  | block_completed | block_failed => true
  | _ => false
  end.

(** No event follows the end of the block. *)
Definition ends_at_closing (l : list ResearchEventType) : Prop :=
  forall before e after,
    l = before ++ e :: after -> is_closing e = true -> after = [].

(** The loop state a block is in after its last event. *)
Definition loop_state_after (prev : option ResearchEventType) : option LoopState :=
  match prev with
  | Some checking_sufficiency | Some knowledge_sufficient => Some CheckingSufficiency
  | Some generating_query => Some GeneratingQuery
  | Some tool_calling | Some tool_completed => Some ToolCalling
  | Some processing_notes | Some new_topic_added => Some ProcessingNotes
  | Some iteration_completed => Some IterationCompleted
  | _ => None
  end.

(** The last event published for a block, read off the block. *)
Definition last_event_of (blk : TopicBlock) : option ResearchEventType :=
  match status blk with
  | pending => None
  | completed => Some block_completed
  | failed => Some block_failed
  | researching =>
      match phase blk with
      | AtLoopHead =>
          match iteration_count blk with
          | 0 => Some block_started
          | S _ => Some iteration_completed
          end
      | Checking => Some checking_sufficiency
      | Generating => Some generating_query
      | Calling _ => Some tool_calling
      | Processing _ => Some processing_notes
      end
  end.

(** *** Changes of state and invariants of a run *)

(** The three ways in which an action changes the state, as a relation:
    what [dispatch], [step] and [cancel] do when they do something. *)
Inductive Change (c : Collaborators) (cfg : Config) (st : RunState)
    : RunState -> Prop :=
| Started b q blk :
    cancelled st = false ->
    queue st = b :: q ->
    blocks st !! b = Some blk ->
    status blk = pending ->
    Change c cfg st
      {| blocks := <[b := start_block blk]> (blocks st);
         queue := q;
         next_citation := next_citation st;
         events := events st ++ [event block_started b];
         cancelled := false |}
| Stepped b blk :
    cancelled st = false ->
    blocks st !! b = Some blk ->
    status blk = researching ->
    Change c cfg st
      (let r := agent_step c cfg b (next_citation st) blk in
       {| blocks := <[b := next_block r]> (blocks st) ++ new_blocks (discovered r);
          queue := queue st ++ new_ids (discovered r) (length (blocks st));
          next_citation := if minted r then S (next_citation st) else next_citation st;
          events := events st ++ emitted r ++ closing_events b (next_block r);
          cancelled := false |})
| Cancelled :
    cancelled st = false ->
    Change c cfg st
      {| blocks := cancel_block <$> blocks st;
         queue := [];
         next_citation := next_citation st;
         events := events st ++ cancel_events 0 (blocks st);
         cancelled := true |}.

(** Modelled from the spec: section 7, a hard tool or model error at
    iteration [i] of block [b]: a call and its one retry both failed. *)
Definition hard_error (c : Collaborators) (b : block_id) (i : nat) : Prop :=
  (check_sufficiency c b i 0 = None /\ check_sufficiency c b i 1 = None)
  \/ (formulate_query c b i 0 = None /\ formulate_query c b i 1 = None)
  \/ (exists q, invoke_tool c b i q 0 = None /\ invoke_tool c b i q 1 = None).

(** Where a block stands with respect to its iteration budget, by status. *)
Definition agent_ok (c : Collaborators) (cfg : Config) (b : block_id)
    (blk : TopicBlock) : Prop :=
  match status blk with
  | pending => iteration_count blk = 0 /\ phase blk = AtLoopHead
  | researching =>
      match phase blk with
      | AtLoopHead => iteration_count blk <= max_iterations cfg
      | _ => iteration_count blk < max_iterations cfg
      end
  | completed =>
      if partial_knowledge blk
      then iteration_count blk = max_iterations cfg
      else iteration_count blk < max_iterations cfg
           /\ with_retry (check_sufficiency c b (iteration_count blk)) = Some true
  | failed =>
      failure blk = Some CancellationError
      \/ (failure blk <> Some CancellationError
          /\ iteration_count blk < max_iterations cfg
          /\ hard_error c b (iteration_count blk))
  end.

(** The number of steps after which the agent has ended a block that is
    being researched, at the latest: five steps per iteration that is left,
    and one to close the block. *)
Definition steps_left (cfg : Config) (blk : TopicBlock) : nat :=
  let left := max_iterations cfg - iteration_count blk in
  match phase blk with
  | AtLoopHead => 5 * left + 1
  | Checking => 5 * left
  | Generating => 5 * left - 1
  | Calling _ => 5 * left - 2
  | Processing _ => 5 * left - 3
  end.

(** Only a cancelled run holds blocks that failed by cancellation, and a
    cancelled run holds no block that has not ended. *)
Definition cancellation_ok (st : RunState) : Prop :=
  forall b blk, blocks st !! b = Some blk ->
    if cancelled st then is_terminal (status blk) = true
    else failure blk <> Some CancellationError.

(** The events of every block form a path that ends where the block is, and
    there are no events for blocks that do not exist. *)
Definition events_ok (c : Collaborators) (cfg : Config) (st : RunState) : Prop :=
  (forall b blk, blocks st !! b = Some blk ->
     agent_ok c cfg b blk
     /\ walk None (block_events b (events st)) = Some (last_event_of blk))
  /\ (forall b, blocks st !! b = None -> block_events b (events st) = []).

(** The citation identifiers published so far are strictly increasing and
    below the counter, and they are the identifiers on the traces. *)
Definition citations_ok (st : RunState) : Prop :=
  StronglySorted lt (assigned (events st))
  /\ Forall (fun n => n < next_citation st) (assigned (events st))
  /\ all_citation_ids (blocks st) ≡ₚ assigned (events st).

(** The queue holds pending blocks of the table, each once. *)
Definition queue_ok (st : RunState) : Prop :=
  NoDup (queue st)
  /\ forall b, b ∈ queue st ->
       exists blk, blocks st !! b = Some blk /\ status blk = pending.

(** *** A run to exercise the model *)

(** The scenario of section 8: topic "Photosynthesis", at most 3 iterations
    per block, two seeded blocks; the first reaches sufficiency after two
    iterations, the second never does.  Raw answers beyond 16 characters are
    truncated. *)
Definition photosynthesis_topics : list string :=
  ["Light-dependent reactions"; "Calvin cycle"].

Definition photosynthesis_config (mode : ExecutionMode) : Config :=
  {| max_iterations := 3; execution_mode := mode; max_concurrency := 2;
     raw_answer_limit := 16 |}.

Definition photosynthesis_collaborators : Collaborators :=
  {| check_sufficiency := fun b i _ =>
       match b with
       | 0 => Some (2 <=? i)%nat
       | _ => Some false
       end;
     formulate_query := fun _ _ _ =>
       Some {| query_text := "how is light energy stored";
               query_tool := "web_search" |};
     invoke_tool := fun b _ _ _ =>
       Some {| result_raw := "ATP and NADPH carry the energy to the stroma";
               result_summary := "energy carriers";
               result_discovered := None |} |}.

(** The same collaborators, except that every tool call of the second block
    times out. *)
Definition timeout_collaborators : Collaborators :=
  {| check_sufficiency := check_sufficiency photosynthesis_collaborators;
     formulate_query := formulate_query photosynthesis_collaborators;
     invoke_tool := fun b i q a =>
       match b with
       | 1 => None
       | _ => invoke_tool photosynthesis_collaborators b i q a
       end |}.

(** Series mode: the first block is run to its end, then the second. *)
Definition series_schedule : list Action :=
  Dispatch :: replicate 12 (Step 0) ++ Dispatch :: replicate 16 (Step 1).

(** Parallel mode with two workers: both blocks are dispatched and their
    steps alternate. *)
Definition parallel_schedule : list Action :=
  Dispatch :: Dispatch :: mjoin (replicate 16 [Step 1; Step 0]).

Definition series_run : RunState :=
  run photosynthesis_collaborators (photosynthesis_config series)
    series_schedule (init photosynthesis_topics).

Definition parallel_run : RunState :=
  run photosynthesis_collaborators (photosynthesis_config parallel)
    parallel_schedule (init photosynthesis_topics).

Definition timeout_run : RunState :=
  run timeout_collaborators (photosynthesis_config parallel)
    parallel_schedule (init photosynthesis_topics).

(** The run is cancelled while the first block is being researched and the
    second is pending. *)
Definition cancelled_run : RunState :=
  run photosynthesis_collaborators (photosynthesis_config series)
    [Dispatch; Step 0; Cancel] (init photosynthesis_topics).

(** The parallel schedule, cut after both blocks have their first trace. *)
Definition parallel_start : list Action :=
  Dispatch :: Dispatch :: mjoin (replicate 4 [Step 1; Step 0]).

Definition parallel_rest : list Action :=
  mjoin (replicate 12 [Step 1; Step 0]).

End Research.

(* ===================================================================== *)
(** ** Further JavaScript primitives *)
(* ===================================================================== *)

Module JsMore.
Import Js.
Local Open Scope list_scope.

(** [s.includes(p)]: [p] starts at some position of [s]. *)
Fixpoint includes (s p : string) : bool :=
  startsWith s p ||
  match s with
  | EmptyString => false
  | String _ s' => includes s' p
  end.

(** A list of entries with string keys, looked up by key: the entries of a
    directory by name, and the own properties of a JavaScript object (where
    an object puts a new key is said in [JsObject]). *)
Definition obj (V : Type) : Type := list (string * V).

(** The entry of key [k], the first if there are several. *)
Fixpoint get {V} (k : string) (o : obj V) : option V :=
  match o with
  | [] => None
  | (k', v) :: o' => if k' =? k then Some v else get k o'
  end.

(** The entry of key [k] replaced in its place, or added at the end when
    there is none. *)
Fixpoint set {V} (k : string) (v : V) (o : obj V) : obj V :=
  match o with
  | [] => [(k, v)]
  | (k', v') :: o' => if k' =? k then (k, v) :: o' else (k', v') :: set k v o'
  end.

Definition keys {V} (o : obj V) : list string := map fst o.

End JsMore.

(* ===================================================================== *)
(** ** Where the base URL comes from at run time *)
(* ===================================================================== *)

(** Three places evaluate [process.env.API_BASE_URL || default]: the root
    layout of the web application, which hands the result to the browser; the
    packaging script, for the environment of [next build]; and the wrapper the
    packaging script writes around the standalone [server.js]. *)

Module Layout.
Import Js Api.

(** [process.env.API_BASE_URL || "http://localhost:8004/realtimex"]. *)
Definition env_or_default (env : gmap string string) : string :=
  match truthy (env !! "API_BASE_URL") with
  | Some u => u
  | None => "http://localhost:8004/realtimex"
  end.

(** [RootLayout]: the object [runtimeConfig], computed on the server from the
    server's environment when the page is rendered.  The layout writes its
    JSON text into an inline script that assigns it to
    [window.__RUNTIME_CONFIG__]; what the browser makes of that text is not
    modelled. *)
Definition runtimeConfig (env : gmap string string) : RuntimeConfig :=
  {| API_BASE_URL := Some (env_or_default env) |}.

(** The globals of code that runs on the server. *)
Definition server (server_env : gmap string string) : Globals :=
  {| window := None; process_env := server_env |}.

End Layout.

Module ServerWrapper.
Import Js Api Layout.

(** The packaging script: [buildEnv], the environment of [npm run build]. *)
Definition buildEnv (process_env : gmap string string) : gmap string string :=
  <["API_BASE_URL" := env_or_default process_env]> process_env.

(** The wrapper written to [dist/server.js]: it assigns
    [process.env.API_BASE_URL = process.env.API_BASE_URL || default] and then
    loads the standalone server, which runs with the environment below. *)
Definition run_wrapper (process_env : gmap string string) : gmap string string :=
  <["API_BASE_URL" := env_or_default process_env]> process_env.

End ServerWrapper.

(* ===================================================================== *)
(** ** [web/bin/opentutor-web.js]: the launcher of the packaged server *)
(* ===================================================================== *)

Module Launcher.
Import Js.
Local Open Scope list_scope.

(** The three variables the argument loop assigns; [None] is [undefined]. *)
Record Options := {
  port : option string;
  hostname : option string;
  apiBase : option string
}.

Definition initial : Options :=
  {| port := None; hostname := None; apiBase := None |}.

(** How the loop leaves: through [printHelp(); process.exit(0)], or at its end
    with the options read. *)
Inductive Outcome :=
  | Help
  | Parsed (o : Options).

(** The loop over [rawArgs].  An option that takes a value reads
    [rawArgs[i + 1]] whatever it is, [undefined] past the end, and skips it;
    any other argument is passed over. *)
Fixpoint parse (rawArgs : list string) (o : Options) : Outcome :=
  match rawArgs with
  | [] => Parsed o
  | arg :: rest =>
      if (arg =? "-h") || (arg =? "--help") then Help
      else if (arg =? "-p") || (arg =? "--port") then
        match rest with
        | [] => Parsed {| port := None; hostname := hostname o; apiBase := apiBase o |}
        | v :: rest' =>
            parse rest' {| port := Some v; hostname := hostname o; apiBase := apiBase o |}
        end
      else if (arg =? "-H") || (arg =? "--hostname") then
        match rest with
        | [] => Parsed {| port := port o; hostname := None; apiBase := apiBase o |}
        | v :: rest' =>
            parse rest' {| port := port o; hostname := Some v; apiBase := apiBase o |}
        end
      else if arg =? "--api-base" then
        match rest with
        | [] => Parsed {| port := port o; hostname := hostname o; apiBase := None |}
        | v :: rest' =>
            parse rest' {| port := port o; hostname := hostname o; apiBase := Some v |}
        end
      else parse rest o
  end.

(** [...(v ? { KEY: String(v) } : {})] spread over [e]. *)
Definition spread_if (key : string) (v : option string)
    (e : gmap string string) : gmap string string :=
  match truthy v with
  | Some s => <[key := s]> e
  | None => e
  end.

(** The environment of the spawned server. *)
Definition env (process_env : gmap string string) (o : Options) : gmap string string :=
  spread_if "NEXT_PUBLIC_API_BASE" (apiBase o)
    (spread_if "HOSTNAME" (hostname o)
       (spread_if "PORT" (port o) process_env)).

(** An argument that makes the loop read the argument after it. *)
Definition takes_value (arg : string) : bool :=
  (arg =? "-p") || (arg =? "--port") || (arg =? "-H") || (arg =? "--hostname")
  || (arg =? "--api-base").

Definition is_help (arg : string) : bool := (arg =? "-h") || (arg =? "--help").

(** The argument list holds no help flag where the loop looks for options,
    and its last option that takes a value has one. *)
Fixpoint well_formed (rawArgs : list string) : bool :=
  match rawArgs with
  | [] => true
  | arg :: rest =>
      if is_help arg then false
      else if takes_value arg then
        match rest with
        | [] => false
        | _ :: rest' => well_formed rest'
        end
      else well_formed rest
  end.

(** [flag] stands at index [i] of the arguments and [v] right after it. *)
Definition flag_value (rawArgs : list string) (flags : list string) (v : string) : Prop :=
  exists i flag, rawArgs !! i = Some flag /\ In flag flags
                 /\ rawArgs !! S i = Some v.

End Launcher.

(* ===================================================================== *)
(** ** The launcher of the development server *)
(* ===================================================================== *)

Module DevLauncher.
Import Js.
Local Open Scope list_scope.

Inductive Mode := dev | start.

Record Options := {
  nextArgs : list string;
  mode : Mode;
  runBuild : bool;
  port : option string;
  hostname : option string;
  apiBase : option string
}.

Definition initial : Options :=
  {| nextArgs := []; mode := dev; runBuild := false;
     port := None; hostname := None; apiBase := None |}.

Inductive Outcome :=
  | Help
  | Parsed (o : Options).

Definition push_all (more : list string) (o : Options) : Options :=
  {| nextArgs := nextArgs o ++ more; mode := mode o; runBuild := runBuild o;
     port := port o; hostname := hostname o; apiBase := apiBase o |}.

Definition set_mode (m : Mode) (o : Options) : Options :=
  {| nextArgs := nextArgs o; mode := m; runBuild := runBuild o;
     port := port o; hostname := hostname o; apiBase := apiBase o |}.

Definition set_runBuild (o : Options) : Options :=
  {| nextArgs := nextArgs o; mode := mode o; runBuild := true;
     port := port o; hostname := hostname o; apiBase := apiBase o |}.

Definition set_port (v : option string) (o : Options) : Options :=
  {| nextArgs := nextArgs o; mode := mode o; runBuild := runBuild o;
     port := v; hostname := hostname o; apiBase := apiBase o |}.

Definition set_hostname (v : option string) (o : Options) : Options :=
  {| nextArgs := nextArgs o; mode := mode o; runBuild := runBuild o;
     port := port o; hostname := v; apiBase := apiBase o |}.

Definition set_apiBase (v : option string) (o : Options) : Options :=
  {| nextArgs := nextArgs o; mode := mode o; runBuild := runBuild o;
     port := port o; hostname := hostname o; apiBase := v |}.

(** The loop over [rawArgs]: ["--"] hands everything after it to Next.js and
    stops; an argument the launcher does not know is handed to Next.js. *)
Fixpoint parse (rawArgs : list string) (o : Options) : Outcome :=
  match rawArgs with
  | [] => Parsed o
  | arg :: rest =>
      if arg =? "--" then Parsed (push_all rest o)
      else if (arg =? "-h") || (arg =? "--help") then Help
      else if arg =? "--dev" then parse rest (set_mode dev o)
      else if arg =? "--start" then parse rest (set_mode start o)
      else if arg =? "--build" then parse rest (set_runBuild o)
      else if (arg =? "-p") || (arg =? "--port") then
        match rest with
        | [] => Parsed (set_port None o)
        | v :: rest' => parse rest' (set_port (Some v) o)
        end
      else if (arg =? "-H") || (arg =? "--hostname") then
        match rest with
        | [] => Parsed (set_hostname None o)
        | v :: rest' => parse rest' (set_hostname (Some v) o)
        end
      else if arg =? "--api-base" then
        match rest with
        | [] => Parsed (set_apiBase None o)
        | v :: rest' => parse rest' (set_apiBase (Some v) o)
        end
      else parse rest (push_all [arg] o)
  end.

(** [if (v) args.push(flag, String(v))]. *)
Definition push_if (flag : string) (v : option string) (args : list string) : list string :=
  match truthy v with
  | Some s => args ++ [flag; s]
  | None => args
  end.

(** The arguments of the build that precedes a production start, when
    [mode === "start" && runBuild]. *)
Definition buildArgs (nextBin : string) (o : Options) : option (list string) :=
  match mode o, runBuild o with
  | start, true =>
      Some (push_if "-H" (hostname o) (push_if "-p" (port o) [nextBin; "build"])
            ++ nextArgs o)
  | _, _ => None
  end.

(** The arguments of the server that is spawned. *)
Definition cmdArgs (nextBin : string) (o : Options) : list string :=
  push_if "-H" (hostname o)
    (push_if "-p" (port o)
       [nextBin; match mode o with start => "start" | dev => "dev" end])
  ++ nextArgs o.

(** The environment of the build and of the server. *)
Definition env (process_env : gmap string string) (o : Options) : gmap string string :=
  match truthy (apiBase o) with
  | Some s => <["NEXT_PUBLIC_API_BASE" := s]> process_env
  | None => process_env
  end.

(** An argument that makes the loop read the argument after it. *)
Definition takes_value (arg : string) : bool :=
  (arg =? "-p") || (arg =? "--port") || (arg =? "-H") || (arg =? "--hostname")
  || (arg =? "--api-base").

(** An argument that ends the loop. *)
Definition stops (arg : string) : bool :=
  (arg =? "--") || (arg =? "-h") || (arg =? "--help").

(** The argument list holds neither ["--"] nor a help flag where the loop
    looks for options, and its last option that takes a value has one. *)
Fixpoint well_formed (rawArgs : list string) : bool :=
  match rawArgs with
  | [] => true
  | arg :: rest =>
      if stops arg then false
      else if takes_value arg then
        match rest with
        | [] => false
        | _ :: rest' => well_formed rest'
        end
      else well_formed rest
  end.

End DevLauncher.

(* ===================================================================== *)
(** ** The packaging script *)
(* ===================================================================== *)

(** The script works on directory trees.  A tree is modelled with its regular
    files and its directories; the entries of a directory are listed by name,
    in the order [readdirSync] returns them; in a directory that is written
    the order carries no meaning, entries are looked up by name.  Symbolic
    links and special files are outside the model.  A function of [fs] that throws is modelled by
    [None]: the script catches nothing, so a throw ends it. *)

Module BuildPackage.
Import Js JsMore.
Local Open Scope list_scope.

Inductive node :=
  | File (content : string)
  | Dir (entries : list (string * node)).

(** A path below a directory, as the names [path.join] puts together. *)
Definition path : Type := list string.

(** [Dirent.isFile()] and [Dirent.isDirectory()]. *)
Definition isFile (n : node) : bool :=
  match n with File _ => true | Dir _ => false end.

Definition isDirectory (n : node) : bool :=
  match n with File _ => false | Dir _ => true end.

(** [entries.some(e => e.isFile() && e.name === name)]. *)
Definition has_file (name : string) (entries : list (string * node)) : bool :=
  existsb (fun e => isFile (snd e) && (fst e =? name)) entries.

(** [entries.some(e => e.isDirectory() && e.name === name)]. *)
Definition has_dir (name : string) (entries : list (string * node)) : bool :=
  existsb (fun e => isDirectory (snd e) && (fst e =? name)) entries.

(** The loop of [findStandaloneApp] over the entries of [dir]: the first
    subdirectory in which the search succeeds decides. *)
Definition findInEntries (find : path -> node -> option path) (dir : path) :
    list (string * node) -> option path :=
  fix loop (entries : list (string * node)) : option path :=
    match entries with
    | [] => None
    | (name, child) :: rest =>
        if isDirectory child then
          match find (dir ++ [name]) child with
          | Some result => Some result
          | None => loop rest
          end
        else loop rest
    end.

(** [findStandaloneApp(dir)], where [d] is what stands at [dir].  It is
    called on directories; [readdirSync] of a regular file throws. *)
Fixpoint findStandaloneApp (dir : path) (d : node) : option path :=
  match d with
  | File _ => None
  | Dir entries =>
      let hasServerJs := has_file "server.js" entries in
      let hasPackageJson := has_file "package.json" entries in
      let hasNextDir := has_dir ".next" entries in
      if hasServerJs && hasPackageJson && hasNextDir then Some dir
      else findInEntries (fun p c => findStandaloneApp p c) dir entries
  end.

(** [mkdirp(dest)]: the entries of the directory at [dest] afterwards.  A
    missing directory is created empty, an existing one is left as it is, and
    a regular file in its place makes [mkdirSync] throw. *)
Definition mkdirp (dest : option node) : option (list (string * node)) :=
  match dest with
  | None => Some []
  | Some (Dir entries) => Some entries
  | Some (File _) => None
  end.

(** [fs.copyFileSync(srcPath, destPath)] for a regular file with content
    [content], in the directory with entries [dest]: the file is created or
    overwritten; a directory at [destPath] makes it throw. *)
Definition copyFileSync (name content : string) (dest : list (string * node)) :
    option (list (string * node)) :=
  match get name dest with
  | Some (Dir _) => None
  | _ => Some (set name (File content) dest)
  end.

(** The loop of [copyDir] over the entries of the source, on the entries of
    the destination. *)
Definition copyEntries (copy : node -> option node -> option node) :
    list (string * node) -> list (string * node) -> option (list (string * node)) :=
  fix loop (entries dest : list (string * node)) : option (list (string * node)) :=
    match entries with
    | [] => Some dest
    | (name, child) :: rest =>
        match child with
        | Dir _ =>
            match copy child (get name dest) with
            | Some d => loop rest (set name d dest)
            | None => None
            end
        | File content =>
            match copyFileSync name content dest with
            | Some dest' => loop rest dest'
            | None => None
            end
        end
    end.

(** [copyDir(src, dest)]: what stands at [dest] afterwards, given what stands
    at [src] and what stood at [dest] ([None]: nothing).  The two do not
    overlap, as in the three calls of the script. *)
Fixpoint copyDir (src : node) (dest : option node) : option node :=
  match src with
  | File _ => None
  | Dir entries =>
      match mkdirp dest with
      | None => None
      | Some des =>
          match copyEntries (fun c d => copyDir c d) entries des with
          | Some des' => Some (Dir des')
          | None => None
          end
      end
  end.

(** What stands at a path below a node, following the first entry of each
    name. *)
Fixpoint at_path (n : node) (p : path) : option node :=
  match p with
  | [] => Some n
  | name :: p' =>
      match n with
      | File _ => None
      | Dir entries =>
          match get name entries with
          | Some child => at_path child p'
          | None => None
          end
      end
  end.

(** The content of the regular file at a path, if one stands there. *)
Definition file_at (n : node) (p : path) : option string :=
  match at_path n p with
  | Some (File content) => Some content
  | _ => None
  end.

(** A directory stands at a path. *)
Definition dir_at (n : node) (p : path) : bool :=
  match at_path n p with
  | Some (Dir _) => true
  | _ => false
  end.

(** What stood at a path of the destination before a copy; nothing, when the
    destination did not exist. *)
Definition before (dest : option node) (p : path) : option node :=
  match dest with
  | Some d => at_path d p
  | None => None
  end.

(** At path [p] the source and the destination do not clash: where the
    source has a directory the destination has no regular file, and where the
    source has a regular file the destination has no directory. *)
Definition compatible (src : node) (dest : option node) (p : path) : Prop :=
  match at_path src p, before dest p with
  | Some (Dir _), Some (File _) => False
  | Some (File _), Some (Dir _) => False
  | _, _ => True
  end.

(** The entries of a directory make it the root of a standalone
    application: [hasServerJs && hasPackageJson && hasNextDir]. *)
Definition is_app_root (entries : list (string * node)) : bool :=
  has_file "server.js" entries && has_file "package.json" entries
  && has_dir ".next" entries.

(** [p] leads from [n] down through entries that are directories to the
    directory with entries [es]. *)
Inductive leads_to : node -> path -> list (string * node) -> Prop :=
  | leads_here es : leads_to (Dir es) [] es
  | leads_down es name child p es' :
      In (name, child) es -> leads_to child p es' ->
      leads_to (Dir es) (name :: p) es'.

(** [p] leads from [n] to an application root and passes none on the way. *)
Inductive search : node -> path -> list (string * node) -> Prop :=
  | search_here es : is_app_root es = true -> search (Dir es) [] es
  | search_down es name child p es' :
      is_app_root es = false -> In (name, child) es -> search child p es' ->
      search (Dir es) (name :: p) es'.

(** The names of every directory of the tree are distinct, as they are in a
    file system. *)
Inductive distinct_names : node -> Prop :=
  | distinct_file content : distinct_names (File content)
  | distinct_dir entries :
      List.NoDup (keys entries) ->
      Forall (fun e => distinct_names (snd e)) entries ->
      distinct_names (Dir entries).

(** Induction on trees, with the hypothesis for every entry of a directory. *)
Fixpoint node_ind' (P : node -> Prop)
    (HFile : forall content, P (File content))
    (HDir : forall entries, Forall (fun e => P (snd e)) entries -> P (Dir entries))
    (n : node) : P n :=
  match n with
  | File content => HFile content
  | Dir entries =>
      HDir entries
        ((fix all (es : list (string * node)) : Forall (fun e => P (snd e)) es :=
            match es with
            | [] => @List.Forall_nil _ _
            | e :: es' =>
                @List.Forall_cons _ _ e es' (node_ind' P HFile HDir (snd e)) (all es')
            end) entries)
  end.

(** Step 7 of the script: the entries of [dist] after every entry whose name
    starts with [".env"] and that is a regular file has been unlinked. *)
Definition remove_env_files (dist : list (string * node)) : list (string * node) :=
  List.filter (fun e => negb (startsWith (fst e) ".env" && isFile (snd e))) dist.










(** A small standalone output and a destination, to exercise the functions. *)
Definition sample_app : list (string * node) :=
  [("server.js", File "next-server");
   ("package.json", File "{}");
   (".next", Dir [("BUILD_ID", File "42")]);
   (".env", File "SECRET=1")].

Definition sample_standalone : node :=
  Dir [("node_modules", Dir [("next", Dir [("package.json", File "{}")])]);
       ("Users", Dir [("dev", Dir [("web", Dir sample_app)])])].

Definition sample_static : node :=
  Dir [(".next", Dir [("static", Dir [("app.css", File "new")])]);
       ("server.js", File "patched")].

(** Settles [distinct_names] for a tree that is given in full. *)
Ltac distinct_names_tac :=
  repeat (first [ apply distinct_file
                | apply distinct_dir
                | apply List.NoDup_nil
                | apply List.NoDup_cons; [simpl; intuition discriminate |]
                | apply List.Forall_nil
                | apply List.Forall_cons ]).

End BuildPackage.

(* ===================================================================== *)
(** ** The own properties of a JavaScript object *)
(* ===================================================================== *)

(** An object with string keys is the list of its own properties in the order
    [Object.entries] lists them: first the keys that are array indices, in
    ascending numeric order, then the other keys in the order in which they
    were created. *)

Module JsObject.
Import Js JsMore.
Local Open Scope list_scope.

(** The array index a key stands for: the canonical decimal numeral of an
    integer from 0 to 2^32 - 2, as ["0"] and ["17"] but not ["01"], ["-1"]
    or the empty string. *)
Definition array_index (k : string) : option N :=
  match NilEmpty.uint_of_string k with
  | Some u =>
      let n := N.of_uint u in
      if (NilEmpty.string_of_uint (N.to_uint n) =? k) && (n <? 4294967295)%N
      then Some n else None
  | None => None
  end.

(** A new property whose key is the array index [n] goes before the first
    property that is not a smaller array index. *)
Fixpoint insert_index {V} (n : N) (k : string) (v : V) (o : obj V) : obj V :=
  match o with
  | [] => [(k, v)]
  | (k', v') :: o' =>
      match array_index k' with
      | Some n' =>
          if (n' <? n)%N then (k', v') :: insert_index n k v o'
          else (k, v) :: (k', v') :: o'
      | None => (k, v) :: (k', v') :: o'
      end
  end.

(** [{ ...o, [k]: v }]: the property [k] of the copy is defined.  An
    existing property keeps its place; a new one goes among the array indices
    or to the end.  A computed key ["__proto__"] is a property like any
    other here. *)
Definition define {V} (k : string) (v : V) (o : obj V) : obj V :=
  match get k o, array_index k with
  | None, Some n => insert_index n k v o
  | _, _ => set k v o
  end.

(** [o[k] = v] for a string [v] on an object made by [{}]: the key
    ["__proto__"] reaches the setter of [Object.prototype], which ignores a
    string, and no property is created; any other key is defined. *)
Definition assign {V} (k : string) (v : V) (o : obj V) : obj V :=
  if k =? "__proto__" then o else define k v o.

End JsObject.

(* ===================================================================== *)
(** ** [web/app/settings/page.tsx]: the environment variables of the settings page *)
(* ===================================================================== *)

Module Settings.
Import Js JsMore JsObject.
Local Open Scope list_scope.

(** [EnvVarInfo], as the backend describes a variable. *)
Record EnvVarInfo := {
  key : string;
  value : string;
  description : string;
  category : string;
  required : bool;
  default : string;
  sensitive : bool;
  is_set : bool
}.

Record EnvCategoryInfo := {
  id : string;
  name : string;
  category_description : string;
  icon : string
}.

(** [EnvConfigResponse]. *)
Record EnvConfigResponse := {
  variables : list EnvVarInfo;
  categories : list EnvCategoryInfo
}.

(** [fetchEnvConfig]: the object [initialValues], filled by
    [variables.forEach(v => { initialValues[v.key] = v.value })]. *)
Definition initialValues (vars : list EnvVarInfo) : obj string :=
  fold_left (fun acc v => assign (key v) (value v) acc) vars [].

(** [handleEnvVarChange(key, value)], as the update of [editedEnvVars]:
    [{ ...prev, [key]: value }]. *)
Definition handleEnvVarChange (k v : string) (prev : obj string) : obj string :=
  define k v prev.

(** [envConfig?.variables.find(v => v.key === key)]; [envConfig] is [null]
    until a response has arrived. *)
Definition original (envConfig : option EnvConfigResponse) (k : string) :
    option EnvVarInfo :=
  match envConfig with
  | Some c => find (fun v => key v =? k) (variables c)
  | None => None
  end.

(** The predicate [handleEnvSave] filters the entries of [editedEnvVars]
    with: an entry is dropped when the variable is sensitive and the value
    contains ["*"] and is the value the backend sent. *)
Definition is_update (envConfig : option EnvConfigResponse) (e : string * string) : bool :=
  let '(k, v) := e in
  match original envConfig k with
  | Some o =>
      if sensitive o && includes v "*" && (v =? value o) then false else true
  | None => true
  end.

(** [handleEnvSave]: the list [updates] sent to the backend, each entry with
    its [key] and [value]. *)
Definition updates (envConfig : option EnvConfigResponse) (editedEnvVars : obj string) :
    list (string * string) :=
  List.filter (is_update envConfig) editedEnvVars.

(** The state of the page after a response [c] has been loaded and the user
    has then changed variables one after the other. *)
Definition edited (c : EnvConfigResponse) (changes : list (string * string)) : obj string :=
  fold_left (fun acc e => handleEnvVarChange (fst e) (snd e) acc) changes
    (initialValues (variables c)).

(** A variable is shown masked: it is sensitive and its value holds a
    ["*"]. *)
Definition masked (v : EnvVarInfo) : bool :=
  sensitive v && includes (value v) "*".

Definition sample_env : EnvConfigResponse :=
  {| variables :=
       [ {| key := "LLM_MODEL"; value := "gpt-4o"; description := ""; category := "llm";
            required := true; default := ""; sensitive := false; is_set := true |};
         {| key := "LLM_API_KEY"; value := "sk-****"; description := ""; category := "llm";
            required := true; default := ""; sensitive := true; is_set := true |};
         {| key := "TTS_VOICE"; value := "*"; description := ""; category := "tts";
            required := false; default := ""; sensitive := false; is_set := true |} ];
     categories := [] |}.

(** A response whose keys include an array index and ["__proto__"]. *)
Definition sample_indexed : EnvConfigResponse :=
  {| variables :=
       [ {| key := "B"; value := "b"; description := ""; category := "";
            required := false; default := ""; sensitive := false; is_set := true |};
         {| key := "1"; value := "one"; description := ""; category := "";
            required := false; default := ""; sensitive := false; is_set := true |};
         {| key := "S"; value := "s*"; description := ""; category := "";
            required := false; default := ""; sensitive := true; is_set := true |};
         {| key := "__proto__"; value := "p"; description := ""; category := "";
            required := false; default := ""; sensitive := false; is_set := true |};
         {| key := "A"; value := "a"; description := ""; category := "";
            required := false; default := ""; sensitive := false; is_set := true |} ];
     categories := [] |}.

End Settings.

(* ===================================================================== *)
(** ** The settings tabs: configuration endpoints and the RealTimeX selector *)
(* ===================================================================== *)

Module ConfigTab.

(** [ConfigType]. *)
Inductive ConfigType := llm | embedding | tts | search.

Definition ConfigType_name (t : ConfigType) : string :=
  match t with
  | llm => "llm"
  | embedding => "embedding"
  | tts => "tts"
  | search => "search"
  end.

(** The paths [ConfigTab] hands to [apiUrl], as its template literals build
    them: [loadConfigs], [setActive], [deleteConfig] and [testConnection]. *)
Definition loadConfigs_path (configType : ConfigType) : string :=
  "/api/v1/config/" +:+ ConfigType_name configType.

Definition setActive_path (configType : ConfigType) (configId : string) : string :=
  "/api/v1/config/" +:+ ConfigType_name configType +:+ "/" +:+ configId +:+ "/active".

Definition deleteConfig_path (configType : ConfigType) (configId : string) : string :=
  "/api/v1/config/" +:+ ConfigType_name configType +:+ "/" +:+ configId.

Definition testConnection_path (configType : ConfigType) (configId : string) : string :=
  "/api/v1/config/" +:+ ConfigType_name configType +:+ "/" +:+ configId +:+ "/test".

End ConfigTab.

Module RTXModelSelector.
Import ConfigTab.
Local Open Scope list_scope.

Section Selector.

(** The numbers of a provider's configuration are only compared with
    [undefined] and copied; any type stands for them. *)
Variable number : Type.

(** [{ min, max, default, description? }], of [speed] and [quality]. *)
Record Range := {
  range_min : number;
  range_max : number;
  range_default : number;
  range_description : option string
}.

Record RTXProviderConfig := {
  voices : option (list string);
  speed : option Range;
  quality : option Range
}.

Record Model := { id : string; model_name : string }.

Record RTXProvider := {
  provider : string;
  name : option string;
  models : list Model;
  config : option RTXProviderConfig
}.

(** The state variables of the selection. *)
Record Selection := {
  selectedProvider : string;
  selectedModel : string;
  selectedVoice : string;
  selectedSpeed : option number;
  selectedQuality : option number
}.

(** [providers.find((p) => p.provider === selectedProvider)]. *)
Definition currentProviderData (providers : list RTXProvider) (s : Selection) :
    option RTXProvider :=
  find (fun p => provider p =? selectedProvider s) providers.

(** [currentProviderData?.models || []]. *)
Definition current_models (providers : list RTXProvider) (s : Selection) : list Model :=
  match currentProviderData providers s with
  | Some p => models p
  | None => []
  end.

(** [currentProviderData?.config]. *)
Definition providerConfig (providers : list RTXProvider) (s : Selection) :
    option RTXProviderConfig :=
  match currentProviderData providers s with
  | Some p => config p
  | None => None
  end.

(** [providerConfig?.voices || []]. *)
Definition current_voices (providers : list RTXProvider) (s : Selection) : list string :=
  match providerConfig providers s with
  | Some c => match voices c with Some v => v | None => [] end
  | None => []
  end.

(** One range of the effect: a configured range gives its default to a
    value that is [undefined] and keeps any other; without a range the value
    becomes [undefined]. *)
Definition sync_range (range : option Range) (selected : option number) : option number :=
  match range with
  | Some r =>
      match selected with
      | None => Some (range_default r)
      | Some x => Some x
      end
  | None => None
  end.

(** The effect that runs when the provider or the selection changes, as the
    state it leaves. *)
Definition effect (configType : ConfigType) (providers : list RTXProvider)
    (s : Selection) : Selection :=
  match configType with
  | tts =>
      {| selectedProvider := selectedProvider s;
         selectedModel := selectedModel s;
         selectedVoice :=
           match current_voices providers s with
           | first :: _ =>
               if existsb (fun v => v =? selectedVoice s) (current_voices providers s)
               then selectedVoice s else first
           | [] => selectedVoice s
           end;
         selectedSpeed :=
           sync_range (match providerConfig providers s with
                       | Some c => speed c | None => None end)
             (selectedSpeed s);
         selectedQuality :=
           sync_range (match providerConfig providers s with
                       | Some c => quality c | None => None end)
             (selectedQuality s) |}
  | _ =>
      {| selectedProvider := selectedProvider s;
         selectedModel :=
           match current_models providers s with
           | first :: _ =>
               if existsb (fun m => id m =? selectedModel s) (current_models providers s)
               then selectedModel s else id first
           | [] => selectedModel s
           end;
         selectedVoice := selectedVoice s;
         selectedSpeed := selectedSpeed s;
         selectedQuality := selectedQuality s |}
  end.

End Selector.

Arguments effect {number}.
Arguments current_models {number}.
Arguments current_voices {number}.
Arguments providerConfig {number}.
Arguments currentProviderData {number}.
Arguments selectedProvider {number}.
Arguments selectedModel {number}.
Arguments selectedVoice {number}.
Arguments selectedSpeed {number}.
Arguments selectedQuality {number}.
Arguments speed {number}.
Arguments quality {number}.

End RTXModelSelector.

(* ===================================================================== *)
(** * Properties *)
(* ===================================================================== *)

(** ** String primitives *)

Module JsFacts.
Import Js.

Lemma app_nil_l (s : string) : "" +:+ s = s.
Proof. reflexivity. Qed.

Lemma app_cons (c : ascii) (s t : string) : String c s +:+ t = String c (s +:+ t).
Proof. reflexivity. Qed.

Lemma app_nil_r (s : string) : s +:+ "" = s.
Proof.
  induction s as [|c s IH]; [reflexivity |]. now rewrite app_cons, IH.
Qed.

Lemma app_assoc (a b c : string) : (a +:+ b) +:+ c = a +:+ (b +:+ c).
Proof.
  induction a as [|x a IH]; [reflexivity |]. now rewrite !app_cons, IH.
Qed.

Lemma length_app (a b : string) :
  String.length (a +:+ b) = String.length a + String.length b.
Proof.
  induction a as [|x a IH]; [reflexivity |]. rewrite app_cons. simpl. now rewrite IH.
Qed.

Lemma app_cancel_l (a b c : string) : a +:+ b = a +:+ c -> b = c.
Proof.
  induction a as [|x a IH]; intros H; [exact H |].
  rewrite !app_cons in H. injection H; auto.
Qed.

(** Every non-empty string ends with a last character. *)
Lemma snoc_cases (s : string) :
  s = "" \/ exists x c, s = x +:+ String c "".
Proof.
  induction s as [|a s IH]; [now left | right].
  destruct IH as [-> | (x & c & ->)].
  - now exists "", a.
  - now exists (String a x), c.
Qed.

Lemma snoc_inj (x y : string) (c d : ascii) :
  x +:+ String c "" = y +:+ String d "" -> x = y /\ c = d.
Proof.
  revert y; induction x as [|a x IH]; intros [|b y];
    rewrite ?app_cons, ?app_nil_l; intros H.
  - injection H; auto.
  - injection H as _ H. destruct y; discriminate H.
  - injection H as _ H. destruct x; discriminate H.
  - injection H as -> H. apply IH in H as [-> ->]. auto.
Qed.

Lemma startsWith_iff (s p : string) :
  startsWith s p = true <-> exists r, s = p +:+ r.
Proof.
  unfold startsWith. revert s; induction p as [|a p IH]; intros s.
  - destruct s; simpl; split; eauto.
  - destruct s as [|b s]; simpl.
    + split; [discriminate | intros [r Hr]; discriminate Hr].
    + destruct (ascii_dec a b) as [-> | Hne].
      * rewrite IH. split; intros [r Hr]; exists r.
        -- now rewrite Hr.
        -- rewrite app_cons in Hr. now injection Hr.
      * split; [discriminate |].
        intros [r Hr]. rewrite app_cons in Hr. injection Hr; congruence.
Qed.

Lemma strip_prefix_iff (p s r : string) :
  strip_prefix p s = Some r <-> s = p +:+ r.
Proof.
  revert s; induction p as [|a p IH]; intros s; simpl.
  - rewrite app_nil_l. split; [now intros [= ->] | now intros ->].
  - rewrite app_cons. destruct s as [|b s].
    + split; discriminate.
    + destruct (Ascii.eqb_spec a b) as [-> | Hne].
      * rewrite IH. split; [now intros -> | now intros [= ->]].
      * split; [discriminate | intros [= ? ?]; congruence].
Qed.

Lemma strip_prefix_None (p s : string) :
  strip_prefix p s = None <-> startsWith s p = false.
Proof.
  destruct (strip_prefix p s) as [r|] eqn:E.
  - apply strip_prefix_iff in E. split; [discriminate |].
    intros H. assert (startsWith s p = true) by (apply startsWith_iff; eauto).
    congruence.
  - split; [intros _ | reflexivity].
    destruct (startsWith s p) eqn:E'; [| reflexivity].
    apply startsWith_iff in E' as [r Hr]. apply strip_prefix_iff in Hr. congruence.
Qed.

Lemma endsWith_nil (p : string) : endsWith "" p = ("" =? p).
Proof. simpl. apply orb_false_r. Qed.

Lemma endsWith_cons (c : ascii) (s p : string) :
  endsWith (String c s) p = (String c s =? p) || endsWith s p.
Proof. reflexivity. Qed.

Lemma endsWith_iff (s p : string) :
  endsWith s p = true <-> exists x, s = x +:+ p.
Proof.
  induction s as [|c s IH].
  - rewrite endsWith_nil, String.eqb_eq. split.
    + intros <-. now exists "".
    + intros [[|? ?] Hx]; [auto | discriminate].
  - rewrite endsWith_cons, orb_true_iff, String.eqb_eq, IH. split.
    + intros [<- | [x ->]]; [now exists "" | now exists (String c x)].
    + intros [[|a x] Hx]; [now left | right].
      rewrite app_cons in Hx. injection Hx as _ ->. eauto.
Qed.

Lemma substring_prefix (x y : string) :
  String.substring 0 (String.length x) (x +:+ y) = x.
Proof.
  induction x as [|c x IH].
  - rewrite app_nil_l. now destruct y.
  - rewrite app_cons. simpl. now rewrite IH.
Qed.

Lemma slice_snoc (x : string) (c : ascii) : slice_0_m1 (x +:+ String c "") = x.
Proof.
  unfold slice_0_m1. rewrite length_app. simpl.
  replace (String.length x + 1 - 1) with (String.length x) by lia.
  apply substring_prefix.
Qed.

(** A string that ends with ["/"] keeps doing so behind any prefix, and a
    non-empty string that does not, does not either. *)
Lemma endsWith_slash_app (a r : string) :
  r <> "" -> endsWith (a +:+ r) "/" = endsWith r "/".
Proof.
  intros Hr. destruct (snoc_cases r) as [-> | (x & c & ->)]; [done |].
  apply eq_true_iff_eq. rewrite !endsWith_iff. split.
  - intros [y Hy]. rewrite <- app_assoc in Hy.
    apply snoc_inj in Hy as [_ ->]. now exists x.
  - intros [y Hy]. apply snoc_inj in Hy as [_ ->].
    exists (a +:+ x). now rewrite app_assoc.
Qed.

End JsFacts.

(** ** API endpoint resolution *)

Module ApiFacts.
Import Js JsFacts Api.

Lemma apiUrl_eq (g : Globals) (p : string) :
  apiUrl g p = normalizeBase (resolveApiBaseUrl g) +:+ normalizePath p.
Proof. reflexivity. Qed.

Lemma wsUrl_eq (g : Globals) (p : string) :
  wsUrl g p
  = normalizeBase (replace_anchored "https:" "wss:"
                     (replace_anchored "http:" "ws:" (resolveApiBaseUrl g)))
    +:+ normalizePath p.
Proof. reflexivity. Qed.

(** What [normalizeBase] does: exactly one trailing ["/"] is removed, when
    there is one. *)
Lemma normalizeBase_cases (b : string) :
  (endsWith b "/" = true /\ b = normalizeBase b +:+ "/")
  \/ (endsWith b "/" = false /\ normalizeBase b = b).
Proof.
  unfold normalizeBase. destruct (endsWith b "/") eqn:E; [left | now right].
  split; [reflexivity |]. apply endsWith_iff in E as [x ->].
  now rewrite slice_snoc.
Qed.

(** What [normalizePath] does: a leading ["/"] is added, when there is none. *)
Lemma normalizePath_cases (p : string) :
  (startsWith p "/" = true /\ normalizePath p = p)
  \/ (startsWith p "/" = false /\ normalizePath p = "/" +:+ p).
Proof. unfold normalizePath. destruct (startsWith p "/"); auto. Qed.

Lemma normalizePath_idem (p : string) :
  normalizePath (normalizePath p) = normalizePath p.
Proof.
  destruct (normalizePath_cases p) as [[E ->] | [E ->]].
  - unfold normalizePath. now rewrite E.
  - unfold normalizePath.
    assert (startsWith ("/" +:+ p) "/" = true) as ->
      by (apply startsWith_iff; eauto).
    reflexivity.
Qed.

(** [normalizeBase] commutes with a scheme prefix that does not itself end
    with ["/"]. *)
Lemma normalizeBase_app (a r : string) :
  endsWith a "/" = false ->
  normalizeBase (a +:+ r) = a +:+ normalizeBase r.
Proof.
  intros Ha. destruct (string_dec r "") as [-> | Hr].
  - rewrite app_nil_r. unfold normalizeBase. rewrite Ha. simpl.
    now rewrite app_nil_r.
  - unfold normalizeBase. rewrite endsWith_slash_app by assumption.
    destruct (endsWith r "/") eqn:E; [| reflexivity].
    apply endsWith_iff in E as [x ->].
    rewrite <- app_assoc, !slice_snoc. reflexivity.
Qed.

Lemma truthy_Some (v : option string) (u : string) :
  truthy v = Some u <-> v = Some u /\ u <> "".
Proof.
  unfold truthy. destruct v as [s|]; [| split; [discriminate | now intros [? _]]].
  destruct (String.eqb_spec s "") as [-> | Hne]; split.
  - discriminate.
  - intros [[= <-] H]. done.
  - intros [= ->]. auto.
  - intros [[= ->] _]. reflexivity.
Qed.

Lemma truthy_None (v : option string) :
  truthy v = None <-> (forall u, v = Some u -> u = "").
Proof.
  unfold truthy. destruct v as [s|]; [| split; [intros _ u; discriminate | reflexivity]].
  destruct (String.eqb_spec s "") as [-> | Hne]; split; try done.
  - intros _ u [= <-]. reflexivity.
  - intros H. now specialize (H s eq_refl).
Qed.

Lemma runtime_supplies_iff (g : Globals) (u : string) :
  runtime_supplies g u <-> truthy (readRuntimeConfig g ≫= API_BASE_URL) = Some u.
Proof.
  rewrite truthy_Some. unfold runtime_supplies, readRuntimeConfig. split.
  - intros (w & rc & -> & Hrc & Hu & Hne). rewrite Hrc. simpl. auto.
  - intros [H Hne]. destruct (window g) as [w|]; [| discriminate].
    destruct (__RUNTIME_CONFIG__ w) as [rc|] eqn:Hrc; [| discriminate].
    simpl in H. exists w, rc. auto.
Qed.

(** C8: [resolveApiBaseUrl] takes the base from the browser runtime
    configuration when that supplies a non-empty [API_BASE_URL], otherwise
    from the environment variable [API_BASE_URL] when that is non-empty,
    otherwise it is ["http://localhost:8004/realtimex"]; with no [window]
    object the runtime configuration supplies nothing. *)
Theorem resolveApiBaseUrl_precedence (g : Globals) :
  (forall u, runtime_supplies g u -> resolveApiBaseUrl g = u)
  /\ ((forall u, ~ runtime_supplies g u) ->
      forall u, env_supplies g u -> resolveApiBaseUrl g = u)
  /\ ((forall u, ~ runtime_supplies g u) -> (forall u, ~ env_supplies g u) ->
      resolveApiBaseUrl g = "http://localhost:8004/realtimex")
  /\ (window g = None -> forall u, ~ runtime_supplies g u).
Proof.
  unfold resolveApiBaseUrl. repeat split.
  - intros u Hu. apply runtime_supplies_iff in Hu. now rewrite Hu.
  - intros Hno u [Hu Hne].
    destruct (truthy (readRuntimeConfig g ≫= API_BASE_URL)) as [r|] eqn:Hr.
    + apply runtime_supplies_iff in Hr. now apply Hno in Hr.
    + assert (truthy (process_env g !! "API_BASE_URL") = Some u) as ->
        by (now apply truthy_Some).
      reflexivity.
  - intros Hno Hnoenv.
    destruct (truthy (readRuntimeConfig g ≫= API_BASE_URL)) as [r|] eqn:Hr.
    + apply runtime_supplies_iff in Hr. now apply Hno in Hr.
    + destruct (truthy (process_env g !! "API_BASE_URL")) as [e|] eqn:He;
        [| reflexivity].
      apply truthy_Some in He. now apply Hnoenv in He.
  - intros Hw u (w & rc & Hw' & _). congruence.
Qed.

Lemma no_runtime_server_with_env (e u : string) : ~ runtime_supplies (server_with_env e) u.
Proof. intros (w & rc & Hw & _). discriminate Hw. Qed.

Lemma no_runtime_server_side (u : string) : ~ runtime_supplies server_side u.
Proof. intros (w & rc & Hw & _). discriminate Hw. Qed.

Lemma no_env_server_side (u : string) : ~ env_supplies server_side u.
Proof. intros [H _]. unfold server_side in H. simpl in H. now rewrite lookup_empty in H. Qed.

(** The three sources at work on concrete globals. *)
Lemma resolveApiBaseUrl_precedence_witness :
  resolveApiBaseUrl (browser_with "https://tutor.example") = "https://tutor.example"
  /\ resolveApiBaseUrl (server_with_env "http://10.0.0.2:8001") = "http://10.0.0.2:8001"
  /\ resolveApiBaseUrl server_side = "http://localhost:8004/realtimex".
Proof.
  split; [| split].
  - apply (proj1 (resolveApiBaseUrl_precedence (browser_with "https://tutor.example"))).
    unfold runtime_supplies, browser_with; simpl.
    do 2 eexists. repeat split. discriminate.
  - apply (proj1 (proj2 (resolveApiBaseUrl_precedence
                           (server_with_env "http://10.0.0.2:8001")))).
    + apply no_runtime_server_with_env.
    + split; [reflexivity | discriminate].
  - apply (proj1 (proj2 (proj2 (resolveApiBaseUrl_precedence server_side)))).
    + apply no_runtime_server_side.
    + apply no_env_server_side.
Defined.

Lemma replace_anchored_match (lit repl r : string) :
  replace_anchored lit repl (lit +:+ r) = repl +:+ r.
Proof.
  unfold replace_anchored.
  now rewrite (proj2 (strip_prefix_iff lit (lit +:+ r) r) eq_refl).
Qed.

Lemma replace_anchored_other (lit repl s : string) :
  startsWith s lit = false -> replace_anchored lit repl s = s.
Proof.
  intros H. unfold replace_anchored.
  now rewrite (proj2 (strip_prefix_None lit s) H).
Qed.

(** C9: [wsUrl] is [apiUrl] with the scheme rewritten and nothing else: for
    a base that begins with ["https:"] the two URLs are ["https:" ++ t] and
    ["wss:" ++ t], for one that begins with ["http:"] they are
    ["http:" ++ t] and ["ws:" ++ t] with the same remainder [t], and for any
    other base they are equal. *)
Theorem wsUrl_rewrites_scheme (g : Globals) (p : string) :
  (forall r, resolveApiBaseUrl g = "https:" +:+ r ->
     exists t, apiUrl g p = "https:" +:+ t /\ wsUrl g p = "wss:" +:+ t)
  /\ (forall r, resolveApiBaseUrl g = "http:" +:+ r ->
     exists t, apiUrl g p = "http:" +:+ t /\ wsUrl g p = "ws:" +:+ t)
  /\ (startsWith (resolveApiBaseUrl g) "http:" = false ->
      startsWith (resolveApiBaseUrl g) "https:" = false ->
      wsUrl g p = apiUrl g p).
Proof.
  rewrite apiUrl_eq, wsUrl_eq. repeat split.
  - intros r ->. exists (normalizeBase r +:+ normalizePath p).
    rewrite (replace_anchored_other "http:") by reflexivity.
    rewrite replace_anchored_match.
    rewrite !normalizeBase_app by reflexivity.
    now rewrite !app_assoc.
  - intros r ->. exists (normalizeBase r +:+ normalizePath p).
    rewrite replace_anchored_match.
    rewrite (replace_anchored_other "https:") by reflexivity.
    rewrite !normalizeBase_app by reflexivity.
    now rewrite !app_assoc.
  - intros H1 H2.
    rewrite (replace_anchored_other "http:") by assumption.
    now rewrite (replace_anchored_other "https:") by assumption.
Qed.

(** A secure base, a plain base, and a base with another scheme. *)
Lemma wsUrl_rewrites_scheme_witness :
  (exists t, apiUrl (browser_with "https://tutor.example/") "api/v1/solve" = "https:" +:+ t
             /\ wsUrl (browser_with "https://tutor.example/") "api/v1/solve" = "wss:" +:+ t)
  /\ (exists t, apiUrl server_side "/api/v1/solve" = "http:" +:+ t
               /\ wsUrl server_side "/api/v1/solve" = "ws:" +:+ t)
  /\ wsUrl (server_with_env "ftp://files") "x" = apiUrl (server_with_env "ftp://files") "x".
Proof.
  split; [| split].
  - apply (proj1 (wsUrl_rewrites_scheme (browser_with "https://tutor.example/")
                    "api/v1/solve") "//tutor.example/").
    reflexivity.
  - apply (proj1 (proj2 (wsUrl_rewrites_scheme server_side "/api/v1/solve"))
             "//localhost:8004/realtimex").
    reflexivity.
  - apply (proj2 (proj2 (wsUrl_rewrites_scheme (server_with_env "ftp://files") "x")));
      vm_compute; reflexivity.
Defined.

Lemma normalizeBase_spec (base : string) :
  strips_one_trailing_slash base (normalizeBase base).
Proof. apply normalizeBase_cases. Qed.

Lemma normalizePath_spec (path : string) :
  adds_leading_slash path (normalizePath path).
Proof. apply normalizePath_cases. Qed.

Lemma endsWith_double_slash (x : string) :
  endsWith x "/" = true -> endsWith (x +:+ "/") "//" = true.
Proof.
  intros [y ->]%endsWith_iff. apply endsWith_iff. exists y.
  now rewrite app_assoc.
Qed.

Lemma startsWith_cons (c : ascii) (s p : string) :
  startsWith (String c s) (String c p) = startsWith s p.
Proof.
  unfold startsWith. simpl. destruct (ascii_dec c c); [reflexivity | done].
Qed.

(** C10, as the code has it: a path without a leading ["/"] gives the same
    URL as the path with one added; the URL is the base with one trailing
    ["/"] removed (when it has one) followed by the path with a leading ["/"]
    added (when it has none); and when the base does not end with ["//"] and
    the path does not begin with ["//"], exactly one ["/"] stands at the
    join. *)
Theorem apiUrl_join (g : Globals) (p : string) :
  (startsWith p "/" = false -> apiUrl g p = apiUrl g ("/" +:+ p))
  /\ (exists b q, apiUrl g p = b +:+ q
                 /\ strips_one_trailing_slash (resolveApiBaseUrl g) b
                 /\ adds_leading_slash p q
                 /\ startsWith q "/" = true
                 /\ (endsWith (resolveApiBaseUrl g) "//" = false ->
                     startsWith p "//" = false ->
                     endsWith b "/" = false /\ startsWith q "//" = false)).
Proof.
  split.
  - intros Hp. rewrite !apiUrl_eq. f_equal.
    destruct (normalizePath_cases p) as [[E _] | [_ ->]]; [congruence |].
    unfold normalizePath.
    now rewrite (proj2 (startsWith_iff ("/" +:+ p) "/") (ex_intro _ p eq_refl)).
  - exists (normalizeBase (resolveApiBaseUrl g)), (normalizePath p).
    split; [reflexivity |].
    split; [apply normalizeBase_spec |].
    split; [apply normalizePath_spec |].
    split.
    + destruct (normalizePath_cases p) as [[E ->] | [_ ->]]; [exact E |].
      apply startsWith_iff. now exists p.
    + intros Hb Hp. split.
      * destruct (normalizeBase_cases (resolveApiBaseUrl g)) as [[_ E] | [E ->]];
          [| exact E].
        destruct (endsWith (normalizeBase (resolveApiBaseUrl g)) "/") eqn:E';
          [| reflexivity].
        apply endsWith_double_slash in E'. rewrite <- E in E'. congruence.
      * destruct (normalizePath_cases p) as [[_ ->] | [E ->]]; [exact Hp |].
        change ("/" +:+ p) with (String "/" p).
        change "//" with (String "/" "/").
        now rewrite startsWith_cons.
Qed.

(** A relative and an absolute path against a base with a trailing slash. *)
Lemma apiUrl_join_witness :
  apiUrl (browser_with "https://tutor.example/") "api/v1/solve"
  = apiUrl (browser_with "https://tutor.example/") ("/" +:+ "api/v1/solve")
  /\ apiUrl (browser_with "https://tutor.example/") "api/v1/solve"
     = "https://tutor.example/api/v1/solve".
Proof.
  split.
  - apply (proj1 (apiUrl_join (browser_with "https://tutor.example/") "api/v1/solve")).
    reflexivity.
  - reflexivity.
Defined.

(** C10, as stated, fails: a path that begins with two slashes keeps both
    behind the base, and a base that ends with two slashes keeps one of them
    before the added one, so in both cases a double slash stands between
    base and path. *)
Lemma apiUrl_double_slash :
  (apiUrl server_side "//a" = "http://localhost:8004/realtimex" +:+ "//a"
   /\ normalizeBase (resolveApiBaseUrl server_side) = "http://localhost:8004/realtimex"
   /\ normalizePath "//a" = "//a")
  /\ (apiUrl (server_with_env "http://h//") "a" = "http://h/" +:+ "/a"
      /\ normalizeBase (resolveApiBaseUrl (server_with_env "http://h//")) = "http://h/"
      /\ normalizePath "a" = "/a").
Proof. repeat split; vm_compute; reflexivity. Qed.

End ApiFacts.

(** ** The research data contract *)

Module ContractFacts.
Import Contract.

Lemma existsb_name_iff {A} (name : A -> string) (all : list A) (s : string) :
  existsb (fun e => name e =? s) all = true <-> exists e, In e all /\ name e = s.
Proof.
  rewrite existsb_exists. split; intros (e & He & Hs); exists e; split; auto.
  - now apply String.eqb_eq.
  - now apply String.eqb_eq.
Qed.

Lemma literal_of_iff {A} (name : A -> string) (all : list A) (v : value) :
  literal_of name all v = true <-> exists e, In e all /\ v = JStr (name e).
Proof.
  destruct v; simpl;
    try (split; [discriminate | intros (e & _ & He); discriminate He]).
  rewrite existsb_name_iff. split; intros (e & He & Hs); exists e; split; auto.
  - now rewrite Hs.
  - now injection Hs.
Qed.

Lemma ResearchEventType_all_complete (e : ResearchEventType) :
  In e ResearchEventType_all.
Proof. destruct e; simpl; tauto. Qed.

Lemma ResearchEventType_of_string_name (e : ResearchEventType) :
  ResearchEventType_of_string (ResearchEventType_name e) = Some e.
Proof. now destruct e. Qed.

Lemma ResearchEventType_of_string_Some (s : string) (e : ResearchEventType) :
  ResearchEventType_of_string s = Some e -> ResearchEventType_name e = s.
Proof.
  unfold ResearchEventType_of_string. intros H.
  apply find_some in H as [_ H]. now apply String.eqb_eq.
Qed.

(** A string names a member of the union exactly when it parses. *)
Lemma ResearchEventType_member_iff (s : string) :
  (exists e, ResearchEventType_name e = s)
  <-> is_Some (ResearchEventType_of_string s).
Proof.
  split.
  - intros [e <-]. rewrite ResearchEventType_of_string_name. eauto.
  - intros [e He]. exists e. now apply ResearchEventType_of_string_Some.
Qed.

(** C1, as the code has it: every event name the design document
    enumerates (sections 4.1 to 4.4 and 6) is a member of
    [ResearchEventType], and every member is one of the enumerated names or
    the agent event [iteration_started]. *)
Theorem ResearchEventType_names (s : string) :
  (exists e, ResearchEventType_name e = s)
  <-> (s ∈ spec_event_names \/ s = "iteration_started").
Proof.
  split.
  - intros [e <-].
    destruct e; first [ now right | left; apply list_elem_of_In; simpl; tauto ].
  - intros [H | ->]; [| now exists iteration_started].
    apply ResearchEventType_member_iff.
    unfold spec_event_names, spec_planning_events, spec_scheduler_events,
      spec_agent_events, spec_reporting_events, spec_system_events in H.
    simpl in H. list_cases H; vm_compute; eauto.
Qed.

(** C1, as stated, fails: [iteration_started] is a member of the union and
    none of the enumerated names. *)
Lemma iteration_started_not_enumerated :
  (exists e, ResearchEventType_name e = "iteration_started")
  /\ "iteration_started" ∉ spec_event_names.
Proof.
  split; [now exists iteration_started |].
  intros H%list_elem_of_In. simpl in H. intuition discriminate.
Qed.

Lemma required_true (o : gmap string value) (k : string) (ty : value -> bool) :
  required o k ty = true <-> exists v, o !! k = Some v /\ ty v = true.
Proof.
  unfold required. destruct (o !! k) as [v|].
  - split; [eauto | now intros (? & [= <-] & ?)].
  - split; [discriminate | now intros (? & ? & ?)].
Qed.

Lemma optional_true (o : gmap string value) (k : string) (ty : value -> bool) :
  optional o k ty = true <-> (forall v, o !! k = Some v -> ty v = true).
Proof.
  unfold optional. destruct (o !! k) as [v|].
  - split; [now intros ? ? [= <-] | auto].
  - split; [discriminate | reflexivity].
Qed.

Lemma required_delete_ne (o : gmap string value) (k k' : string) ty :
  k <> k' -> required (delete k o) k' ty = required o k' ty.
Proof. intros H. unfold required. now rewrite lookup_delete_ne. Qed.

Lemma optional_delete_ne (o : gmap string value) (k k' : string) ty :
  k <> k' -> optional (delete k o) k' ty = optional o k' ty.
Proof. intros H. unfold optional. now rewrite lookup_delete_ne. Qed.

Lemma optional_delete_eq (o : gmap string value) (k : string) ty :
  optional (delete k o) k ty = true.
Proof. unfold optional. now rewrite lookup_delete_eq. Qed.

Lemma required_delete_eq (o : gmap string value) (k : string) ty :
  required (delete k o) k ty = false.
Proof. unfold required. now rewrite lookup_delete_eq. Qed.

Lemma required_insert_ne (o : gmap string value) (k k' : string) v ty :
  k <> k' -> required (<[k := v]> o) k' ty = required o k' ty.
Proof. intros H. unfold required. now rewrite lookup_insert_ne. Qed.

Lemma optional_insert_ne (o : gmap string value) (k k' : string) v ty :
  k <> k' -> optional (<[k := v]> o) k' ty = optional o k' ty.
Proof. intros H. unfold optional. now rewrite lookup_insert_ne. Qed.

Lemma optional_insert_eq (o : gmap string value) (k : string) v ty :
  optional (<[k := v]> o) k ty = ty v.
Proof. unfold optional. now rewrite lookup_insert_eq. Qed.

Lemma required_insert_eq (o : gmap string value) (k : string) v ty :
  required (<[k := v]> o) k ty = ty v.
Proof. unfold required. now rewrite lookup_insert_eq. Qed.

(** How the checks on the properties of an object react when one property
    is deleted or set. *)
Create Rewrite HintDb fields.
#[local] Hint Rewrite required_delete_eq optional_delete_eq
  required_insert_eq optional_insert_eq : fields.
#[local] Hint Rewrite required_delete_ne optional_delete_ne
  required_insert_ne optional_insert_ne using discriminate : fields.

(** C2, as the code has it: every event carries [type], a member of
    [ResearchEventType], and cannot do without it; each of [stage],
    [status], [timestamp] and [research_id] is optional: it may be left out
    of any event, it may be set to any string, and when present it is a
    string. *)
Theorem ResearchEvent_fields (o : gmap string value) :
  ResearchEvent o = true ->
  (exists e, o !! "type" = Some (JStr (ResearchEventType_name e)))
  /\ ResearchEvent (delete "type" o) = false
  /\ (forall k, k ∈ ResearchEvent_optional_fields ->
        ResearchEvent (delete k o) = true
        /\ (forall s, ResearchEvent (<[k := JStr s]> o) = true)
        /\ (forall v, o !! k = Some v -> is_string v = true)).
Proof.
  unfold ResearchEvent. rewrite !andb_true_iff.
  intros [[[[Ht Hstage] Hstatus] Htime] Hid]. split; [| split].
  - apply required_true in Ht as (v & Hv & Hl).
    apply literal_of_iff in Hl as (e & _ & ->). eauto.
  - now rewrite required_delete_eq.
  - intros k Hk. unfold ResearchEvent_optional_fields in Hk.
    list_cases Hk; (split; [| split]);
      try (intros s; autorewrite with fields;
           rewrite ?Ht, ?Hstage, ?Hstatus, ?Htime, ?Hid; reflexivity);
      try (autorewrite with fields;
           rewrite ?Ht, ?Hstage, ?Hstatus, ?Htime, ?Hid; reflexivity);
      intros v Hv.
    + rewrite optional_true in Hstage. eauto.
    + rewrite optional_true in Hstatus. eauto.
    + rewrite optional_true in Htime. eauto.
    + rewrite optional_true in Hid. eauto.
Qed.

(** An event with all five properties, from which [timestamp] is dropped. *)
Lemma ResearchEvent_fields_witness :
  (exists e, full_event !! "type" = Some (JStr (ResearchEventType_name e)))
  /\ ResearchEvent (delete "timestamp" full_event) = true.
Proof.
  assert (ResearchEvent full_event = true) as H by (vm_compute; reflexivity).
  split.
  - exact (proj1 (ResearchEvent_fields full_event H)).
  - assert ("timestamp" ∈ ResearchEvent_optional_fields) as Hin
      by (apply list_elem_of_In; simpl; tauto).
    exact (proj1 (proj2 (proj2 (ResearchEvent_fields full_event H)) "timestamp" Hin)).
Defined.

(** C2, as stated, fails: an event that carries only [type] meets the
    declaration, without [timestamp] and without [research_id]. *)
Lemma bare_event_conforms :
  ResearchEvent bare_event = true
  /\ bare_event !! "timestamp" = None
  /\ bare_event !! "research_id" = None.
Proof. repeat split; vm_compute; reflexivity. Qed.

(** C6: the [status] of a [TopicBlock] is one of pending, researching,
    completed, failed, and each of the four occurs; the [status] of a
    [TaskState] is one of pending, running, completed, failed, and each of
    the four occurs. *)
Theorem status_values :
  (forall o, TopicBlock o = true ->
     exists s, o !! "status" = Some (JStr s)
               /\ s ∈ ["pending"; "researching"; "completed"; "failed"])
  /\ (forall s, s ∈ ["pending"; "researching"; "completed"; "failed"] ->
       exists o, TopicBlock o = true /\ o !! "status" = Some (JStr s))
  /\ (forall o, TaskState o = true ->
       exists s, o !! "status" = Some (JStr s)
                 /\ s ∈ ["pending"; "running"; "completed"; "failed"])
  /\ (forall s, s ∈ ["pending"; "running"; "completed"; "failed"] ->
       exists o, TaskState o = true /\ o !! "status" = Some (JStr s)).
Proof.
  split; [| split; [| split]].
  - intros o H. unfold TopicBlock in H. rewrite !andb_true_iff in H.
    destruct H as [[[[[[_ H] _] _] _] _] _].
    apply required_true in H as (v & Hv & Hl).
    apply literal_of_iff in Hl as (e & _ & ->).
    exists (TopicBlockStatus_name e). split; [exact Hv |].
    apply list_elem_of_In. destruct e; simpl; tauto.
  - intros s H. exists (<["status" := JStr s]> sample_TopicBlock).
    split; [| apply lookup_insert_eq].
    list_cases H; vm_compute; reflexivity.
  - intros o H. unfold TaskState in H. rewrite !andb_true_iff in H.
    destruct H as [[[[[[[[[_ H] _] _] _] _] _] _] _] _].
    apply required_true in H as (v & Hv & Hl).
    apply literal_of_iff in Hl as (e & _ & ->).
    exists (TaskStatus_name e). split; [exact Hv |].
    apply list_elem_of_In. destruct e; simpl; tauto.
  - intros s H. exists (<["status" := JStr s]> sample_TaskState).
    split; [| apply lookup_insert_eq].
    list_cases H; vm_compute; reflexivity.
Qed.

(** The sample block and the sample task are both pending. *)
Lemma status_values_witness :
  (exists s, sample_TopicBlock !! "status" = Some (JStr s)
             /\ s ∈ ["pending"; "researching"; "completed"; "failed"])
  /\ (exists s, sample_TaskState !! "status" = Some (JStr s)
               /\ s ∈ ["pending"; "running"; "completed"; "failed"]).
Proof.
  split.
  - apply (proj1 status_values sample_TopicBlock). vm_compute. reflexivity.
  - apply (proj1 (proj2 (proj2 status_values)) sample_TaskState).
    vm_compute. reflexivity.
Defined.

End ContractFacts.

(** ** The research orchestrator *)

Module ResearchFacts.
Import Contract Research.
Local Open Scope list_scope.

(** *** The scenarios of section 8 *)

(** Series mode: the first block reaches sufficiency after two iterations,
    the second uses up its three iterations and is completed with partial
    knowledge; five citations are assigned, in order. *)
Example scenario_series :
  (fun blk => (status blk, iteration_count blk, partial_knowledge blk, trace_ids blk))
    <$> blocks series_run
  = [ (completed, 2, false, [1; 2]); (completed, 3, true, [3; 4; 5]) ].
Proof. vm_compute. reflexivity. Qed.

(** Parallel mode with two workers: the same blocks, with the citations
    dealt out as the steps interleave. *)
Example scenario_parallel :
  (fun blk => (status blk, iteration_count blk, partial_knowledge blk, trace_ids blk))
    <$> blocks parallel_run
  = [ (completed, 2, false, [2; 4]); (completed, 3, true, [1; 3; 5]) ]
  /\ assigned (events parallel_run) = [1; 2; 3; 4; 5].
Proof. split; vm_compute; reflexivity. Qed.

(** The tool call of the second block times out twice: that block fails,
    the first still completes. *)
Example scenario_timeout :
  (fun blk => (status blk, failure blk)) <$> blocks timeout_run
  = [ (completed, None); (failed, Some ToolInvocationError) ].
Proof. vm_compute. reflexivity. Qed.

(** Cancellation with one block being researched and one pending: both end
    failed with a cancellation reason, and nothing is published after the
    two [block_failed] events. *)
Example scenario_cancelled :
  (fun blk => (status blk, failure blk)) <$> blocks cancelled_run
  = [ (failed, Some CancellationError); (failed, Some CancellationError) ]
  /\ block_events 0 (events cancelled_run)
     = [block_started; checking_sufficiency; block_failed]
  /\ block_events 1 (events cancelled_run) = [block_failed]
  /\ run photosynthesis_collaborators (photosynthesis_config series)
       [Step 0; Dispatch; Step 1] cancelled_run = cancelled_run.
Proof. repeat split; vm_compute; reflexivity. Qed.

Section Runs.
Context (c : Collaborators) (cfg : Config).

(** *** Runs and their single actions *)

Lemma run_cons (a : Action) (sched : list Action) (st : RunState) :
  run c cfg (a :: sched) st = run c cfg sched (exec c cfg st a).
Proof. reflexivity. Qed.

Lemma run_app (s1 s2 : list Action) (st : RunState) :
  run c cfg (s1 ++ s2) st = run c cfg s2 (run c cfg s1 st).
Proof. apply foldl_app. Qed.

(** A property kept by every action holds throughout a run. *)
Lemma run_ind (P : RunState -> Prop) :
  (forall st a, P st -> P (exec c cfg st a)) ->
  forall sched st, P st -> P (run c cfg sched st).
Proof.
  intros Hexec sched. induction sched as [|a sched IH]; intros st Hst.
  - exact Hst.
  - rewrite run_cons. apply IH, Hexec, Hst.
Qed.

Lemma alter_as_insert {A} (f : A -> A) (l : list A) (i : nat) (x : A) :
  l !! i = Some x -> alter f i l = <[i := f x]> l.
Proof.
  revert i; induction l as [|y l IH]; intros [|i] H; try discriminate.
  - now injection H as ->.
  - simpl in *. f_equal. now apply IH.
Qed.

Lemma exec_cases (st : RunState) (a : Action) :
  queue_ok st -> exec c cfg st a = st \/ Change c cfg st (exec c cfg st a).
Proof.
  intros [_ Hq]. destruct a as [|b|]; simpl.
  - unfold dispatch. destruct (cancelled st) eqn:Hc; [now left |].
    destruct (length (active st) <? workers cfg)%nat; [| now left].
    destruct (queue st) as [|b q] eqn:Hqueue; [now left | right].
    assert (b ∈ b :: q) as Hin by left.
    apply Hq in Hin as (blk & Hb & Hs).
    rewrite (alter_as_insert _ _ _ _ Hb). now apply Started.
  - unfold step. destruct (cancelled st) eqn:Hc; [now left |].
    destruct (blocks st !! b) as [blk|] eqn:Hb; [| now left].
    unfold is_researching. destruct (status blk) eqn:Hs; try now left.
    right. now apply (Stepped c cfg st b blk).
  - unfold cancel. destruct (cancelled st) eqn:Hc; [now left | right].
    now apply Cancelled.
Qed.

Lemma queue_ok_init (topics : list string) : queue_ok (init topics).
Proof.
  split; simpl.
  - apply NoDup_seq.
  - intros b Hb. apply elem_of_seq in Hb as [_ Hb]. simpl in Hb.
    destruct (lookup_lt_is_Some_2 topics b Hb) as [t Ht].
    exists (new_block t). rewrite list_lookup_fmap, Ht. auto.
Qed.

Lemma queue_ok_change (st st' : RunState) :
  queue_ok st -> Change c cfg st st' -> queue_ok st'.
Proof.
  intros [Hnd Hq] [b q blk Hc Hqueue Hb Hs | b blk Hc Hb Hs | Hc];
    split; simpl; try (apply NoDup_nil_2); try (intros ? []%elem_of_nil).
  - rewrite Hqueue in Hnd. now apply NoDup_cons in Hnd as [_ Hnd].
  - intros b' Hb'. rewrite Hqueue in Hnd, Hq.
    apply NoDup_cons in Hnd as [Hnotin _].
    destruct (Hq b') as (blk' & Hl & Hp); [now right |].
    exists blk'. split; [| exact Hp].
    rewrite list_lookup_insert_ne; [exact Hl | intros ->; contradiction].
  - apply NoDup_app. split; [exact Hnd | split].
    + intros b' Hb' Hnew. destruct (discovered _); simpl in Hnew;
        [| now apply elem_of_nil in Hnew].
      apply list_elem_of_singleton in Hnew as ->.
      destruct (Hq _ Hb') as (blk' & Hl & _).
      apply lookup_lt_Some in Hl. lia.
    + destruct (discovered _); simpl; [apply NoDup_singleton | apply NoDup_nil_2].
  - intros b' [Hb' | Hb']%elem_of_app.
    + destruct (Hq _ Hb') as (blk' & Hl & Hp). exists blk'. split; [| exact Hp].
      rewrite lookup_app_l by (rewrite length_insert; eapply lookup_lt_Some, Hl).
      rewrite list_lookup_insert_ne; [exact Hl |].
      intros ->. rewrite Hb in Hl. injection Hl as ->. congruence.
    + destruct (discovered _) as [t|]; simpl in *; [| now apply elem_of_nil in Hb'].
      apply list_elem_of_singleton in Hb' as ->.
      exists (new_block t). split; [| reflexivity].
      rewrite lookup_app_r by (rewrite length_insert; lia).
      rewrite length_insert, Nat.sub_diag. reflexivity.
Qed.

Lemma queue_ok_exec (st : RunState) (a : Action) :
  queue_ok st -> queue_ok (exec c cfg st a).
Proof.
  intros H. destruct (exec_cases st a H) as [-> | Hch]; [exact H |].
  eapply queue_ok_change; eauto.
Qed.

(** Induction over the states a run reaches from the seeded state. *)
Lemma reachable_ind (P : RunState -> Prop) (topics : list string) :
  P (init topics) ->
  (forall st st', queue_ok st -> P st -> Change c cfg st st' -> P st') ->
  forall sched, P (run c cfg sched (init topics)).
Proof.
  intros Hinit Hstep sched.
  enough (queue_ok (run c cfg sched (init topics))
          /\ P (run c cfg sched (init topics))) as [_ H] by exact H.
  apply (run_ind (fun st => queue_ok st /\ P st)).
  - intros st a [Hq HP]. split; [now apply queue_ok_exec |].
    destruct (exec_cases st a Hq) as [-> | Hch]; [exact HP | eauto].
  - split; [apply queue_ok_init | exact Hinit].
Qed.

(** *** What a step of the agent does to the traces *)

Lemma mk_trace_citation (limit cid : nat) (q : Query) (r : ToolResult) :
  citation_id (mk_trace limit cid q r) = cid.
Proof. unfold mk_trace. now destruct (_ <? _)%nat. Qed.

Lemma mk_trace_marked (cid : nat) (q : Query) (r : ToolResult) :
  trace_marked cfg (mk_trace (raw_answer_limit cfg) cid q r).
Proof.
  unfold mk_trace, trace_marked.
  destruct (Nat.ltb_spec (raw_answer_limit cfg) (String.length (result_raw r)));
    simpl; [eauto | discriminate].
Qed.

(** A step leaves the traces of its block alone or appends one trace, which
    carries the offered citation identifier; it publishes that identifier
    exactly when it appends. *)
Lemma agent_step_traces (b : block_id) (cid : nat) (blk : TopicBlock) :
  let r := agent_step c cfg b cid blk in
  (tool_traces (next_block r) = tool_traces blk
   /\ minted r = false /\ assigned (emitted r) = [])
  \/ (exists q res,
        tool_traces (next_block r)
        = tool_traces blk ++ [mk_trace (raw_answer_limit cfg) cid q res]
        /\ minted r = true /\ assigned (emitted r) = [cid]).
Proof.
  unfold agent_step. destruct (phase blk) as [| | |q|res].
  - destruct (_ <=? _)%nat; left; auto.
  - destruct (with_retry _) as [[|]|]; left; auto.
  - destruct (with_retry _); left; auto.
  - destruct (with_retry _) as [res|]; [right | left; auto].
    exists q, res. auto.
  - left. destruct (result_discovered res); auto.
Qed.

Lemma assigned_app (l1 l2 : list Event) :
  assigned (l1 ++ l2) = assigned l1 ++ assigned l2.
Proof. apply omap_app. Qed.

Lemma assigned_closing (b : block_id) (blk : TopicBlock) :
  assigned (closing_events b blk) = [].
Proof. unfold closing_events. now destruct (status blk). Qed.

Lemma assigned_cancel_events (b : block_id) (bs : list TopicBlock) :
  assigned (cancel_events b bs) = [].
Proof.
  revert b; induction bs as [|blk bs IH]; intros b; simpl; [reflexivity |].
  rewrite assigned_app, IH. unfold cancel_event.
  now destruct (is_terminal _).
Qed.

Lemma all_citation_ids_app (l1 l2 : list TopicBlock) :
  all_citation_ids (l1 ++ l2) = all_citation_ids l1 ++ all_citation_ids l2.
Proof. unfold all_citation_ids. now rewrite fmap_app, join_app. Qed.

Lemma all_citation_ids_new (found : option string) :
  all_citation_ids (new_blocks found) = [].
Proof. now destruct found. Qed.

Lemma all_citation_ids_insert (bs : list TopicBlock) (b : block_id)
    (blk nb : TopicBlock) (extra : list ToolTrace) :
  bs !! b = Some blk ->
  tool_traces nb = tool_traces blk ++ extra ->
  all_citation_ids (<[b := nb]> bs)
  ≡ₚ all_citation_ids bs ++ (citation_id <$> extra).
Proof.
  revert b; induction bs as [|x bs IH]; intros [|b] Hb Hnb; try discriminate.
  - injection Hb as ->. unfold all_citation_ids, trace_ids. simpl.
    rewrite Hnb, fmap_app, <- !app_assoc.
    apply Permutation_app_head, Permutation_app_comm.
  - simpl in Hb. specialize (IH b Hb Hnb).
    unfold all_citation_ids in *. simpl. rewrite IH, app_assoc. reflexivity.
Qed.

Lemma all_citation_ids_fmap (f : TopicBlock -> TopicBlock) (bs : list TopicBlock) :
  (forall blk, tool_traces (f blk) = tool_traces blk) ->
  all_citation_ids (f <$> bs) = all_citation_ids bs.
Proof.
  intros Hf. unfold all_citation_ids. rewrite <- list_fmap_compose.
  f_equal. apply list_fmap_ext. intros _ blk _. unfold trace_ids. simpl.
  now rewrite Hf.
Qed.

Lemma cancel_block_traces (blk : TopicBlock) :
  tool_traces (cancel_block blk) = tool_traces blk.
Proof. unfold cancel_block. now destruct (is_terminal _). Qed.

Lemma StronglySorted_snoc (l : list nat) (n : nat) :
  StronglySorted lt l -> Forall (fun m => m < n) l -> StronglySorted lt (l ++ [n]).
Proof.
  induction 1 as [|m l Hl IH Hm]; intros Hn; simpl.
  - repeat constructor.
  - apply Forall_cons in Hn as [Hmn Hn]. constructor; [auto |].
    apply Forall_app. split; [exact Hm | now repeat constructor].
Qed.

Lemma StronglySorted_lt_NoDup (l : list nat) : StronglySorted lt l -> NoDup l.
Proof.
  induction 1 as [|m l Hl IH Hm]; constructor; [| exact IH].
  intros Hin. rewrite Forall_forall in Hm. specialize (Hm _ Hin). lia.
Qed.

Lemma citations_ok_change (st st' : RunState) :
  citations_ok st -> Change c cfg st st' -> citations_ok st'.
Proof.
  intros (Hsorted & Hbelow & Hperm)
    [b q blk Hc Hqueue Hb Hs | b blk Hc Hb Hs | Hc];
    unfold citations_ok; simpl.
  - rewrite assigned_app, app_nil_r. split; [exact Hsorted | split; [exact Hbelow |]].
    rewrite (all_citation_ids_insert _ _ blk _ [] Hb) by (simpl; now rewrite app_nil_r).
    simpl. now rewrite app_nil_r.
  - rewrite !assigned_app, assigned_closing, app_nil_r.
    rewrite all_citation_ids_app, all_citation_ids_new, app_nil_r.
    destruct (agent_step_traces b (next_citation st) blk)
      as [(Ht & -> & ->) | (q & res & Ht & -> & ->)].
    + rewrite app_nil_r. split; [exact Hsorted | split; [exact Hbelow |]].
      rewrite (all_citation_ids_insert _ _ blk _ [] Hb) by (now rewrite app_nil_r).
      simpl. now rewrite app_nil_r.
    + split; [now apply StronglySorted_snoc | split].
      * apply Forall_app. split; [| repeat constructor].
        eapply Forall_impl; [exact Hbelow | simpl; lia].
      * rewrite (all_citation_ids_insert _ _ blk _ _ Hb Ht). simpl.
        rewrite mk_trace_citation. now rewrite Hperm.
  - rewrite assigned_app, assigned_cancel_events, app_nil_r.
    rewrite (all_citation_ids_fmap _ _ cancel_block_traces). auto.
Qed.

Lemma citations_ok_run (topics : list string) (sched : list Action) :
  citations_ok (run c cfg sched (init topics)).
Proof.
  apply reachable_ind.
  - unfold citations_ok, init; simpl. split; [constructor | split; [constructor |]].
    unfold all_citation_ids. induction topics; simpl; auto.
  - intros st st' _. apply citations_ok_change.
Qed.

(** *** Traces only grow *)

Lemma traces_grow_change (st st' : RunState) (b : block_id) (blk : TopicBlock) :
  Change c cfg st st' ->
  blocks st !! b = Some blk ->
  exists blk', blocks st' !! b = Some blk'
               /\ tool_traces blk `prefix_of` tool_traces blk'.
Proof.
  intros [b0 q blk0 Hc Hqueue Hb0 Hs | b0 blk0 Hc Hb0 Hs | Hc] Hb; simpl.
  - destruct (decide (b0 = b)) as [-> | Hne].
    + rewrite list_lookup_insert_eq by (eapply lookup_lt_Some, Hb).
      eexists; split; [reflexivity |].
      rewrite Hb in Hb0. injection Hb0 as <-. reflexivity.
    + rewrite list_lookup_insert_ne by exact Hne. eauto.
  - rewrite lookup_app_l by (rewrite length_insert; eapply lookup_lt_Some, Hb).
    destruct (decide (b0 = b)) as [-> | Hne].
    + rewrite list_lookup_insert_eq by (eapply lookup_lt_Some, Hb).
      eexists; split; [reflexivity |].
      rewrite Hb in Hb0. injection Hb0 as <-.
      destruct (agent_step_traces b (next_citation st) blk)
        as [(-> & _) | (q & res & -> & _)]; [reflexivity |].
      now apply prefix_app_r.
    + rewrite list_lookup_insert_ne by exact Hne. eauto.
  - exists (cancel_block blk). split.
    + now rewrite list_lookup_fmap, Hb.
    + now rewrite cancel_block_traces.
Qed.

Lemma traces_grow_run (more : list Action) (st : RunState) (b : block_id)
    (blk : TopicBlock) :
  queue_ok st ->
  blocks st !! b = Some blk ->
  exists blk', blocks (run c cfg more st) !! b = Some blk'
               /\ tool_traces blk `prefix_of` tool_traces blk'.
Proof.
  revert st blk; induction more as [|a more IH]; intros st blk Hq Hb.
  - exists blk. split; [exact Hb | reflexivity].
  - rewrite run_cons.
    assert (exists blk1, blocks (exec c cfg st a) !! b = Some blk1
                         /\ tool_traces blk `prefix_of` tool_traces blk1)
      as (blk1 & Hb1 & Hpre).
    { destruct (exec_cases st a Hq) as [-> | Hch]; [eauto |].
      eapply traces_grow_change; eauto. }
    destruct (IH _ blk1 (queue_ok_exec st a Hq) Hb1) as (blk' & Hb' & Hpre').
    exists blk'. split; [exact Hb' | now transitivity (tool_traces blk1)].
Qed.

Lemma queue_ok_run (topics : list string) (sched : list Action) :
  queue_ok (run c cfg sched (init topics)).
Proof. apply reachable_ind; [apply queue_ok_init |]. intros; eapply queue_ok_change; eauto. Qed.

(** C3: in every run, whatever the execution mode and the interleaving of
    the blocks, the citation identifiers are strictly increasing in the
    order in which they were assigned; the identifiers on the traces of all
    blocks are those that were assigned, and no two traces share one; and a
    trace, once appended, stays as it is while the run goes on. *)
Theorem citation_ids_unique_increasing (topics : list string)
    (sched : list Action) :
  StronglySorted lt (assigned (events (run c cfg sched (init topics))))
  /\ all_citation_ids (blocks (run c cfg sched (init topics)))
     ≡ₚ assigned (events (run c cfg sched (init topics)))
  /\ NoDup (all_citation_ids (blocks (run c cfg sched (init topics))))
  /\ (forall more b blk,
        blocks (run c cfg sched (init topics)) !! b = Some blk ->
        exists blk',
          blocks (run c cfg more (run c cfg sched (init topics))) !! b = Some blk'
          /\ tool_traces blk `prefix_of` tool_traces blk').
Proof.
  destruct (citations_ok_run topics sched) as (Hsorted & _ & Hperm).
  split; [exact Hsorted | split; [exact Hperm | split]].
  - rewrite Hperm. now apply StronglySorted_lt_NoDup.
  - intros more b blk Hb. apply traces_grow_run; [apply queue_ok_run | exact Hb].
Qed.

(** *** Properties of single blocks *)

Lemma lookup_stepped (bs : list TopicBlock) (b b' : block_id)
    (nb x : TopicBlock) (found : option string) :
  b < length bs ->
  (<[b := nb]> bs ++ new_blocks found) !! b' = Some x ->
  (b' = b /\ x = nb)
  \/ (b' <> b /\ bs !! b' = Some x)
  \/ (exists t, found = Some t /\ b' = length bs /\ x = new_block t).
Proof.
  intros Hb Hx. destruct (decide (b' < length bs)) as [Hlt | Hge].
  - rewrite lookup_app_l in Hx by (now rewrite length_insert).
    destruct (decide (b = b')) as [-> | Hne].
    + rewrite list_lookup_insert_eq in Hx by exact Hb. injection Hx as <-. auto.
    + rewrite list_lookup_insert_ne in Hx by exact Hne. auto.
  - rewrite lookup_app_r in Hx by (rewrite length_insert; lia).
    rewrite length_insert in Hx. right; right.
    destruct found as [t|]; simpl in Hx; [| now rewrite lookup_nil in Hx].
    destruct (b' - length bs) as [|n] eqn:E; simpl in Hx; [| now rewrite lookup_nil in Hx].
    injection Hx as <-. exists t. repeat split. lia.
Qed.

(** A property of single blocks that holds for a new block and is kept when
    a pending block is started, when the agent steps a block that is being
    researched and when a block is cancelled, holds for every block of every
    state a run reaches. *)
Lemma blocks_ind (P : block_id -> TopicBlock -> Prop) (topics : list string) :
  (forall b t, P b (new_block t)) ->
  (forall b blk, P b blk -> status blk = pending -> P b (start_block blk)) ->
  (forall b blk cid, P b blk -> status blk = researching ->
                     P b (next_block (agent_step c cfg b cid blk))) ->
  (forall b blk, P b blk -> P b (cancel_block blk)) ->
  forall sched b blk,
    blocks (run c cfg sched (init topics)) !! b = Some blk -> P b blk.
Proof.
  intros Hnew Hstart Hagent Hcancel sched.
  apply (reachable_ind (fun st => forall b blk, blocks st !! b = Some blk -> P b blk)).
  - intros b blk Hb. simpl in Hb. rewrite list_lookup_fmap in Hb.
    destruct (topics !! b); simpl in Hb; [| discriminate].
    injection Hb as <-. apply Hnew.
  - intros st st' _ IH [b0 q blk0 Hc Hqueue Hb0 Hs | b0 blk0 Hc Hb0 Hs | Hc] b blk;
      simpl; intros Hb.
    + destruct (decide (b0 = b)) as [-> | Hne].
      * rewrite list_lookup_insert_eq in Hb by (eapply lookup_lt_Some, Hb0).
        injection Hb as <-. eauto.
      * rewrite list_lookup_insert_ne in Hb by exact Hne. eauto.
    + apply lookup_stepped in Hb
        as [[-> ->] | [[_ Hb] | (t & _ & _ & ->)]];
        eauto using lookup_lt_Some.
    + rewrite list_lookup_fmap in Hb.
      destruct (blocks st !! b) as [blk'|] eqn:Hb'; simpl in Hb; [| discriminate].
      injection Hb as <-. eauto.
Qed.

Lemma with_retry_None {A} (call : nat -> option A) :
  with_retry call = None -> call 0 = None /\ call 1 = None.
Proof. unfold with_retry. destruct (call 0); [discriminate | auto]. Qed.

(** *** Truncated answers *)

Lemma traces_marked_run (topics : list string) (sched : list Action)
    (b : block_id) (blk : TopicBlock) :
  blocks (run c cfg sched (init topics)) !! b = Some blk ->
  Forall (trace_marked cfg) (tool_traces blk).
Proof.
  revert sched b blk.
  apply (blocks_ind (fun _ blk => Forall (trace_marked cfg) (tool_traces blk))).
  - intros _ t. constructor.
  - intros _ blk H _. exact H.
  - intros b blk cid H _.
    destruct (agent_step_traces b cid blk)
      as [(-> & _) | (q & res & -> & _)]; [exact H |].
    apply Forall_app. split; [exact H |].
    constructor; [apply mk_trace_marked | constructor].
  - intros _ blk H. now rewrite cancel_block_traces.
Qed.

(** The traces and events of the model are objects of the declared
    contract. *)
Lemma trace_json_conforms (t : ToolTrace) : Contract.ToolTrace (trace_json t) = true.
Proof. unfold trace_json. destruct (raw_answer_original_size t); reflexivity. Qed.

Lemma event_json_conforms (e : Event) : ResearchEvent (event_json e) = true.
Proof.
  unfold event_json. destruct (ev_citation e), (ev_type e); reflexivity.
Qed.

Lemma trace_json_truncated (t : ToolTrace) :
  trace_json t !! "raw_answer_truncated" = Some (JBool (raw_answer_truncated t)).
Proof. unfold trace_json. destruct (raw_answer_original_size t); reflexivity. Qed.

Lemma trace_json_original_size (t : ToolTrace) :
  trace_json t !! "raw_answer_original_size"
  = (fun size => JNum (Z.of_nat size)) <$> raw_answer_original_size t.
Proof. unfold trace_json. destruct (raw_answer_original_size t); reflexivity. Qed.

(** C7: in every run, a trace on any block whose raw answer is marked as
    truncated carries the original size of the answer, a size beyond the
    truncation limit; in the object delivered for the trace, when
    [raw_answer_truncated] is true, [raw_answer_original_size] is present. *)
Theorem truncated_trace_has_size (topics : list string) (sched : list Action)
    (b : block_id) (blk : TopicBlock) (i : nat) (t : ToolTrace) :
  blocks (run c cfg sched (init topics)) !! b = Some blk ->
  tool_traces blk !! i = Some t ->
  trace_json t !! "raw_answer_truncated" = Some (JBool true) ->
  exists size,
    raw_answer_original_size t = Some size
    /\ raw_answer_limit cfg < size
    /\ trace_json t !! "raw_answer_original_size" = Some (JNum (Z.of_nat size)).
Proof.
  intros Hb Ht Htr. rewrite trace_json_truncated in Htr. injection Htr as Htr.
  apply traces_marked_run in Hb. rewrite Forall_forall in Hb.
  destruct (Hb t (list_elem_of_lookup_2 _ _ _ Ht) Htr) as (size & Hsize & Hlimit).
  exists size. split; [exact Hsize | split; [exact Hlimit |]].
  now rewrite trace_json_original_size, Hsize.
Qed.

(** *** The iteration budget *)

Lemma agent_ok_step (b : block_id) (blk : TopicBlock) (cid : nat) :
  agent_ok c cfg b blk -> status blk = researching ->
  agent_ok c cfg b (next_block (agent_step c cfg b cid blk)).
Proof.
  unfold agent_ok, agent_step. intros H Hs. rewrite Hs in H.
  destruct (phase blk) as [| | |q|res].
  - destruct (Nat.leb_spec (max_iterations cfg) (iteration_count blk));
      simpl; rewrite ?Hs; simpl; lia.
  - destruct (with_retry _) as [[|]|] eqn:E; simpl; rewrite ?Hs; auto.
    right. split; [discriminate | split; [exact H |]].
    left. now apply with_retry_None.
  - destruct (with_retry _) as [q|] eqn:E; simpl; rewrite ?Hs; auto.
    right. split; [discriminate | split; [exact H |]].
    right; left. now apply with_retry_None.
  - destruct (with_retry _) as [res|] eqn:E; simpl; rewrite ?Hs; auto.
    right. split; [discriminate | split; [exact H |]].
    right; right. exists q. now apply with_retry_None.
  - simpl. rewrite Hs. lia.
Qed.

Lemma agent_ok_run (topics : list string) (sched : list Action)
    (b : block_id) (blk : TopicBlock) :
  blocks (run c cfg sched (init topics)) !! b = Some blk -> agent_ok c cfg b blk.
Proof.
  revert sched b blk. apply blocks_ind.
  - intros b t. unfold agent_ok. simpl. auto.
  - intros b blk H Hs. unfold agent_ok in *. rewrite Hs in H. simpl.
    destruct H as [-> ->]. lia.
  - intros b blk cid. apply agent_ok_step.
  - intros b blk H. unfold cancel_block.
    destruct (is_terminal (status blk)); [exact H |].
    unfold agent_ok. simpl. now left.
Qed.

Lemma agent_step_failure (b : block_id) (blk : TopicBlock) (cid : nat) :
  failure blk <> Some CancellationError ->
  failure (next_block (agent_step c cfg b cid blk)) <> Some CancellationError.
Proof.
  intros H. unfold agent_step. destruct (phase blk) as [| | |q|res].
  - now destruct (_ <=? _)%nat.
  - now destruct (with_retry _) as [[|]|].
  - now destruct (with_retry _).
  - now destruct (with_retry _).
  - exact H.
Qed.

Lemma cancel_block_terminal (blk : TopicBlock) :
  is_terminal (status (cancel_block blk)) = true.
Proof.
  unfold cancel_block. destruct (is_terminal (status blk)) eqn:E; [exact E | reflexivity].
Qed.

Lemma cancellation_ok_run (topics : list string) (sched : list Action) :
  cancellation_ok (run c cfg sched (init topics)).
Proof.
  apply reachable_ind.
  - intros b blk Hb. simpl in *. rewrite list_lookup_fmap in Hb.
    destruct (topics !! b); simpl in Hb; [| discriminate].
    now injection Hb as <-.
  - intros st st' _ IH [b0 q blk0 Hc Hqueue Hb0 Hs | b0 blk0 Hc Hb0 Hs | Hc];
      unfold cancellation_ok in *; rewrite Hc in IH; simpl; intros b blk Hb.
    + destruct (decide (b0 = b)) as [-> | Hne].
      * rewrite list_lookup_insert_eq in Hb by (eapply lookup_lt_Some, Hb0).
        injection Hb as <-. simpl. eauto.
      * rewrite list_lookup_insert_ne in Hb by exact Hne. eauto.
    + apply lookup_stepped in Hb
        as [[-> ->] | [[_ Hb] | (t & _ & _ & ->)]];
        eauto using lookup_lt_Some, agent_step_failure.
    + rewrite list_lookup_fmap in Hb.
      destruct (blocks st !! b); simpl in Hb; [| discriminate].
      injection Hb as <-. apply cancel_block_terminal.
Qed.

(** C5: when the iteration count of a block being researched has reached
    the configured maximum, the Research Agent's next step marks the block
    completed, with the partial-knowledge note, and not failed; and the agent
    marks a block failed only after a hard tool or model error, a call that
    failed together with its retry before the budget was used up.  So in
    every run, a block that has ended otherwise than by the cancellation of
    the run is completed with the note if its count is at the maximum, and
    is failed only after a hard error; and as long as the run has not been
    cancelled, no block has ended by cancellation. *)
Theorem budget_exhaustion_completes (topics : list string)
    (sched : list Action) (b : block_id) (blk : TopicBlock) :
  blocks (run c cfg sched (init topics)) !! b = Some blk ->
  (status blk = researching ->
   forall cid,
     (iteration_count blk = max_iterations cfg ->
        status (next_block (agent_step c cfg b cid blk)) = completed
        /\ partial_knowledge (next_block (agent_step c cfg b cid blk)) = true)
     /\ (status (next_block (agent_step c cfg b cid blk)) = failed ->
           iteration_count blk < max_iterations cfg
           /\ hard_error c b (iteration_count blk)))
  /\ (failure blk <> Some CancellationError ->
      (iteration_count blk = max_iterations cfg ->
       is_terminal (status blk) = true ->
         status blk = completed /\ partial_knowledge blk = true)
      /\ (status blk = failed ->
            iteration_count blk < max_iterations cfg
            /\ hard_error c b (iteration_count blk)))
  /\ (cancelled (run c cfg sched (init topics)) = false ->
      failure blk <> Some CancellationError).
Proof.
  intros Hb.
  pose proof (agent_ok_run _ _ _ _ Hb) as Hok.
  pose proof (cancellation_ok_run topics sched _ _ Hb) as Hnc.
  unfold agent_ok in Hok.
  split; [| split].
  - intros Hs cid. rewrite Hs in Hok. unfold agent_step. split.
    + intros Hmax. destruct (phase blk); try lia.
      rewrite Hmax, Nat.leb_refl. simpl. auto.
    + destruct (phase blk) as [| | |q|res].
      * destruct (_ <=? _)%nat; simpl; rewrite ?Hs; discriminate.
      * destruct (with_retry _) as [[|]|] eqn:E; simpl; rewrite ?Hs;
          try discriminate.
        intros _. split; [exact Hok |]. left. now apply with_retry_None.
      * destruct (with_retry _) as [q|] eqn:E; simpl; rewrite ?Hs;
          try discriminate.
        intros _. split; [exact Hok |]. right; left. now apply with_retry_None.
      * destruct (with_retry _) as [res|] eqn:E; simpl; rewrite ?Hs;
          try discriminate.
        intros _. split; [exact Hok |]. right; right. exists q.
        now apply with_retry_None.
      * simpl. rewrite Hs. discriminate.
  - intros Hf. split.
    + intros Hmax. destruct (status blk); try discriminate; intros _.
      * split; [reflexivity |].
        destruct (partial_knowledge blk); [reflexivity | lia].
      * destruct Hok as [Hok | (_ & Hok & _)]; [contradiction | lia].
    + intros Hs. rewrite Hs in Hok.
      destruct Hok as [Hok | (_ & Hlt & Herr)]; [contradiction | auto].
  - intros Hc. now rewrite Hc in Hnc.
Qed.

(** *** The loop is bounded *)

(** A step of the agent ends the block or brings its end nearer. *)
Lemma agent_step_progress (b : block_id) (blk : TopicBlock) (cid : nat) :
  agent_ok c cfg b blk -> status blk = researching ->
  is_terminal (status (next_block (agent_step c cfg b cid blk))) = true
  \/ (status (next_block (agent_step c cfg b cid blk)) = researching
      /\ steps_left cfg (next_block (agent_step c cfg b cid blk))
         < steps_left cfg blk).
Proof.
  unfold agent_ok, agent_step, steps_left. intros H Hs. rewrite Hs in H.
  destruct (phase blk) as [| | |q|res].
  - destruct (Nat.leb_spec (max_iterations cfg) (iteration_count blk));
      [now left | right]. simpl. split; [exact Hs | lia].
  - destruct (with_retry _) as [[|]|]; [now left | right | now left].
    simpl. split; [exact Hs | lia].
  - destruct (with_retry _); [right | now left]. simpl. split; [exact Hs | lia].
  - destruct (with_retry _); [right | now left]. simpl. split; [exact Hs | lia].
  - right. simpl. split; [exact Hs | lia].
Qed.

Lemma steps_left_positive (b : block_id) (blk : TopicBlock) :
  agent_ok c cfg b blk -> status blk = researching -> 0 < steps_left cfg blk.
Proof.
  unfold agent_ok, steps_left. intros H Hs. rewrite Hs in H.
  destruct (phase blk); lia.
Qed.

Lemma step_lookup (st : RunState) (b : block_id) (blk : TopicBlock) :
  cancelled st = false ->
  blocks st !! b = Some blk ->
  status blk = researching ->
  blocks (step c cfg b st) !! b
  = Some (next_block (agent_step c cfg b (next_citation st) blk)).
Proof.
  intros Hc Hb Hs. unfold step. rewrite Hc, Hb. unfold is_researching.
  rewrite Hs. simpl.
  rewrite lookup_app_l by (rewrite length_insert; eapply lookup_lt_Some, Hb).
  apply list_lookup_insert_eq. eapply lookup_lt_Some, Hb.
Qed.

Lemma step_ended (st : RunState) (b : block_id) (blk : TopicBlock) (n : nat) :
  blocks st !! b = Some blk ->
  is_terminal (status blk) = true ->
  run c cfg (replicate n (Step b)) st = st.
Proof.
  intros Hb Ht.
  assert (step c cfg b st = st) as Hstep.
  { unfold step. rewrite Hb. unfold is_researching.
    destruct (cancelled st); [reflexivity |].
    destruct (status blk); try discriminate Ht; reflexivity. }
  induction n as [|n IH]; [reflexivity |].
  cbn [replicate]. rewrite run_cons. cbn [exec]. now rewrite Hstep.
Qed.

Lemma block_ends_within (topics : list string) (n : nat) :
  forall (sched : list Action) (b : block_id) (blk : TopicBlock),
    blocks (run c cfg sched (init topics)) !! b = Some blk ->
    status blk = researching ->
    steps_left cfg blk <= n ->
    exists blk',
      blocks (run c cfg (sched ++ replicate n (Step b)) (init topics)) !! b
      = Some blk'
      /\ is_terminal (status blk') = true.
Proof.
  induction n as [|n IH]; intros sched b blk Hb Hs Hn.
  - pose proof (steps_left_positive b blk (agent_ok_run _ _ _ _ Hb) Hs). lia.
  - pose proof (agent_ok_run _ _ _ _ Hb) as Hok.
    assert (cancelled (run c cfg sched (init topics)) = false) as Hc.
    { pose proof (cancellation_ok_run topics sched _ _ Hb) as H.
      destruct (cancelled _); [| reflexivity]. rewrite Hs in H. discriminate. }
    pose proof (step_lookup _ _ _ Hc Hb Hs) as Hb1.
    replace (sched ++ replicate (S n) (Step b))
      with ((sched ++ [Step b]) ++ replicate n (Step b))
      by (now rewrite <- app_assoc).
    assert (run c cfg (sched ++ [Step b]) (init topics)
            = step c cfg b (run c cfg sched (init topics))) as Hrun
      by (now rewrite run_app).
    destruct (agent_step_progress b blk
                (next_citation (run c cfg sched (init topics))) Hok Hs)
      as [Ht | [Hs1 Hlt]].
    + rewrite run_app, Hrun, (step_ended _ _ _ n Hb1 Ht). eauto.
    + eapply (IH (sched ++ [Step b]) b); [rewrite Hrun; exact Hb1 | exact Hs1 | lia].
Qed.

(** The loop of the agent is bounded by the iteration budget: a block that
    is being researched has ended after at most five steps per iteration
    and one more, whatever the collaborators answer. *)
Theorem researching_block_ends (topics : list string) (sched : list Action)
    (b : block_id) (blk : TopicBlock) :
  blocks (run c cfg sched (init topics)) !! b = Some blk ->
  status blk = researching ->
  exists blk',
    blocks (run c cfg (sched ++ replicate (5 * max_iterations cfg + 1) (Step b))
              (init topics)) !! b
    = Some blk'
    /\ is_terminal (status blk') = true.
Proof.
  intros Hb Hs. apply (block_ends_within topics _ sched b blk Hb Hs).
  unfold steps_left. destruct (phase blk); lia.
Qed.

(** *** The events of one block *)

Lemma walk_app (p : option ResearchEventType) (l1 l2 : list ResearchEventType) :
  walk p (l1 ++ l2) = walk p l1 ≫= fun p' => walk p' l2.
Proof.
  revert p; induction l1 as [|e l1 IH]; intros p; simpl; [reflexivity |].
  destruct (follows p e); [apply IH | reflexivity].
Qed.

Lemma block_events_app (b : block_id) (l1 l2 : list Event) :
  block_events b (l1 ++ l2) = block_events b l1 ++ block_events b l2.
Proof. unfold block_events. now rewrite filter_app, fmap_app. Qed.

Lemma block_events_same (b : block_id) (l : list Event) :
  Forall (fun e => ev_block e = b) l -> block_events b l = ev_type <$> l.
Proof.
  unfold block_events. induction 1 as [|e l He _ IH]; [reflexivity |].
  rewrite filter_cons_True by exact He. now rewrite !fmap_cons, IH.
Qed.

Lemma block_events_other (b b' : block_id) (l : list Event) :
  Forall (fun e => ev_block e = b') l -> b <> b' -> block_events b l = [].
Proof.
  unfold block_events. intros H Hne. induction H as [|e l He _ IH]; [reflexivity |].
  rewrite filter_cons_False by congruence. exact IH.
Qed.

Lemma closing_events_block (b : block_id) (blk : TopicBlock) :
  Forall (fun e => ev_block e = b) (closing_events b blk).
Proof. unfold closing_events. destruct (status blk); repeat constructor. Qed.

Lemma agent_step_block (b : block_id) (cid : nat) (blk : TopicBlock) :
  Forall (fun e => ev_block e = b) (emitted (agent_step c cfg b cid blk)).
Proof.
  unfold agent_step. destruct (phase blk) as [| | |q|res].
  - destruct (_ <=? _)%nat; repeat constructor.
  - destruct (with_retry _) as [[|]|]; repeat constructor.
  - destruct (with_retry _); repeat constructor.
  - destruct (with_retry _); repeat constructor.
  - simpl. destruct (result_discovered res); repeat constructor.
Qed.

(** The events of a step continue the path of the block from where the block
    was to where it now is. *)
Lemma agent_step_walk (b : block_id) (cid : nat) (blk : TopicBlock) :
  status blk = researching ->
  walk (last_event_of blk)
    (ev_type <$> (emitted (agent_step c cfg b cid blk)
                  ++ closing_events b (next_block (agent_step c cfg b cid blk))))
  = Some (last_event_of (next_block (agent_step c cfg b cid blk))).
Proof.
  intros Hs. unfold agent_step, last_event_of, closing_events. rewrite Hs.
  destruct (phase blk) as [| | |q|res] eqn:Hph.
  - destruct (_ <=? _)%nat; simpl; rewrite ?Hs;
      destruct (iteration_count blk); reflexivity.
  - destruct (with_retry _) as [[|]|]; simpl; rewrite ?Hs; reflexivity.
  - destruct (with_retry _); simpl; rewrite ?Hs; reflexivity.
  - destruct (with_retry _); simpl; rewrite ?Hs; reflexivity.
  - simpl. rewrite Hs. destruct (result_discovered res); reflexivity.
Qed.

Lemma cancel_event_block (b : block_id) (blk : TopicBlock) :
  Forall (fun e => ev_block e = b) (cancel_event b blk).
Proof. unfold cancel_event. destruct (is_terminal _); repeat constructor. Qed.

Lemma cancel_events_blocks (b0 : block_id) (bs : list TopicBlock) :
  Forall (fun e => b0 <= ev_block e < b0 + length bs) (cancel_events b0 bs).
Proof.
  revert b0; induction bs as [|blk bs IH]; intros b0; simpl; [constructor |].
  apply Forall_app. split.
  - eapply Forall_impl; [apply cancel_event_block |]. simpl. lia.
  - eapply Forall_impl; [apply IH |]. simpl. lia.
Qed.

Lemma block_events_outside (b : block_id) (l : list Event) :
  Forall (fun e => ev_block e <> b) l -> block_events b l = [].
Proof.
  unfold block_events. induction 1 as [|e l He _ IH]; [reflexivity |].
  rewrite filter_cons_False by exact He. exact IH.
Qed.

Lemma block_events_cancel (b0 : block_id) (bs : list TopicBlock) (i : nat)
    (blk : TopicBlock) :
  bs !! i = Some blk ->
  block_events (b0 + i) (cancel_events b0 bs)
  = ev_type <$> cancel_event (b0 + i) blk.
Proof.
  revert b0 i; induction bs as [|x bs IH]; intros b0 [|i] Hi; try discriminate.
  - injection Hi as ->. simpl. rewrite block_events_app, Nat.add_0_r.
    rewrite (block_events_same _ _ (cancel_event_block b0 blk)).
    rewrite block_events_outside, app_nil_r; [reflexivity |].
    eapply Forall_impl; [apply cancel_events_blocks |]. simpl. lia.
  - simpl in Hi. simpl. rewrite block_events_app.
    rewrite (block_events_other _ _ _ (cancel_event_block b0 x)) by lia.
    replace (b0 + S i) with (S b0 + i) by lia. now apply IH.
Qed.

Lemma block_events_cancel_none (bs : list TopicBlock) (b : block_id) :
  bs !! b = None -> block_events b (cancel_events 0 bs) = [].
Proof.
  intros Hb%lookup_ge_None. apply block_events_outside.
  eapply Forall_impl; [apply cancel_events_blocks |]. simpl. lia.
Qed.

Lemma cancel_walk (b : block_id) (blk : TopicBlock) :
  walk (last_event_of blk) (ev_type <$> cancel_event b blk)
  = Some (last_event_of (cancel_block blk)).
Proof.
  unfold cancel_event, cancel_block, last_event_of.
  destruct (status blk) eqn:Hs; simpl; rewrite ?Hs; try reflexivity.
  destruct (phase blk); try reflexivity.
  destruct (iteration_count blk); reflexivity.
Qed.

Lemma events_ok_init (topics : list string) : events_ok c cfg (init topics).
Proof.
  split; [| reflexivity].
  intros b blk Hb. simpl in Hb. rewrite list_lookup_fmap in Hb.
  destruct (topics !! b); simpl in Hb; [| discriminate].
  injection Hb as <-. unfold agent_ok. simpl. auto.
Qed.

Lemma events_ok_change (st st' : RunState) :
  events_ok c cfg st -> Change c cfg st st' -> events_ok c cfg st'.
Proof.
  intros [Hin Hout] [b0 q blk0 Hc Hqueue Hb0 Hs | b0 blk0 Hc Hb0 Hs | Hc];
    (split; simpl; [intros b blk Hb | intros b Hb]); rewrite !block_events_app.
  - destruct (decide (b0 = b)) as [-> | Hne].
    + rewrite list_lookup_insert_eq in Hb by (eapply lookup_lt_Some, Hb0).
      injection Hb as <-. destruct (Hin _ _ Hb0) as [Hok Hwalk].
      unfold agent_ok, last_event_of in *. rewrite Hs in Hok, Hwalk.
      destruct Hok as [Hcount Hphase]. simpl. rewrite Hcount, Hphase.
      split; [lia |]. rewrite walk_app, Hwalk.
      rewrite (block_events_same b [event block_started b]) by (repeat constructor).
      reflexivity.
    + rewrite list_lookup_insert_ne in Hb by exact Hne.
      destruct (Hin _ _ Hb) as [Hok Hwalk]. split; [exact Hok |].
      rewrite (block_events_other b b0 [event block_started b0]);
        [now rewrite app_nil_r | repeat constructor | congruence].
  - apply lookup_ge_None in Hb. rewrite length_insert in Hb.
    rewrite Hout by (now apply lookup_ge_None).
    apply (block_events_other b b0); [repeat constructor |].
    apply lookup_lt_Some in Hb0. lia.
  - assert (Forall (fun e => ev_block e = b0)
              (emitted (agent_step c cfg b0 (next_citation st) blk0)
               ++ closing_events b0
                    (next_block (agent_step c cfg b0 (next_citation st) blk0))))
      as Hall by (apply Forall_app; split;
                  [apply agent_step_block | apply closing_events_block]).
    rewrite <- block_events_app.
    apply lookup_stepped in Hb
      as [[-> ->] | [[Hne Hb] | (t & _ & -> & ->)]];
      [| | | eapply lookup_lt_Some, Hb0].
    + destruct (Hin _ _ Hb0) as [Hok Hwalk].
      split; [now apply agent_ok_step |].
      rewrite walk_app, Hwalk, (block_events_same _ _ Hall). simpl.
      now apply agent_step_walk.
    + destruct (Hin _ _ Hb) as [Hok Hwalk]. split; [exact Hok |].
      now rewrite (block_events_other _ _ _ Hall), app_nil_r.
    + split; [unfold agent_ok; simpl; auto |].
      rewrite Hout by (apply lookup_ge_None; lia).
      rewrite (block_events_other _ _ _ Hall); [reflexivity |].
      apply lookup_lt_Some in Hb0. lia.
  - apply lookup_ge_None in Hb. rewrite length_app, length_insert in Hb.
    rewrite Hout by (apply lookup_ge_None; lia).
    apply lookup_lt_Some in Hb0.
    rewrite (block_events_other b b0 (emitted _))
      by first [apply agent_step_block | lia].
    rewrite (block_events_other b b0 (closing_events _ _))
      by first [apply closing_events_block | lia].
    reflexivity.
  - rewrite list_lookup_fmap in Hb.
    destruct (blocks st !! b) as [blk'|] eqn:Hb'; simpl in Hb; [| discriminate].
    injection Hb as <-. destruct (Hin _ _ Hb') as [Hok Hwalk]. split.
    + unfold cancel_block. destruct (is_terminal (status blk')); [exact Hok |].
      unfold agent_ok. simpl. now left.
    + rewrite walk_app, Hwalk. simpl.
      pose proof (block_events_cancel 0 _ b blk' Hb') as Hce.
      simpl in Hce. rewrite Hce. apply cancel_walk.
  - rewrite list_lookup_fmap in Hb.
    destruct (blocks st !! b) eqn:Hb'; [discriminate |].
    now rewrite Hout, block_events_cancel_none.
Qed.

Lemma events_ok_run (topics : list string) (sched : list Action) :
  events_ok c cfg (run c cfg sched (init topics)).
Proof.
  apply reachable_ind; [apply events_ok_init |].
  intros st st' _. apply events_ok_change.
Qed.

End Runs.

(** A path through the state machine of events passes through the states of
    the loop in their order. *)
Lemma walk_loop_path (l : list ResearchEventType)
    (p p' : option ResearchEventType) :
  walk p l = Some p' ->
  loop_path_from (loop_state_after p) (omap loop_state l) = true.
Proof.
  revert p; induction l as [|e l IH]; intros p H; [reflexivity |].
  simpl in H. destruct (follows p e) eqn:F; [| discriminate].
  destruct p as [[]|], e; try discriminate F; cbn;
    first [ exact (IH _ H)
          | destruct l as [|e' l]; [reflexivity | destruct e'; discriminate H] ].
Qed.

(** On a path through the state machine nothing follows the end of the
    block. *)
Lemma walk_ends (l : list ResearchEventType) (p p' : option ResearchEventType) :
  walk p l = Some p' -> ends_at_closing l.
Proof.
  intros H before e after -> Hclosing. rewrite walk_app in H.
  destruct (walk p before) as [p1|]; [| discriminate].
  simpl in H. destruct (follows p1 e); [| discriminate].
  destruct after as [|e' after]; [reflexivity |].
  destruct e; try discriminate Hclosing; destruct e'; discriminate H.
Qed.

(** C4: in every run, the events published for any one block, in
    publication order, form a valid path through the state machine of
    section 4.3: each event may follow the one before, the states
    checking_sufficiency, generating_query, tool_calling, processing_notes
    and iteration_completed are passed through in this order, none skipped,
    looping back, and no event follows the block's end ([block_completed] or
    [block_failed]). *)
Theorem block_events_follow_state_machine (c : Collaborators) (cfg : Config)
    (topics : list string) (sched : list Action) (b : block_id) :
  valid_path (block_events b (events (run c cfg sched (init topics))))
  /\ loop_path (block_events b (events (run c cfg sched (init topics))))
  /\ ends_at_closing (block_events b (events (run c cfg sched (init topics)))).
Proof.
  destruct (events_ok_run c cfg topics sched) as [Hin Hout].
  assert (exists p, walk None (block_events b (events (run c cfg sched (init topics))))
                    = Some p) as [p Hp].
  { destruct (blocks (run c cfg sched (init topics)) !! b) as [blk|] eqn:Hb.
    - destruct (Hin _ _ Hb) as [_ H]. eauto.
    - rewrite (Hout _ Hb). simpl. eauto. }
  split; [| split].
  - unfold valid_path. rewrite Hp. eauto.
  - unfold loop_path. apply (walk_loop_path _ None p Hp).
  - apply (walk_ends _ None p Hp).
Qed.

(** The second block of the series run uses up its three iterations. *)
Lemma budget_exhaustion_completes_witness :
  exists blk,
    blocks series_run !! 1 = Some blk
    /\ iteration_count blk = 3
    /\ status blk = completed /\ partial_knowledge blk = true.
Proof.
  eexists. split; [vm_compute; reflexivity |]. split; [reflexivity |].
  refine (proj1 (proj1 (proj2 (budget_exhaustion_completes
                                 photosynthesis_collaborators
                                 (photosynthesis_config series)
                                 photosynthesis_topics
                                 series_schedule 1 _ _)) _) _ _);
    first [vm_compute; reflexivity | discriminate].
Defined.

(** Both blocks of the parallel run have one trace at the cut, and keep it
    to the end. *)
Lemma citation_ids_unique_increasing_witness :
  exists blk,
    blocks (run photosynthesis_collaborators (photosynthesis_config parallel)
              parallel_start (init photosynthesis_topics)) !! 1 = Some blk
    /\ exists blk',
         blocks (run photosynthesis_collaborators (photosynthesis_config parallel)
                   parallel_rest
                   (run photosynthesis_collaborators (photosynthesis_config parallel)
                      parallel_start (init photosynthesis_topics))) !! 1
         = Some blk'
         /\ tool_traces blk `prefix_of` tool_traces blk'.
Proof.
  eexists. split; [vm_compute; reflexivity |].
  apply (proj2 (proj2 (proj2 (citation_ids_unique_increasing
                                photosynthesis_collaborators
                                (photosynthesis_config parallel)
                                photosynthesis_topics parallel_start)))
           parallel_rest 1).
  vm_compute. reflexivity.
Defined.

(** The first trace of the first block in the series run is truncated. *)
Lemma truncated_trace_has_size_witness :
  exists blk t,
    blocks series_run !! 0 = Some blk
    /\ tool_traces blk !! 0 = Some t
    /\ trace_json t !! "raw_answer_truncated" = Some (JBool true)
    /\ exists size,
         raw_answer_original_size t = Some size
         /\ 16 < size
         /\ trace_json t !! "raw_answer_original_size" = Some (JNum (Z.of_nat size)).
Proof.
  do 2 eexists. split; [vm_compute; reflexivity |].
  split; [reflexivity |]. split; [reflexivity |].
  eapply (truncated_trace_has_size photosynthesis_collaborators
            (photosynthesis_config series) photosynthesis_topics
            series_schedule 0 _ 0);
    [vm_compute; reflexivity | reflexivity | reflexivity].
Defined.

End ResearchFacts.

(* ===================================================================== *)
(** * Further properties of the sources *)
(* ===================================================================== *)

(** ** More on the string primitives *)

Module JsMoreFacts.
Import Js JsFacts JsMore.
Local Open Scope list_scope.

Lemma startsWith_nil (s : string) : startsWith s "" = true.
Proof. apply startsWith_iff. now exists s. Qed.

Lemma startsWith_app (p r : string) : startsWith (p +:+ r) p = true.
Proof. apply startsWith_iff. now exists r. Qed.

Lemma startsWith_step (a b : ascii) (s p : string) :
  startsWith (String b s) (String a p) = Ascii.eqb a b && startsWith s p.
Proof.
  unfold startsWith. simpl.
  destruct (ascii_dec a b) as [-> | Hne].
  - now rewrite Ascii.eqb_refl.
  - now rewrite (proj2 (Ascii.eqb_neq a b) Hne).
Qed.

Lemma startsWith_empty (p : string) : startsWith "" p = (p =? "").
Proof. unfold startsWith. now destruct p. Qed.

Lemma includes_cons (c : ascii) (s p : string) :
  includes (String c s) p = startsWith (String c s) p || includes s p.
Proof. reflexivity. Qed.

Lemma includes_nil (p : string) : includes "" p = startsWith "" p.
Proof. unfold includes. apply orb_false_r. Qed.

Lemma includes_iff (s p : string) :
  includes s p = true <-> exists x y, s = x +:+ p +:+ y.
Proof.
  induction s as [|c s IH].
  - rewrite includes_nil, startsWith_iff. split.
    + intros [r Hr]. now exists "", r.
    + intros (x & y & H). destruct x; [exists y; exact H | discriminate].
  - rewrite includes_cons, orb_true_iff, startsWith_iff, IH. split.
    + intros [[r Hr] | (x & y & ->)].
      * now exists "", r.
      * now exists (String c x), y.
    + intros ([|a x] & y & H).
      * left. now exists y.
      * right. rewrite app_cons in H. injection H as _ ->. eauto.
Qed.

(** A literal that does not contain the character [c] cannot reach into what
    follows a [c]: whether [s ++ c ++ t] starts with it is decided by [s]. *)
Lemma startsWith_before (lit s t : string) (c : ascii) :
  includes lit (String c "") = false ->
  startsWith (s +:+ String c t) lit = startsWith s lit.
Proof.
  revert s. induction lit as [|a lit IH]; intros s Hc.
  - now rewrite !startsWith_nil.
  - rewrite includes_cons in Hc. apply orb_false_elim in Hc as [Ha Hlit].
    rewrite startsWith_step, startsWith_nil, andb_true_r in Ha.
    destruct s as [|b s].
    + rewrite app_nil_l, startsWith_step.
      rewrite Ascii.eqb_sym, Ha. reflexivity.
    + rewrite app_cons, !startsWith_step, IH by assumption. reflexivity.
Qed.

Lemma replace_anchored_before (lit repl s t : string) (c : ascii) :
  includes lit (String c "") = false ->
  replace_anchored lit repl (s +:+ String c t)
  = replace_anchored lit repl s +:+ String c t.
Proof.
  intros Hc. unfold replace_anchored.
  destruct (strip_prefix lit s) as [r|] eqn:E.
  - apply strip_prefix_iff in E as ->.
    rewrite app_assoc, (proj2 (strip_prefix_iff lit _ (r +:+ String c t)) eq_refl).
    now rewrite app_assoc.
  - apply strip_prefix_None in E.
    assert (strip_prefix lit (s +:+ String c t) = None) as ->; [| reflexivity].
    apply strip_prefix_None. now rewrite startsWith_before.
Qed.

(** An anchored replacement whose literal and replacement do not end with
    ["/"] leaves it unchanged whether the string ends with ["/"]. *)
Lemma endsWith_replace_anchored (lit repl s : string) :
  endsWith lit "/" = false -> endsWith repl "/" = false ->
  endsWith (replace_anchored lit repl s) "/" = endsWith s "/".
Proof.
  intros Hl Hr. unfold replace_anchored.
  destruct (strip_prefix lit s) as [r|] eqn:E; [| reflexivity].
  apply strip_prefix_iff in E as ->.
  destruct (string_dec r "") as [-> | Hne].
  - now rewrite !app_nil_r, Hl, Hr.
  - now rewrite !endsWith_slash_app.
Qed.

Lemma get_set {V} (k k' : string) (v : V) (o : obj V) :
  get k' (set k v o) = if k =? k' then Some v else get k' o.
Proof.
  induction o as [|[k0 v0] o IH]; simpl.
  - reflexivity.
  - destruct (String.eqb_spec k0 k) as [-> | Hne]; simpl.
    + destruct (String.eqb_spec k k'); reflexivity.
    + rewrite IH. destruct (String.eqb_spec k0 k') as [-> | Hne'].
      * now rewrite (proj2 (String.eqb_neq k k')) by congruence.
      * reflexivity.
Qed.

Lemma keys_set {V} (k : string) (v : V) (o : obj V) :
  keys (set k v o)
  = match get k o with Some _ => keys o | None => (keys o ++ [k])%list end.
Proof.
  unfold keys. induction o as [|[k0 v0] o IH]; simpl; [reflexivity |].
  destruct (String.eqb_spec k0 k) as [-> | Hne]; simpl; [reflexivity |].
  rewrite IH. now destruct (get k o).
Qed.

Lemma get_None {V} (k : string) (o : obj V) :
  get k o = None <-> ~ In k (keys o).
Proof.
  unfold keys. induction o as [|[k0 v0] o IH]; simpl; [tauto |].
  destruct (String.eqb_spec k0 k) as [-> | Hne].
  - split; [discriminate | tauto].
  - rewrite IH. tauto.
Qed.

Lemma get_In {V} (k : string) (v : V) (o : obj V) :
  get k o = Some v -> In (k, v) o.
Proof.
  induction o as [|[k0 v0] o IH]; simpl; [discriminate |].
  destruct (String.eqb_spec k0 k) as [-> | Hne].
  - intros [= ->]. now left.
  - auto.
Qed.

Lemma In_get {V} (k : string) (v : V) (o : obj V) :
  List.NoDup (keys o) -> In (k, v) o -> get k o = Some v.
Proof.
  unfold keys. induction o as [|[k0 v0] o IH]; simpl; [tauto |].
  intros Hnd [[= -> ->] | Hin].
  - now rewrite String.eqb_refl.
  - apply List.NoDup_cons_iff in Hnd as [Hk Hnd].
    destruct (String.eqb_spec k0 k) as [-> | Hne]; [| auto].
    exfalso. apply Hk. now apply (List.in_map fst _ (k, v)).
Qed.

Lemma NoDup_keys_set {V} (k : string) (v : V) (o : obj V) :
  List.NoDup (keys o) -> List.NoDup (keys (set k v o)).
Proof.
  intros Hnd. rewrite keys_set. destruct (get k o) eqn:E; [exact Hnd |].
  apply get_None in E. apply List.NoDup_app.
  - exact Hnd.
  - apply List.NoDup_cons; [intros [] | apply List.NoDup_nil].
  - intros x Hx [<- | []]. exact (E Hx).
Qed.

Lemma get_cons {V} (k k' : string) (v : V) (o : obj V) :
  get k' ((k, v) :: o) = if k =? k' then Some v else get k' o.
Proof. reflexivity. Qed.

Lemma set_new {V} (k : string) (v : V) (o : obj V) :
  get k o = None -> set k v o = o ++ [(k, v)].
Proof.
  induction o as [| [k0 v0] o IH]; simpl; [reflexivity |].
  destruct (k0 =? k); [discriminate |]. intros H. now rewrite IH.
Qed.

Lemma set_same {V} (k : string) (v : V) (o : obj V) :
  get k o = Some v -> set k v o = o.
Proof.
  induction o as [| [k0 v0] o IH]; simpl; [discriminate |].
  destruct (String.eqb_spec k0 k) as [-> | Hne].
  - now intros [= ->].
  - intros H. now rewrite IH.
Qed.

Lemma keys_app {V} (o1 o2 : obj V) : keys (o1 ++ o2) = keys o1 ++ keys o2.
Proof. apply map_app. Qed.

Lemma get_filter {V} (f : string * V -> bool) (k : string) (o : obj V) :
  List.NoDup (keys o) ->
  get k (List.filter f o)
  = match get k o with
    | Some x => if f (k, x) then Some x else None
    | None => None
    end.
Proof.
  induction o as [| [k0 x0] o IH]; intros Hnd; [reflexivity |].
  change (keys ((k0, x0) :: o)) with (k0 :: keys o) in Hnd.
  apply List.NoDup_cons_iff in Hnd as [Hk Hnd]. apply get_None in Hk.
  simpl List.filter. rewrite get_cons.
  destruct (String.eqb_spec k0 k) as [-> | Hne].
  - destruct (f (k, x0)).
    + rewrite get_cons, String.eqb_refl. reflexivity.
    + rewrite IH, Hk by assumption. reflexivity.
  - destruct (f (k0, x0)).
    + rewrite get_cons, (proj2 (String.eqb_neq k0 k) Hne). now apply IH.
    + now apply IH.
Qed.

Lemma NoDup_keys_filter {V} (f : string * V -> bool) (o : obj V) :
  List.NoDup (keys o) -> List.NoDup (keys (List.filter f o)).
Proof.
  unfold keys. induction o as [| e o IH]; intros Hnd; [exact Hnd |].
  simpl in Hnd. apply List.NoDup_cons_iff in Hnd as [He Hnd]. simpl.
  destruct (f e); [| auto]. simpl. apply List.NoDup_cons; [| auto].
  intros Hin. apply He. apply in_map_iff in Hin as (x & Hx & Hin).
  apply filter_In in Hin as [Hin _]. rewrite <- Hx. now apply in_map.
Qed.

End JsMoreFacts.

(** ** More on API endpoint resolution *)

Module ApiMore.
Import Js JsFacts JsMore JsMoreFacts Api ApiFacts.

Lemma resolveApiBaseUrl_cases (g : Globals) :
  truthy (readRuntimeConfig g ≫= API_BASE_URL) = Some (resolveApiBaseUrl g)
  \/ truthy (process_env g !! "API_BASE_URL") = Some (resolveApiBaseUrl g)
  \/ resolveApiBaseUrl g = default_base.
Proof.
  unfold resolveApiBaseUrl.
  destruct (truthy (readRuntimeConfig g ≫= API_BASE_URL)); [now left |].
  destruct (truthy (process_env g !! "API_BASE_URL")); auto.
Qed.

Lemma app_eq_r (a b : string) : a +:+ b = b <-> a = "".
Proof.
  split; [| now intros ->].
  intros H. apply (f_equal String.length) in H. rewrite length_app in H.
  destruct a; [reflexivity | simpl in H; lia].
Qed.

Lemma normalizeBase_empty (b : string) :
  normalizeBase b = "" <-> b = "" \/ b = "/".
Proof.
  destruct (normalizeBase_cases b) as [[_ E] | [_ E]]; split.
  - intros H. rewrite H in E. now right.
  - intros [-> | ->]; reflexivity.
  - intros H. left. congruence.
  - intros [-> | ->]; reflexivity.
Qed.

(** The three shapes of the base [wsUrl] works with. *)
Lemma ws_base_cases (b : string) :
  (exists r, b = "https:" +:+ r
     /\ replace_anchored "https:" "wss:" (replace_anchored "http:" "ws:" b)
        = "wss:" +:+ r)
  \/ (exists r, b = "http:" +:+ r
        /\ replace_anchored "https:" "wss:" (replace_anchored "http:" "ws:" b)
           = "ws:" +:+ r)
  \/ (startsWith b "http:" = false /\ startsWith b "https:" = false
      /\ replace_anchored "https:" "wss:" (replace_anchored "http:" "ws:" b) = b).
Proof.
  destruct (startsWith b "http:") eqn:E1.
  - right; left. apply startsWith_iff in E1 as [r ->]. exists r.
    split; [reflexivity |]. rewrite replace_anchored_match.
    now rewrite replace_anchored_other by reflexivity.
  - rewrite (replace_anchored_other "http:") by assumption.
    destruct (startsWith b "https:") eqn:E2.
    + left. apply startsWith_iff in E2 as [r ->]. exists r.
      split; [reflexivity |]. apply replace_anchored_match.
    + right; right. repeat split. now apply replace_anchored_other.
Qed.

Lemma ws_base_endsWith (b : string) :
  endsWith (replace_anchored "https:" "wss:" (replace_anchored "http:" "ws:" b)) "/"
  = endsWith b "/".
Proof. now rewrite !endsWith_replace_anchored. Qed.

Lemma ws_base_slash (b : string) :
  replace_anchored "https:" "wss:" (replace_anchored "http:" "ws:" b) = "/"
  <-> b = "/".
Proof.
  destruct (ws_base_cases b) as [(r & -> & ->) | [(r & -> & ->) | (_ & _ & ->)]];
    try tauto; split; discriminate.
Qed.

Lemma ws_base_nonempty (b : string) :
  replace_anchored "https:" "wss:" (replace_anchored "http:" "ws:" b) = ""
  <-> b = "".
Proof.
  destruct (ws_base_cases b) as [(r & -> & ->) | [(r & -> & ->) | (_ & _ & ->)]];
    try tauto; split; discriminate.
Qed.

(** X1: whatever the runtime configuration and the environment hold,
    [resolveApiBaseUrl] never returns the empty string; and [apiUrl] and
    [wsUrl] return the path alone, without a host, exactly when the base that
    was resolved is ["/"]. *)
Theorem resolveApiBaseUrl_nonempty (g : Globals) :
  resolveApiBaseUrl g <> ""
  /\ (forall p, apiUrl g p = normalizePath p <-> resolveApiBaseUrl g = "/")
  /\ (forall p, wsUrl g p = normalizePath p <-> resolveApiBaseUrl g = "/").
Proof.
  assert (resolveApiBaseUrl g <> "") as Hne.
  { destruct (resolveApiBaseUrl_cases g) as [H | [H | H]].
    - now apply truthy_Some in H.
    - now apply truthy_Some in H.
    - rewrite H. discriminate. }
  split; [exact Hne |]. split; intros p.
  - rewrite apiUrl_eq, app_eq_r, normalizeBase_empty. tauto.
  - rewrite wsUrl_eq, app_eq_r, normalizeBase_empty, ws_base_nonempty, ws_base_slash.
    tauto.
Qed.

Lemma normalizePath_app (p1 p2 : string) :
  p1 <> "" -> normalizePath (p1 +:+ p2) = normalizePath p1 +:+ p2.
Proof.
  intros Hne. destruct p1 as [|c p1]; [done |].
  unfold normalizePath. rewrite app_cons.
  change "/" with (String "/" "") at 1 3. rewrite !startsWith_step, !startsWith_nil.
  destruct (Ascii.eqb "/" c); simpl; [reflexivity |].
  now rewrite app_cons.
Qed.

(** X2: a path is only ever extended at its front.  Both URLs end with the
    path as it was given, and appending to a non-empty path appends the same
    text to the URL, so a query string or a further segment can be added to
    the URL of an endpoint. *)
Theorem url_keeps_path (g : Globals) (p1 p2 : string) :
  p1 <> "" ->
  apiUrl g (p1 +:+ p2) = apiUrl g p1 +:+ p2
  /\ wsUrl g (p1 +:+ p2) = wsUrl g p1 +:+ p2
  /\ endsWith (apiUrl g p1) p1 = true
  /\ endsWith (wsUrl g p1) p1 = true.
Proof.
  intros Hne. rewrite !apiUrl_eq, !wsUrl_eq, normalizePath_app by assumption.
  rewrite !app_assoc. repeat split; apply endsWith_iff.
  - destruct (normalizePath_cases p1) as [[_ ->] | [_ ->]]; [eauto |].
    eexists. now rewrite <- app_assoc.
  - destruct (normalizePath_cases p1) as [[_ ->] | [_ ->]]; [eauto |].
    eexists. now rewrite <- app_assoc.
Qed.

Lemma url_keeps_path_witness :
  "/api/v1/config/llm" <> ""
  /\ apiUrl server_side ("/api/v1/config/llm" +:+ "/3/active")
     = apiUrl server_side "/api/v1/config/llm" +:+ "/3/active"
  /\ wsUrl server_side ("/api/v1/config/llm" +:+ "/3/active")
     = "ws://localhost:8004/realtimex/api/v1/config/llm/3/active".
Proof.
  assert ("/api/v1/config/llm" <> "") as Hne by discriminate.
  split; [exact Hne |].
  pose proof (url_keeps_path server_side "/api/v1/config/llm" "/3/active" Hne)
    as (Ha & Hw & _).
  split; [exact Ha |]. rewrite Hw. reflexivity.
Defined.

Lemma normalizePath_startsWith (p : string) : exists q, normalizePath p = "/" +:+ q.
Proof.
  destruct (normalizePath_cases p) as [[E ->] | [_ ->]]; [| eauto].
  now apply startsWith_iff in E.
Qed.

Lemma startsWith_normalizeBase (b q lit : string) :
  includes lit "/" = false ->
  startsWith b lit = false ->
  startsWith (normalizeBase b +:+ "/" +:+ q) lit = false.
Proof.
  intros Hlit Hb. change ("/" +:+ q) with (String "/" q).
  rewrite startsWith_before by assumption.
  destruct (normalizeBase_cases b) as [[_ E] | [_ ->]]; [| exact Hb].
  rewrite E in Hb. change "/" with (String "/" "") in Hb.
  now rewrite startsWith_before in Hb.
Qed.

(** X3: a WebSocket URL never keeps an HTTP scheme.  Whatever base is
    configured and whatever the path, the result of [wsUrl] begins neither
    with ["http:"] nor with ["https:"]. *)
Theorem wsUrl_never_http (g : Globals) (p : string) :
  startsWith (wsUrl g p) "http:" = false
  /\ startsWith (wsUrl g p) "https:" = false.
Proof.
  rewrite wsUrl_eq. destruct (normalizePath_startsWith p) as [q ->].
  destruct (ws_base_cases (resolveApiBaseUrl g))
    as [(r & _ & ->) | [(r & _ & ->) | (H1 & H2 & ->)]];
    split; apply startsWith_normalizeBase; auto.
Qed.

(** X4: one trailing ["/"] on the configured base makes no difference.  If
    the base one configuration resolves to does not end with ["/"], and a
    second configuration resolves to that base followed by one ["/"], every
    path gets the same HTTP URL and the same WebSocket URL from both. *)
Theorem trailing_slash_irrelevant (g1 g2 : Globals) (p : string) :
  endsWith (resolveApiBaseUrl g1) "/" = false ->
  resolveApiBaseUrl g2 = resolveApiBaseUrl g1 +:+ "/" ->
  apiUrl g2 p = apiUrl g1 p /\ wsUrl g2 p = wsUrl g1 p.
Proof.
  intros Hend H2. rewrite !apiUrl_eq, !wsUrl_eq, H2.
  set (b := resolveApiBaseUrl g1) in *.
  assert (forall x, endsWith x "/" = false -> normalizeBase (x +:+ "/") = normalizeBase x)
    as Hn.
  { intros x Hx. unfold normalizeBase. rewrite Hx.
    assert (endsWith (x +:+ "/") "/" = true) as -> by (apply endsWith_iff; eauto).
    apply slice_snoc. }
  split.
  - now rewrite Hn.
  - change "/" with (String "/" "") at 1.
    rewrite !replace_anchored_before by reflexivity.
    rewrite Hn; [reflexivity |]. now rewrite ws_base_endsWith.
Qed.

Lemma trailing_slash_irrelevant_witness :
  endsWith (resolveApiBaseUrl (server_with_env "https://tutor.example")) "/" = false
  /\ resolveApiBaseUrl (server_with_env "https://tutor.example/")
     = resolveApiBaseUrl (server_with_env "https://tutor.example") +:+ "/"
  /\ apiUrl (server_with_env "https://tutor.example/") "api/v1/settings"
     = apiUrl (server_with_env "https://tutor.example") "api/v1/settings"
  /\ wsUrl (server_with_env "https://tutor.example/") "api/v1/settings"
     = wsUrl (server_with_env "https://tutor.example") "api/v1/settings".
Proof.
  split; [reflexivity |]. split; [reflexivity |].
  apply (trailing_slash_irrelevant (server_with_env "https://tutor.example")
           (server_with_env "https://tutor.example/") "api/v1/settings");
    reflexivity.
Defined.

(** X5: two paths get the same URL only when they are the same path, one of
    them possibly written without its leading ["/"]; distinct endpoints never
    collide, for [apiUrl] and for [wsUrl]. *)
Theorem url_injective (g : Globals) (p q : string) :
  (apiUrl g p = apiUrl g q <-> normalizePath p = normalizePath q)
  /\ (wsUrl g p = wsUrl g q <-> normalizePath p = normalizePath q)
  /\ (normalizePath p = normalizePath q
      <-> p = q \/ p = "/" +:+ q /\ startsWith q "/" = false
          \/ q = "/" +:+ p /\ startsWith p "/" = false).
Proof.
  rewrite !apiUrl_eq, !wsUrl_eq. repeat split.
  - apply app_cancel_l.
  - now intros ->.
  - apply app_cancel_l.
  - now intros ->.
  - destruct (normalizePath_cases p) as [[Ep ->] | [Ep ->]],
             (normalizePath_cases q) as [[Eq ->] | [Eq ->]]; intros H; auto.
    left. now apply (app_cancel_l "/").
  - intros [-> | [[-> Hq] | [-> Hp]]]; [reflexivity | |].
    + destruct (normalizePath_cases q) as [[Eq _] | [_ ->]]; [congruence |].
      unfold normalizePath. now rewrite startsWith_app.
    + destruct (normalizePath_cases p) as [[Ep _] | [_ ->]]; [congruence |].
      unfold normalizePath. now rewrite startsWith_app.
Qed.

End ApiMore.

(** ** The base URL from the server's environment to the browser *)

Module DeployFacts.
Import Js JsFacts Api ApiFacts Layout ServerWrapper.

Lemma env_or_default_truthy (e : gmap string string) :
  truthy (Some (env_or_default e)) = Some (env_or_default e).
Proof.
  apply truthy_Some. split; [reflexivity |]. unfold env_or_default.
  destruct (truthy (e !! "API_BASE_URL")) as [u|] eqn:E; [| discriminate].
  now apply truthy_Some in E.
Qed.

Lemma resolve_server (e : gmap string string) :
  resolveApiBaseUrl (server e) = env_or_default e.
Proof. reflexivity. Qed.

Lemma env_or_default_insert (e : gmap string string) :
  env_or_default (<["API_BASE_URL" := env_or_default e]> e) = env_or_default e.
Proof.
  unfold env_or_default at 1. rewrite lookup_insert_eq.
  now rewrite env_or_default_truthy.
Qed.

(** X6: the browser resolves the base the server would.  In a browser whose
    [window.__RUNTIME_CONFIG__] holds the object [RootLayout] computed on a
    server with environment [server_env], the client code resolves the same
    base URL, and so builds the same URLs, as code on that server, whatever
    [process.env] holds in the browser bundle. *)
Theorem browser_agrees_with_server (g : Globals) (server_env : gmap string string)
    (p : string) :
  readRuntimeConfig g = Some (runtimeConfig server_env) ->
  resolveApiBaseUrl g = resolveApiBaseUrl (server server_env)
  /\ apiUrl g p = apiUrl (server server_env) p
  /\ wsUrl g p = wsUrl (server server_env) p.
Proof.
  intros Hg.
  assert (resolveApiBaseUrl g = resolveApiBaseUrl (server server_env)) as H.
  { rewrite resolve_server. unfold resolveApiBaseUrl. rewrite Hg.
    change (Some (runtimeConfig server_env) ≫= API_BASE_URL)
      with (Some (env_or_default server_env)).
    now rewrite env_or_default_truthy. }
  now rewrite !apiUrl_eq, !wsUrl_eq, H.
Qed.

Lemma browser_agrees_with_server_witness :
  readRuntimeConfig
    {| window := Some {| __RUNTIME_CONFIG__ :=
                           Some (runtimeConfig {["API_BASE_URL" := "https://tutor.example"]}) |};
       process_env := {["API_BASE_URL" := "http://other.example"]} |}
  = Some (runtimeConfig {["API_BASE_URL" := "https://tutor.example"]})
  /\ apiUrl
       {| window := Some {| __RUNTIME_CONFIG__ :=
                              Some (runtimeConfig {["API_BASE_URL" := "https://tutor.example"]}) |};
          process_env := {["API_BASE_URL" := "http://other.example"]} |}
       "api/v1/settings"
     = apiUrl (server {["API_BASE_URL" := "https://tutor.example"]}) "api/v1/settings".
Proof.
  split; [reflexivity |].
  apply (browser_agrees_with_server
           {| window := Some {| __RUNTIME_CONFIG__ :=
                                  Some (runtimeConfig {["API_BASE_URL" := "https://tutor.example"]}) |};
              process_env := {["API_BASE_URL" := "http://other.example"]} |}
           {["API_BASE_URL" := "https://tutor.example"]} "api/v1/settings").
  reflexivity.
Defined.

(** X7: the default the packaging script and the server wrapper put into the
    environment changes nothing downstream.  After either, the variable
    [API_BASE_URL] is set, non-empty and equal to what [resolveApiBaseUrl]
    returned on the server before; every other variable is untouched; and
    applying the default twice is the same as applying it once. *)
Theorem wrapper_keeps_base (e : gmap string string) :
  run_wrapper e !! "API_BASE_URL" = Some (resolveApiBaseUrl (server e))
  /\ resolveApiBaseUrl (server (run_wrapper e)) = resolveApiBaseUrl (server e)
  /\ (forall k, k <> "API_BASE_URL" -> run_wrapper e !! k = e !! k)
  /\ run_wrapper (run_wrapper e) = run_wrapper e
  /\ buildEnv e = run_wrapper e.
Proof.
  unfold run_wrapper, buildEnv. repeat split.
  - now rewrite lookup_insert_eq.
  - now rewrite !resolve_server, env_or_default_insert.
  - intros k Hk. now rewrite lookup_insert_ne.
  - now rewrite env_or_default_insert, insert_insert_eq.
Qed.

End DeployFacts.

(** ** The launcher of the packaged server *)

Module LauncherFacts.
Import Js JsFacts Api ApiFacts Layout ServerWrapper DeployFacts Launcher.
Local Open Scope list_scope.

(** Induction over an argument list that may be consumed two at a time. *)
Lemma args_ind (P : list string -> Prop) :
  P [] ->
  (forall a, P [a]) ->
  (forall a b l, P l -> P (b :: l) -> P (a :: b :: l)) ->
  forall l, P l.
Proof.
  intros H0 H1 H2 l.
  assert (P l /\ forall a, P (a :: l)) as [H _]; [| exact H].
  induction l as [|b l [IH1 IH2]]; split; auto.
Qed.

Lemma parse_cons (arg : string) (rest : list string) (o : Options) :
  parse (arg :: rest) o
  = if is_help arg then Help
    else if (arg =? "-p") || (arg =? "--port") then
      match rest with
      | [] => Parsed {| port := None; hostname := hostname o; apiBase := apiBase o |}
      | v :: rest' =>
          parse rest' {| port := Some v; hostname := hostname o; apiBase := apiBase o |}
      end
    else if (arg =? "-H") || (arg =? "--hostname") then
      match rest with
      | [] => Parsed {| port := port o; hostname := None; apiBase := apiBase o |}
      | v :: rest' =>
          parse rest' {| port := port o; hostname := Some v; apiBase := apiBase o |}
      end
    else if arg =? "--api-base" then
      match rest with
      | [] => Parsed {| port := port o; hostname := hostname o; apiBase := None |}
      | v :: rest' =>
          parse rest' {| port := port o; hostname := hostname o; apiBase := Some v |}
      end
    else parse rest o.
Proof. reflexivity. Qed.

Lemma takes_value_false (arg : string) :
  takes_value arg = false ->
  (arg =? "-p") || (arg =? "--port") = false
  /\ (arg =? "-H") || (arg =? "--hostname") = false
  /\ (arg =? "--api-base") = false.
Proof.
  unfold takes_value.
  destruct (arg =? "-p"), (arg =? "--port"), (arg =? "-H"),
    (arg =? "--hostname"), (arg =? "--api-base"); simpl; intros; auto; discriminate.
Qed.

(** Parsing is sequential: after a well-formed prefix the loop stands at the
    start of what follows, with the options of the prefix. *)
Lemma parse_app (pre : list string) :
  well_formed pre = true ->
  forall o, exists o', parse pre o = Parsed o'
                       /\ forall more, parse (pre ++ more) o = parse more o'.
Proof.
  induction pre as [| a | a b pre IH1 IH2] using args_ind; intros Hwf o.
  - now exists o.
  - simpl in Hwf. destruct (is_help a) eqn:Eh; [discriminate |].
    destruct (takes_value a) eqn:Et; [discriminate |].
    apply takes_value_false in Et as (E1 & E2 & E3).
    exists o. split; intros; simpl app; rewrite parse_cons, Eh, E1, E2, E3; reflexivity.
  - change (well_formed (a :: b :: pre))
      with (if is_help a then false
            else if takes_value a then well_formed pre else well_formed (b :: pre)) in Hwf.
    destruct (is_help a) eqn:Eh; [discriminate |].
    change ((a :: b :: pre) ++ ?m) with (a :: b :: (pre ++ m)).
    destruct (takes_value a) eqn:Et.
    + rewrite parse_cons, Eh.
      destruct ((a =? "-p") || (a =? "--port")) eqn:E1.
      { destruct (IH1 Hwf {| port := Some b; hostname := hostname o; apiBase := apiBase o |})
          as (o' & Ho' & Hm).
        exists o'. split; [exact Ho' |]. intros more.
        rewrite parse_cons, Eh, E1. apply Hm. }
      destruct ((a =? "-H") || (a =? "--hostname")) eqn:E2.
      { destruct (IH1 Hwf {| port := port o; hostname := Some b; apiBase := apiBase o |})
          as (o' & Ho' & Hm).
        exists o'. split; [exact Ho' |]. intros more.
        rewrite parse_cons, Eh, E1, E2. apply Hm. }
      destruct (a =? "--api-base") eqn:E3.
      { destruct (IH1 Hwf {| port := port o; hostname := hostname o; apiBase := Some b |})
          as (o' & Ho' & Hm).
        exists o'. split; [exact Ho' |]. intros more.
        rewrite parse_cons, Eh, E1, E2, E3. apply Hm. }
      unfold takes_value in Et. rewrite <- !orb_assoc in Et.
      rewrite (orb_assoc (a =? "-p")), E1 in Et. simpl in Et.
      rewrite (orb_assoc (a =? "-H")), E2, E3 in Et. discriminate.
    + apply takes_value_false in Et as (E1 & E2 & E3).
      destruct (IH2 Hwf o) as (o' & Ho' & Hm).
      exists o'. split.
      * rewrite parse_cons, Eh, E1, E2, E3. exact Ho'.
      * intros more. rewrite parse_cons, Eh, E1, E2, E3. apply (Hm more).
Qed.

Lemma spread_if_lookup (key k : string) (v : option string) (e : gmap string string) :
  spread_if key v e !! k
  = if key =? k then match truthy v with Some s => Some s | None => e !! k end
    else e !! k.
Proof.
  unfold spread_if. destruct (String.eqb_spec key k) as [-> | Hne];
    destruct (truthy v); try reflexivity.
  - apply lookup_insert_eq.
  - now apply lookup_insert_ne.
Qed.

Lemma truthy_nonempty (v : string) : v <> "" -> truthy (Some v) = Some v.
Proof. intros H. now apply truthy_Some. Qed.

(** X8: the last word on the command line wins.  After a well-formed
    command line, a final [--port v], [--hostname v] or [--api-base v] with a
    non-empty [v] decides the variable [PORT], [HOSTNAME] or
    [NEXT_PUBLIC_API_BASE] of the server that is started, whatever came
    before and whatever the launcher inherited. *)
Theorem last_option_wins (process_env : gmap string string)
    (pre : list string) (v : string) :
  well_formed pre = true -> v <> "" ->
  (exists o, parse (pre ++ ["--port"; v]) initial = Parsed o
             /\ env process_env o !! "PORT" = Some v)
  /\ (exists o, parse (pre ++ ["--hostname"; v]) initial = Parsed o
                /\ env process_env o !! "HOSTNAME" = Some v)
  /\ (exists o, parse (pre ++ ["--api-base"; v]) initial = Parsed o
                /\ env process_env o !! "NEXT_PUBLIC_API_BASE" = Some v).
Proof.
  intros Hwf Hv. destruct (parse_app pre Hwf initial) as (o' & _ & Hm).
  repeat split; eexists; (split; [rewrite Hm; reflexivity |]);
    unfold env; rewrite !spread_if_lookup; cbn [port hostname apiBase].
  all: rewrite ?truthy_nonempty by assumption.
  all: reflexivity.
Qed.

Lemma last_option_wins_witness :
  exists o, parse (["-p"; "3000"; "--verbose"; "--api-base"; "-h"] ++ ["--port"; "8080"])
              initial = Parsed o
            /\ env {["PORT" := "4000"]} o !! "PORT" = Some "8080".
Proof.
  apply (last_option_wins {["PORT" := "4000"]}
           ["-p"; "3000"; "--verbose"; "--api-base"; "-h"] "8080");
    [reflexivity | discriminate].
Defined.

Lemma flag_value_cons (a : string) (l flags : list string) (v : string) :
  flag_value l flags v -> flag_value (a :: l) flags v.
Proof. intros (i & f & H1 & H2 & H3). now exists (S i), f. Qed.

Lemma is_flag_In (a f1 f2 : string) :
  (a =? f1) || (a =? f2) = true -> In a [f1; f2].
Proof.
  intros [H | H]%orb_true_iff; apply String.eqb_eq in H; subst; simpl; auto.
Qed.

Lemma parse_sound (args : list string) :
  forall o0 o, parse args o0 = Parsed o ->
    (forall v, port o = Some v ->
       port o0 = Some v \/ flag_value args ["-p"; "--port"] v)
    /\ (forall v, hostname o = Some v ->
          hostname o0 = Some v \/ flag_value args ["-H"; "--hostname"] v)
    /\ (forall v, apiBase o = Some v ->
          apiBase o0 = Some v \/ flag_value args ["--api-base"] v).
Proof.
  induction args as [| a | a b args IH1 IH2] using args_ind; intros o0 o.
  - intros [= ->]. auto.
  - rewrite parse_cons. destruct (is_help a); [discriminate |].
    destruct ((a =? "-p") || (a =? "--port")); [intros [= <-]; simpl; repeat split; auto; discriminate |].
    destruct ((a =? "-H") || (a =? "--hostname")); [intros [= <-]; simpl; repeat split; auto; discriminate |].
    destruct (a =? "--api-base"); [intros [= <-]; simpl; repeat split; auto; discriminate |].
    intros [= <-]. auto.
  - rewrite parse_cons. destruct (is_help a); [discriminate |].
    destruct ((a =? "-p") || (a =? "--port")) eqn:E1.
    { intros H. apply IH1 in H as (Hp & Hh & Ha). simpl in *. repeat split; intros v Hv.
      - destruct (Hp v Hv) as [[= <-] | Hf].
        + right. exists 0, a. split; [reflexivity |]. split; [now apply is_flag_In | reflexivity].
        + right. now do 2 apply flag_value_cons.
      - destruct (Hh v Hv) as [? | Hf]; [now left | right; now do 2 apply flag_value_cons].
      - destruct (Ha v Hv) as [? | Hf]; [now left | right; now do 2 apply flag_value_cons]. }
    destruct ((a =? "-H") || (a =? "--hostname")) eqn:E2.
    { intros H. apply IH1 in H as (Hp & Hh & Ha). simpl in *. repeat split; intros v Hv.
      - destruct (Hp v Hv) as [? | Hf]; [now left | right; now do 2 apply flag_value_cons].
      - destruct (Hh v Hv) as [[= <-] | Hf].
        + right. exists 0, a. split; [reflexivity |]. split; [now apply is_flag_In | reflexivity].
        + right. now do 2 apply flag_value_cons.
      - destruct (Ha v Hv) as [? | Hf]; [now left | right; now do 2 apply flag_value_cons]. }
    destruct (a =? "--api-base") eqn:E3.
    { intros H. apply IH1 in H as (Hp & Hh & Ha). simpl in *. repeat split; intros v Hv.
      - destruct (Hp v Hv) as [? | Hf]; [now left | right; now do 2 apply flag_value_cons].
      - destruct (Hh v Hv) as [? | Hf]; [now left | right; now do 2 apply flag_value_cons].
      - destruct (Ha v Hv) as [[= <-] | Hf].
        + right. exists 0, a. split; [reflexivity |].
          apply String.eqb_eq in E3 as ->. split; [now left | reflexivity].
        + right. now do 2 apply flag_value_cons. }
    intros H. apply IH2 in H as (Hp & Hh & Ha). repeat split; intros v Hv.
    + destruct (Hp v Hv) as [? | Hf]; [now left | right; now apply flag_value_cons].
    + destruct (Hh v Hv) as [? | Hf]; [now left | right; now apply flag_value_cons].
    + destruct (Ha v Hv) as [? | Hf]; [now left | right; now apply flag_value_cons].
Qed.

(** X9: the launcher invents no option value.  When the argument loop ends
    with a port, a hostname or an API base, that value stands on the command
    line directly after one of the flags of that option. *)
Theorem option_values_from_command_line (rawArgs : list string) (o : Options) :
  parse rawArgs initial = Parsed o ->
  (forall v, port o = Some v -> flag_value rawArgs ["-p"; "--port"] v)
  /\ (forall v, hostname o = Some v -> flag_value rawArgs ["-H"; "--hostname"] v)
  /\ (forall v, apiBase o = Some v -> flag_value rawArgs ["--api-base"] v).
Proof.
  intros H. apply parse_sound in H as (Hp & Hh & Ha).
  repeat split; intros v Hv.
  - destruct (Hp v Hv) as [? | ?]; [discriminate | assumption].
  - destruct (Hh v Hv) as [? | ?]; [discriminate | assumption].
  - destruct (Ha v Hv) as [? | ?]; [discriminate | assumption].
Qed.

Lemma option_values_from_command_line_witness :
  parse ["--port"; "--help"; "-H"] initial
  = Parsed {| port := Some "--help"; hostname := None; apiBase := None |}
  /\ flag_value ["--port"; "--help"; "-H"] ["-p"; "--port"] "--help".
Proof.
  split; [reflexivity |].
  apply (proj1 (option_values_from_command_line ["--port"; "--help"; "-H"]
                  {| port := Some "--help"; hostname := None; apiBase := None |}
                  eq_refl)).
  reflexivity.
Defined.

Lemma env_lookup_other (process_env : gmap string string) (o : Options) (k : string) :
  k <> "PORT" -> k <> "HOSTNAME" -> k <> "NEXT_PUBLIC_API_BASE" ->
  env process_env o !! k = process_env !! k.
Proof.
  intros H1 H2 H3. unfold env. rewrite !spread_if_lookup.
  rewrite !(proj2 (String.eqb_neq _ _)) by congruence. reflexivity.
Qed.

(** X10: the launcher never changes the API base.  Whatever options the
    command line set, [--api-base] included, code on the server behind the
    wrapper resolves the base it would resolve from the launcher's own
    environment: the launcher only ever sets [PORT], [HOSTNAME] and
    [NEXT_PUBLIC_API_BASE], and every other variable is inherited. *)
Theorem launcher_keeps_base (process_env : gmap string string) (o : Options) :
  resolveApiBaseUrl (server (run_wrapper (env process_env o)))
  = resolveApiBaseUrl (server process_env)
  /\ (forall k, k <> "PORT" -> k <> "HOSTNAME" -> k <> "NEXT_PUBLIC_API_BASE" ->
        env process_env o !! k = process_env !! k).
Proof.
  assert (env_or_default (run_wrapper (env process_env o))
          = env_or_default process_env) as H.
  { unfold run_wrapper. rewrite env_or_default_insert.
    unfold env_or_default. now rewrite env_lookup_other by discriminate. }
  split; [now rewrite !resolve_server |].
  intros k. apply env_lookup_other.
Qed.

End LauncherFacts.

(** ** The launcher of the development server *)

Module DevLauncherFacts.
Import Js Api Layout DeployFacts DevLauncher.
Local Open Scope list_scope.

Lemma dev_parse_cons (arg : string) (rest : list string) (o : Options) :
  parse (arg :: rest) o
  = if arg =? "--" then Parsed (push_all rest o)
    else if (arg =? "-h") || (arg =? "--help") then Help
    else if arg =? "--dev" then parse rest (set_mode dev o)
    else if arg =? "--start" then parse rest (set_mode start o)
    else if arg =? "--build" then parse rest (set_runBuild o)
    else if (arg =? "-p") || (arg =? "--port") then
      match rest with
      | [] => Parsed (set_port None o)
      | v :: rest' => parse rest' (set_port (Some v) o)
      end
    else if (arg =? "-H") || (arg =? "--hostname") then
      match rest with
      | [] => Parsed (set_hostname None o)
      | v :: rest' => parse rest' (set_hostname (Some v) o)
      end
    else if arg =? "--api-base" then
      match rest with
      | [] => Parsed (set_apiBase None o)
      | v :: rest' => parse rest' (set_apiBase (Some v) o)
      end
    else parse rest (push_all [arg] o).
Proof. reflexivity. Qed.

(** What one turn of the loop does with its argument: it stops on ["--"]
    and on a help flag, reads the argument together with the one after it, or
    reads the argument alone, forwarding it if it is not an option. *)
Lemma parse_cases (a : string) :
  (a = "--" /\ forall rest o, parse (a :: rest) o = Parsed (push_all rest o))
  \/ (stops a = true /\ forall rest o, parse (a :: rest) o = Help)
  \/ (stops a = false /\ takes_value a = true
      /\ exists upd : option string -> Options -> Options,
           (forall v o, nextArgs (upd v o) = nextArgs o)
           /\ forall rest o,
                parse (a :: rest) o
                = match rest with
                  | [] => Parsed (upd None o)
                  | v :: rest' => parse rest' (upd (Some v) o)
                  end)
  \/ (stops a = false /\ takes_value a = false
      /\ exists (f : Options -> Options) (fw : list string),
           (fw = [] \/ fw = [a])
           /\ (forall o, nextArgs (f o) = nextArgs o ++ fw)
           /\ forall rest o, parse (a :: rest) o = parse rest (f o)).
Proof.
  destruct (String.eqb_spec a "--") as [-> | H1]; [left; split; reflexivity |].
  destruct (String.eqb_spec a "-h") as [-> | H2];
    [right; left; split; reflexivity |].
  destruct (String.eqb_spec a "--help") as [-> | H3];
    [right; left; split; reflexivity |].
  destruct (String.eqb_spec a "--dev") as [-> | H4].
  { do 3 right. do 2 (split; [reflexivity |]). exists (set_mode dev), [].
    split; [now left |]. split; [intros; simpl; now rewrite app_nil_r | reflexivity]. }
  destruct (String.eqb_spec a "--start") as [-> | H5].
  { do 3 right. do 2 (split; [reflexivity |]). exists (set_mode start), [].
    split; [now left |]. split; [intros; simpl; now rewrite app_nil_r | reflexivity]. }
  destruct (String.eqb_spec a "--build") as [-> | H6].
  { do 3 right. do 2 (split; [reflexivity |]). exists set_runBuild, [].
    split; [now left |]. split; [intros; simpl; now rewrite app_nil_r | reflexivity]. }
  destruct (String.eqb_spec a "-p") as [-> | H7].
  { do 2 right; left. do 2 (split; [reflexivity |]). exists set_port.
    split; reflexivity. }
  destruct (String.eqb_spec a "--port") as [-> | H8].
  { do 2 right; left. do 2 (split; [reflexivity |]). exists set_port.
    split; reflexivity. }
  destruct (String.eqb_spec a "-H") as [-> | H9].
  { do 2 right; left. do 2 (split; [reflexivity |]). exists set_hostname.
    split; reflexivity. }
  destruct (String.eqb_spec a "--hostname") as [-> | H10].
  { do 2 right; left. do 2 (split; [reflexivity |]). exists set_hostname.
    split; reflexivity. }
  destruct (String.eqb_spec a "--api-base") as [-> | H11].
  { do 2 right; left. do 2 (split; [reflexivity |]). exists set_apiBase.
    split; reflexivity. }
  do 3 right.
  apply String.eqb_neq in H1, H2, H3, H4, H5, H6, H7, H8, H9, H10, H11.
  split; [unfold stops; now rewrite H1, H2, H3 |].
  split; [unfold takes_value; now rewrite H7, H8, H9, H10, H11 |].
  exists (push_all [a]), [a]. split; [now right |]. split; [reflexivity |].
  intros rest o. rewrite dev_parse_cons.
  now rewrite H1, H2, H3, H4, H5, H6, H7, H8, H9, H10, H11.
Qed.

Lemma well_formed_cons (a : string) (rest : list string) :
  well_formed (a :: rest)
  = if stops a then false
    else if takes_value a then
      match rest with [] => false | _ :: rest' => well_formed rest' end
    else well_formed rest.
Proof. reflexivity. Qed.

(** Parsing is sequential: after a well-formed prefix the loop stands at the
    start of what follows, with the options of the prefix. *)
Lemma dev_parse_app (pre : list string) :
  well_formed pre = true ->
  forall o, exists o', parse pre o = Parsed o'
                       /\ forall more, parse (pre ++ more) o = parse more o'.
Proof.
  induction pre as [| a | a b pre IH1 IH2] using LauncherFacts.args_ind; intros Hwf o.
  - now exists o.
  - rewrite well_formed_cons in Hwf.
    destruct (parse_cases a) as [[-> _] | [[E _] | [(E1 & E2 & _) | (E1 & E2 & f & fw & _ & _ & Hf)]]].
    + discriminate.
    + now rewrite E in Hwf.
    + now rewrite E1, E2 in Hwf.
    + exists (f o). split; [now rewrite Hf |]. intros more. simpl app. now rewrite Hf.
  - rewrite well_formed_cons in Hwf.
    change ((a :: b :: pre) ++ ?m) with (a :: b :: (pre ++ m)).
    destruct (parse_cases a) as [[-> _] | [[E _] | [(E1 & E2 & upd & _ & Hu) | (E1 & E2 & f & fw & _ & _ & Hf)]]].
    + discriminate.
    + now rewrite E in Hwf.
    + rewrite E1, E2 in Hwf. destruct (IH1 Hwf (upd (Some b) o)) as (o' & Ho' & Hm).
      exists o'. split; [now rewrite Hu |]. intros more. now rewrite Hu.
    + rewrite E1, E2 in Hwf. destruct (IH2 Hwf (f o)) as (o' & Ho' & Hm).
      exists o'. split; [now rewrite Hf |]. intros more. rewrite Hf. apply (Hm more).
Qed.

(** What has been forwarded is only ever extended, by arguments of the
    command line in their order. *)
Lemma parse_forwards (args : list string) :
  forall o0 o, parse args o0 = Parsed o ->
    exists fw, nextArgs o = nextArgs o0 ++ fw /\ fw `sublist_of` args.
Proof.
  induction args as [| a | a b args IH1 IH2] using LauncherFacts.args_ind; intros o0 o.
  - intros [= <-]. exists []. now rewrite app_nil_r.
  - destruct (parse_cases a) as [[-> H] | [[_ H] | [(_ & _ & upd & Hn & Hu) | (_ & _ & f & fw & Hfw & Hn & Hf)]]].
    + rewrite H. intros [= <-]. exists []. simpl. split; [reflexivity | apply sublist_nil_l].
    + now rewrite H.
    + rewrite Hu. intros [= <-]. exists []. rewrite Hn, app_nil_r.
      split; [reflexivity | apply sublist_nil_l].
    + rewrite Hf. intros [= <-]. exists fw. split; [apply Hn |].
      destruct Hfw as [-> | ->]; [apply sublist_nil_l | reflexivity].
  - destruct (parse_cases a) as [[-> H] | [[_ H] | [(_ & _ & upd & Hn & Hu) | (_ & _ & f & fw & Hfw & Hn & Hf)]]].
    + rewrite H. intros [= <-]. exists (b :: args). split; [reflexivity |].
      now apply sublist_cons.
    + now rewrite H.
    + rewrite Hu. intros (fw & Hfw & Hs)%IH1. exists fw. rewrite Hn in Hfw.
      split; [exact Hfw |]. now do 2 apply sublist_cons.
    + rewrite Hf. intros (fw' & Hfw' & Hs)%IH2. rewrite Hn in Hfw'.
      exists (fw ++ fw'). split; [now rewrite app_assoc |].
      destruct Hfw as [-> | ->]; [now apply sublist_cons | now apply sublist_skip].
Qed.

Lemma push_if_prefix (flag : string) (v : option string) (args : list string) :
  exists more, push_if flag v args = args ++ more.
Proof.
  unfold push_if. destruct (truthy v); [eauto |]. exists []. now rewrite app_nil_r.
Qed.

(** X11: everything after ["--"] goes to Next.js untouched.  When the
    command line is well formed up to a ["--"], whatever follows it, options
    of the launcher and help flags included, is forwarded as it stands, after
    what was forwarded before, and ends the command that is spawned. *)
Theorem forwards_after_dashes (nextBin : string) (pre rest : list string) :
  well_formed pre = true ->
  exists o', parse pre initial = Parsed o'
    /\ parse (pre ++ "--" :: rest) initial = Parsed (push_all rest o')
    /\ exists front,
         cmdArgs nextBin (push_all rest o') = front ++ nextArgs o' ++ rest.
Proof.
  intros Hwf. destruct (dev_parse_app pre Hwf initial) as (o' & Ho' & Hm).
  exists o'. split; [exact Ho' |]. split; [now rewrite Hm |].
  unfold cmdArgs. eexists. reflexivity.
Qed.

Lemma forwards_after_dashes_witness :
  exists o',
    parse ["--start"; "-p"; "8080"; "--turbo"] initial = Parsed o'
    /\ parse (["--start"; "-p"; "8080"; "--turbo"] ++ "--" :: ["--help"; "-p"; "1"])
         initial
       = Parsed (push_all ["--help"; "-p"; "1"] o')
    /\ exists front,
         cmdArgs "next" (push_all ["--help"; "-p"; "1"] o')
         = front ++ nextArgs o' ++ ["--help"; "-p"; "1"].
Proof.
  apply (forwards_after_dashes "next" ["--start"; "-p"; "8080"; "--turbo"]
           ["--help"; "-p"; "1"]).
  reflexivity.
Defined.

Lemma flag_value_here (a v : string) (l flags : list string) :
  In a flags -> Launcher.flag_value (a :: v :: l) flags v.
Proof. intros H. now exists 0, a. Qed.

(** What the loop reads into the options comes from the command line: a
    port or a hostname stands right after one of its flags, and the mode
    [start] and a build are asked for by their flags. *)
Lemma dev_parse_sound (args : list string) :
  forall o0 o, parse args o0 = Parsed o ->
    (forall v, port o = Some v ->
       port o0 = Some v \/ Launcher.flag_value args ["-p"; "--port"] v)
    /\ (forall v, hostname o = Some v ->
          hostname o0 = Some v \/ Launcher.flag_value args ["-H"; "--hostname"] v)
    /\ (mode o = start -> mode o0 = start \/ In "--start" args)
    /\ (runBuild o = true -> runBuild o0 = true \/ In "--build" args).
Proof.
  assert (forall o0 o : Options, Parsed o0 = Parsed o -> o0 = o) as Hinj
    by (now intros o0 o [= ->]).
  assert (forall (a : string) (l : list string) (o0 o1 o : Options),
            ((forall v, port o = Some v ->
                port o1 = Some v \/ Launcher.flag_value l ["-p"; "--port"] v)
             /\ (forall v, hostname o = Some v ->
                   hostname o1 = Some v
                   \/ Launcher.flag_value l ["-H"; "--hostname"] v)
             /\ (mode o = start -> mode o1 = start \/ In "--start" l)
             /\ (runBuild o = true -> runBuild o1 = true \/ In "--build" l)) ->
            port o1 = port o0 -> hostname o1 = hostname o0 ->
            (mode o1 = start -> mode o0 = start \/ a = "--start") ->
            (runBuild o1 = true -> runBuild o0 = true \/ a = "--build") ->
            (forall v, port o = Some v ->
               port o0 = Some v \/ Launcher.flag_value (a :: l) ["-p"; "--port"] v)
            /\ (forall v, hostname o = Some v ->
                  hostname o0 = Some v
                  \/ Launcher.flag_value (a :: l) ["-H"; "--hostname"] v)
            /\ (mode o = start -> mode o0 = start \/ In "--start" (a :: l))
            /\ (runBuild o = true -> runBuild o0 = true \/ In "--build" (a :: l)))
    as Hone.
  { intros a l o0 o1 o (Hp & Hh & Hm & Hb) Ep Eh Em Eb. rewrite <- Ep, <- Eh.
    repeat split.
    - intros v Hv. destruct (Hp v Hv); auto using LauncherFacts.flag_value_cons.
    - intros v Hv. destruct (Hh v Hv); auto using LauncherFacts.flag_value_cons.
    - intros H. destruct (Hm H) as [H1 | H1]; [| right; now right].
      destruct (Em H1) as [H2 | ->]; [now left | right; now left].
    - intros H. destruct (Hb H) as [H1 | H1]; [| right; now right].
      destruct (Eb H1) as [H2 | ->]; [now left | right; now left]. }
  assert (forall (a b : string) (l flags : list string) (o0 o1 o : Options),
            In a flags ->
            ((forall v, port o = Some v ->
                port o1 = Some v \/ Launcher.flag_value l ["-p"; "--port"] v)
             /\ (forall v, hostname o = Some v ->
                   hostname o1 = Some v
                   \/ Launcher.flag_value l ["-H"; "--hostname"] v)
             /\ (mode o = start -> mode o1 = start \/ In "--start" l)
             /\ (runBuild o = true -> runBuild o1 = true \/ In "--build" l)) ->
            (port o1 = port o0 \/ (port o1 = Some b /\ flags = ["-p"; "--port"])) ->
            (hostname o1 = hostname o0
             \/ (hostname o1 = Some b /\ flags = ["-H"; "--hostname"])) ->
            mode o1 = mode o0 -> runBuild o1 = runBuild o0 ->
            (forall v, port o = Some v ->
               port o0 = Some v
               \/ Launcher.flag_value (a :: b :: l) ["-p"; "--port"] v)
            /\ (forall v, hostname o = Some v ->
                  hostname o0 = Some v
                  \/ Launcher.flag_value (a :: b :: l) ["-H"; "--hostname"] v)
            /\ (mode o = start -> mode o0 = start \/ In "--start" (a :: b :: l))
            /\ (runBuild o = true -> runBuild o0 = true \/ In "--build" (a :: b :: l)))
    as Htwo.
  { intros a b l flags o0 o1 o Ha (Hp & Hh & Hm & Hb) Ep Eh Em Eb.
    rewrite <- Em, <- Eb. repeat split.
    - intros v Hv. destruct (Hp v Hv) as [H | H];
        [| right; now do 2 apply LauncherFacts.flag_value_cons].
      destruct Ep as [<- | [Ep ->]]; [now left |].
      rewrite Ep in H. injection H as ->. right. now apply flag_value_here.
    - intros v Hv. destruct (Hh v Hv) as [H | H];
        [| right; now do 2 apply LauncherFacts.flag_value_cons].
      destruct Eh as [<- | [Eh ->]]; [now left |].
      rewrite Eh in H. injection H as ->. right. now apply flag_value_here.
    - intros H. destruct (Hm H); [now left | right; now do 2 right].
    - intros H. destruct (Hb H); [now left | right; now do 2 right]. }
  assert (forall o0 o : Options,
            port o = port o0 \/ port o = None -> hostname o = hostname o0 \/ hostname o = None ->
            mode o = mode o0 -> runBuild o = runBuild o0 ->
            forall l : list string,
            (forall v, port o = Some v ->
               port o0 = Some v \/ Launcher.flag_value l ["-p"; "--port"] v)
            /\ (forall v, hostname o = Some v ->
                  hostname o0 = Some v
                  \/ Launcher.flag_value l ["-H"; "--hostname"] v)
            /\ (mode o = start -> mode o0 = start \/ In "--start" l)
            /\ (runBuild o = true -> runBuild o0 = true \/ In "--build" l))
    as Hstop.
  { intros o0 o Ep Eh -> -> l. repeat split; auto.
    - intros v Hv. destruct Ep as [<- | Ep]; [now left | congruence].
    - intros v Hv. destruct Eh as [<- | Eh]; [now left | congruence]. }
  assert (forall o0 o : Options,
            parse [] o0 = Parsed o ->
            (forall v, port o = Some v ->
               port o0 = Some v \/ Launcher.flag_value [] ["-p"; "--port"] v)
            /\ (forall v, hostname o = Some v ->
                  hostname o0 = Some v
                  \/ Launcher.flag_value [] ["-H"; "--hostname"] v)
            /\ (mode o = start -> mode o0 = start \/ In "--start" [])
            /\ (runBuild o = true -> runBuild o0 = true \/ In "--build" []))
    as Hnil by (intros o0 o [= <-]; apply Hstop; auto).
  induction args as [| a | a b args IH1 IH2] using LauncherFacts.args_ind;
    intros o0 o.
  - apply Hnil.
  - rewrite dev_parse_cons.
    destruct (a =? "--"); [intros <-%Hinj; apply Hstop; auto |].
    destruct ((a =? "-h") || (a =? "--help")); [discriminate |].
    destruct (String.eqb_spec a "--dev").
    { intros H%Hnil. apply (Hone _ _ _ _ _ H); simpl; auto; discriminate. }
    destruct (String.eqb_spec a "--start").
    { intros H%Hnil. apply (Hone _ _ _ _ _ H); simpl; auto. }
    destruct (String.eqb_spec a "--build").
    { intros H%Hnil. apply (Hone _ _ _ _ _ H); simpl; auto. }
    destruct ((a =? "-p") || (a =? "--port"));
      [intros <-%Hinj; apply Hstop; simpl; auto |].
    destruct ((a =? "-H") || (a =? "--hostname"));
      [intros <-%Hinj; apply Hstop; simpl; auto |].
    destruct (a =? "--api-base");
      [intros <-%Hinj; apply Hstop; simpl; auto |].
    intros H%Hnil. apply (Hone _ _ _ _ _ H); simpl; auto.
  - rewrite dev_parse_cons.
    destruct (a =? "--"); [intros <-%Hinj; apply Hstop; auto |].
    destruct ((a =? "-h") || (a =? "--help")); [discriminate |].
    destruct (String.eqb_spec a "--dev").
    { intros H%IH2. apply (Hone _ _ _ _ _ H); simpl; auto; discriminate. }
    destruct (String.eqb_spec a "--start").
    { intros H%IH2. apply (Hone _ _ _ _ _ H); simpl; auto. }
    destruct (String.eqb_spec a "--build").
    { intros H%IH2. apply (Hone _ _ _ _ _ H); simpl; auto. }
    destruct ((a =? "-p") || (a =? "--port")) eqn:Ep.
    { intros H%IH1. apply LauncherFacts.is_flag_In in Ep.
      apply (Htwo _ _ _ _ _ _ _ Ep H); simpl; auto. }
    destruct ((a =? "-H") || (a =? "--hostname")) eqn:Eh.
    { intros H%IH1. apply LauncherFacts.is_flag_In in Eh.
      apply (Htwo _ _ _ _ _ _ _ Eh H); simpl; auto. }
    destruct (a =? "--api-base").
    { intros H%IH1. apply (Htwo a b args [a] _ _ _ (or_introl eq_refl) H); simpl; auto. }
    intros H%IH2. apply (Hone _ _ _ _ _ H); simpl; auto.
Qed.

(** X12: the development launcher forwards only what it was given.  The
    arguments handed to Next.js are arguments of the command line, in their
    order; a port or a hostname the loop ends with stands on the command line
    right after one of its flags; the mode is [start] only when [--start] is
    on the command line, and a build is asked for only when [--build] is.
    The spawned command is exactly the Next.js binary, then [start] or [dev],
    then [-p] and the port when a non-empty port was read, then [-H] and the
    hostname when a non-empty hostname was read, then the forwarded
    arguments; a build precedes exactly when the mode is [start] and a build
    was asked for, and then its command is the same with [build] for the
    word. *)
Theorem forwarded_args_from_command_line (nextBin : string)
    (rawArgs : list string) (o : Options) :
  parse rawArgs initial = Parsed o ->
  nextArgs o `sublist_of` rawArgs
  /\ (forall v, port o = Some v -> Launcher.flag_value rawArgs ["-p"; "--port"] v)
  /\ (forall v, hostname o = Some v ->
        Launcher.flag_value rawArgs ["-H"; "--hostname"] v)
  /\ (mode o = start -> In "--start" rawArgs)
  /\ (runBuild o = true -> In "--build" rawArgs)
  /\ cmdArgs nextBin o
     = [nextBin; match mode o with start => "start" | dev => "dev" end]
       ++ match truthy (port o) with Some s => ["-p"; s] | None => [] end
       ++ match truthy (hostname o) with Some s => ["-H"; s] | None => [] end
       ++ nextArgs o
  /\ buildArgs nextBin o
     = match mode o, runBuild o with
       | start, true =>
           Some ([nextBin; "build"]
                 ++ match truthy (port o) with Some s => ["-p"; s] | None => [] end
                 ++ match truthy (hostname o) with Some s => ["-H"; s] | None => [] end
                 ++ nextArgs o)
       | _, _ => None
       end.
Proof.
  intros H.
  destruct (dev_parse_sound rawArgs initial o H) as (Hp & Hh & Hm & Hb).
  apply parse_forwards in H as (fw & Hfw & Hs). simpl in Hfw. subst fw.
  split; [exact Hs |].
  split; [intros v Hv; now destruct (Hp v Hv) |].
  split; [intros v Hv; now destruct (Hh v Hv) |].
  split; [intros Hv; now destruct (Hm Hv) |].
  split; [intros Hv; now destruct (Hb Hv) |].
  unfold cmdArgs, buildArgs, push_if.
  destruct (truthy (port o)) as [p|], (truthy (hostname o)) as [h|],
    (mode o), (runBuild o); split; reflexivity.
Qed.

Lemma forwarded_args_from_command_line_witness :
  parse ["--build"; "--start"; "-H"; "0.0.0.0"; "--turbo"] initial
  = Parsed {| nextArgs := ["--turbo"]; mode := start; runBuild := true;
              port := None; hostname := Some "0.0.0.0"; apiBase := None |}
  /\ ["--turbo"] `sublist_of` ["--build"; "--start"; "-H"; "0.0.0.0"; "--turbo"]
  /\ Launcher.flag_value ["--build"; "--start"; "-H"; "0.0.0.0"; "--turbo"]
       ["-H"; "--hostname"] "0.0.0.0".
Proof.
  split; [reflexivity |].
  pose proof (forwarded_args_from_command_line "next"
                ["--build"; "--start"; "-H"; "0.0.0.0"; "--turbo"]
                {| nextArgs := ["--turbo"]; mode := start; runBuild := true;
                   port := None; hostname := Some "0.0.0.0"; apiBase := None |}
                eq_refl) as (Hs & _ & Hh & _).
  split; [exact Hs | exact (Hh "0.0.0.0" eq_refl)].
Defined.

(** X26: the development launcher never changes the API base either.  It
    hands its own environment to Next.js with at most [NEXT_PUBLIC_API_BASE]
    added, so code on the development server resolves the base it would
    resolve from the launcher's environment, whatever [--api-base] was
    given. *)
Theorem dev_launcher_keeps_base (process_env : gmap string string) (o : Options) :
  resolveApiBaseUrl (server (env process_env o))
  = resolveApiBaseUrl (server process_env)
  /\ (forall k, k <> "NEXT_PUBLIC_API_BASE" -> env process_env o !! k = process_env !! k).
Proof.
  assert (forall k, k <> "NEXT_PUBLIC_API_BASE" ->
                    env process_env o !! k = process_env !! k) as Hk.
  { intros k Hne. unfold env. destruct (truthy (apiBase o)); [| reflexivity].
    now apply lookup_insert_ne. }
  assert (env_or_default (env process_env o) = env_or_default process_env) as H.
  { unfold env_or_default. now rewrite Hk by discriminate. }
  split; [now rewrite !resolve_server | exact Hk].
Qed.

End DevLauncherFacts.

(** ** The packaging script *)

Module BuildPackageFacts.
Import Js JsMore JsMoreFacts BuildPackage.
Local Open Scope list_scope.

Lemma findStandaloneApp_Dir (dir : path) (entries : list (string * node)) :
  findStandaloneApp dir (Dir entries)
  = if is_app_root entries then Some dir
    else findInEntries (fun p c => findStandaloneApp p c) dir entries.
Proof. reflexivity. Qed.

Lemma findInEntries_cons (find : path -> node -> option path) (dir : path)
    (name : string) (child : node) (rest : list (string * node)) :
  findInEntries find dir ((name, child) :: rest)
  = if isDirectory child then
      match find (dir ++ [name]) child with
      | Some result => Some result
      | None => findInEntries find dir rest
      end
    else findInEntries find dir rest.
Proof. reflexivity. Qed.

Lemma search_leads_to (d : node) (p : path) (es : list (string * node)) :
  search d p es -> leads_to d p es /\ is_app_root es = true.
Proof.
  induction 1 as [es H | es name child p es' Hroot Hin _ [IH1 IH2]].
  - split; [constructor | exact H].
  - split; [econstructor; eassumption | exact IH2].
Qed.

Lemma findStandaloneApp_sound (d : node) :
  forall dir r, findStandaloneApp dir d = Some r ->
    exists p es, r = dir ++ p /\ search d p es.
Proof.
  induction d as [content | entries IH] using node_ind'; intros dir r.
  - discriminate.
  - rewrite findStandaloneApp_Dir. destruct (is_app_root entries) eqn:Eroot.
    + intros [= <-]. exists [], entries. rewrite app_nil_r. split; [reflexivity |].
      now constructor.
    + intros H.
      assert (exists name child p es, In (name, child) entries
                /\ r = (dir ++ [name]) ++ p /\ search child p es)
        as (name & child & p & es & Hin & -> & Hs).
      { clear Eroot. induction entries as [| [name child] rest IHrest];
          [discriminate |].
        rewrite findInEntries_cons in H. apply Forall_cons in IH as [IHc IHr].
        destruct (isDirectory child).
        - destruct (findStandaloneApp (dir ++ [name]) child) as [r'|] eqn:E.
          + injection H as ->. apply IHc in E as (p & es & -> & Hs).
            exists name, child, p, es. split; [now left | auto].
          + destruct (IHrest IHr H) as (n' & c' & p & es & Hin & Hr & Hs).
            exists n', c', p, es. split; [now right | auto].
        - destruct (IHrest IHr H) as (n' & c' & p & es & Hin & Hr & Hs).
          exists n', c', p, es. split; [now right | auto]. }
      exists (name :: p), es. split; [now rewrite <- app_assoc |].
      now apply search_down with child.
Qed.



(** X13: what [findStandaloneApp] returns is an application root, and the
    outermost one on its path.  The directory it returns lies below the
    directory it was called on; it holds a regular file [server.js], a
    regular file [package.json] and a directory [.next]; and no directory
    passed on the way down to it holds all three. *)
Theorem findStandaloneApp_finds_root (dir r : path) (d : node) :
  findStandaloneApp dir d = Some r ->
  exists p es,
    r = dir ++ p /\ search d p es /\ leads_to d p es
    /\ has_file "server.js" es = true /\ has_file "package.json" es = true
    /\ has_dir ".next" es = true.
Proof.
  intros (p & es & -> & Hs)%findStandaloneApp_sound.
  exists p, es. destruct (search_leads_to _ _ _ Hs) as [Hl Hroot].
  unfold is_app_root in Hroot. apply andb_true_iff in Hroot as [[H1 H2]%andb_true_iff H3].
  auto 10.
Qed.

Lemma findStandaloneApp_finds_root_witness :
  findStandaloneApp ["standalone"] sample_standalone
  = Some ["standalone"; "Users"; "dev"; "web"]
  /\ exists p es,
       ["standalone"; "Users"; "dev"; "web"] = ["standalone"] ++ p
       /\ search sample_standalone p es /\ leads_to sample_standalone p es
       /\ has_file "server.js" es = true /\ has_file "package.json" es = true
       /\ has_dir ".next" es = true.
Proof.
  split; [reflexivity |].
  apply (findStandaloneApp_finds_root ["standalone"]
           ["standalone"; "Users"; "dev"; "web"] sample_standalone).
  reflexivity.
Defined.


Lemma copyDir_Dir (entries : list (string * node)) (dest : option node) :
  copyDir (Dir entries) dest
  = match mkdirp dest with
    | None => None
    | Some des =>
        match copyEntries (fun c d => copyDir c d) entries des with
        | Some des' => Some (Dir des')
        | None => None
        end
    end.
Proof. reflexivity. Qed.

Lemma copyEntries_cons (copy : node -> option node -> option node)
    (name : string) (child : node) (rest dest : list (string * node)) :
  copyEntries copy ((name, child) :: rest) dest
  = match child with
    | Dir _ =>
        match copy child (get name dest) with
        | Some d => copyEntries copy rest (set name d dest)
        | None => None
        end
    | File content =>
        match copyFileSync name content dest with
        | Some dest' => copyEntries copy rest dest'
        | None => None
        end
    end.
Proof. reflexivity. Qed.

(** What the loop of [copyDir] leaves under each name: an entry of the
    source is copied over what the destination had under its name, and every
    other entry of the destination stays. *)
Lemma copyEntries_get (copy : node -> option node -> option node)
    (entries : list (string * node)) :
  List.NoDup (keys entries) ->
  forall dest r, copyEntries copy entries dest = Some r ->
  forall name,
    match get name entries with
    | None => get name r = get name dest
    | Some (File content) =>
        get name r = Some (File content)
        /\ match get name dest with Some (Dir _) => False | _ => True end
    | Some (Dir ces) =>
        exists d, copy (Dir ces) (get name dest) = Some d /\ get name r = Some d
    end.
Proof.
  induction entries as [| [n child] rest IH]; intros Hnd dest r H name.
  - injection H as <-. reflexivity.
  - change (keys ((n, child) :: rest)) with (n :: keys rest) in Hnd.
    apply List.NoDup_cons_iff in Hnd as [Hn Hnd].
    apply get_None in Hn. rewrite copyEntries_cons in H. rewrite get_cons.
    destruct child as [content | ces].
    + unfold copyFileSync in H.
      assert (match get n dest with Some (Dir _) => False | _ => True end
              /\ copyEntries copy rest (set n (File content) dest) = Some r)
        as [Hdest H'].
      { destruct (get n dest) as [[?|?]|]; auto; discriminate. }
      specialize (IH Hnd _ _ H' name). rewrite get_set in IH.
      destruct (String.eqb_spec n name) as [E | Hne].
      * subst name. rewrite Hn in IH. auto.
      * exact IH.
    + destruct (copy (Dir ces) (get n dest)) as [d|] eqn:Ec; [| discriminate].
      specialize (IH Hnd _ _ H name). rewrite get_set in IH.
      destruct (String.eqb_spec n name) as [E | Hne].
      * subst name. rewrite Hn in IH. eauto.
      * exact IH.
Qed.

Lemma copyEntries_fresh (copy : node -> option node -> option node)
    (entries : list (string * node)) :
  List.NoDup (keys entries) ->
  Forall (fun e => isDirectory (snd e) = true -> copy (snd e) None = Some (snd e))
    entries ->
  forall dest, (forall k, In k (keys entries) -> get k dest = None) ->
  copyEntries copy entries dest = Some (dest ++ entries).
Proof.
  induction entries as [| [n child] rest IH]; intros Hnd Hc dest Hfresh.
  - now rewrite app_nil_r.
  - change (keys ((n, child) :: rest)) with (n :: keys rest) in *.
    apply List.NoDup_cons_iff in Hnd as [Hn Hnd].
    apply Forall_cons in Hc as [Hchild Hc]. simpl in Hchild.
    assert (get n dest = None) as Hdest by (apply Hfresh; now left).
    assert (forall v, copyEntries copy rest (set n v dest)
                      = Some (dest ++ (n, v) :: rest)) as Hrest.
    { intros v. rewrite set_new by assumption. rewrite IH; try assumption.
      - now rewrite <- app_assoc.
      - intros k Hk. rewrite <- set_new, get_set by assumption.
        destruct (String.eqb_spec n k) as [<- | _]; [done |].
        apply Hfresh. now right. }
    rewrite copyEntries_cons. destruct child as [content | ces].
    + unfold copyFileSync. rewrite Hdest. apply Hrest.
    + rewrite Hdest, (Hchild eq_refl). apply Hrest.
Qed.

Lemma copyDir_fresh (src : node) :
  distinct_names src -> isDirectory src = true -> copyDir src None = Some src.
Proof.
  induction src as [content | entries IH] using node_ind'; intros Hd Hdir;
    [discriminate |].
  inversion Hd as [| ? Hnd Hall]; subst.
  rewrite copyDir_Dir. change (mkdirp None) with (Some (@nil (string * node))).
  cbv beta iota.
  rewrite (copyEntries_fresh _ entries Hnd); [reflexivity | | reflexivity].
  rewrite List.Forall_forall in IH, Hall. apply List.Forall_forall. intros e He Hdir'.
  apply IH; auto.
Qed.

(** X15: copying into a fresh place reproduces the tree.  For a directory
    whose names are distinct at every level, [copyDir] into a destination that
    does not exist, or that is an empty directory as [dist] is at step 4,
    never throws and leaves exactly the source tree there: the same names with
    the same contents. *)
Theorem copyDir_reproduces (entries : list (string * node)) :
  distinct_names (Dir entries) ->
  copyDir (Dir entries) None = Some (Dir entries)
  /\ copyDir (Dir entries) (Some (Dir [])) = Some (Dir entries).
Proof.
  intros Hd. split; [now apply copyDir_fresh |].
  exact (copyDir_fresh (Dir entries) Hd eq_refl).
Qed.

Lemma copyDir_reproduces_witness :
  distinct_names sample_standalone
  /\ copyDir sample_standalone None = Some sample_standalone.
Proof.
  assert (distinct_names sample_standalone) as Hd
    by (unfold sample_standalone, sample_app; distinct_names_tac).
  split; [exact Hd |]. exact (proj1 (copyDir_reproduces _ Hd)).
Defined.

Lemma at_path_cons (entries : list (string * node)) (name : string) (p : path) :
  at_path (Dir entries) (name :: p)
  = match get name entries with
    | Some child => at_path child p
    | None => None
    end.
Proof. reflexivity. Qed.

Lemma at_path_File (content : string) (p : path) :
  at_path (File content) p = match p with [] => Some (File content) | _ => None end.
Proof. now destruct p. Qed.

Lemma before_cons (dest : option node) (des : list (string * node))
    (name : string) (p : path) :
  mkdirp dest = Some des ->
  before dest (name :: p) = before (get name des) p.
Proof.
  destruct dest as [[? | es] |]; intros [= <-]; simpl; [| reflexivity].
  now destruct (get name es).
Qed.

(** What stands at each path after a copy that went through. *)
Lemma copyDir_at_path (src : node) :
  distinct_names src ->
  forall dest r, copyDir src dest = Some r ->
  forall p,
    match at_path src p with
    | Some (File content) =>
        at_path r p = Some (File content)
        /\ match before dest p with Some (Dir _) => False | _ => True end
    | Some (Dir _) =>
        dir_at r p = true
        /\ match before dest p with Some (File _) => False | _ => True end
    | None => at_path r p = before dest p
    end.
Proof.
  induction src as [content | entries IH] using node_ind'; intros Hd dest r H p;
    [discriminate |].
  inversion Hd as [| ? Hnd Hall]; subst.
  rewrite copyDir_Dir in H. destruct (mkdirp dest) as [des|] eqn:Emk; [| discriminate].
  destruct (copyEntries _ entries des) as [res|] eqn:Ec; [| discriminate].
  injection H as <-.
  destruct p as [| name p].
  - simpl. split; [reflexivity |]. destruct dest as [[? | ?] |]; try exact I.
    discriminate.
  - pose proof (copyEntries_get _ entries Hnd des res Ec name) as Hg.
    rewrite !at_path_cons, (before_cons dest des) by assumption.
    unfold dir_at. rewrite at_path_cons.
    destruct (get name entries) as [[content | ces] |] eqn:Eg.
    + destruct Hg as [-> Hdes]. rewrite !at_path_File.
      destruct p; [split; [reflexivity |] |].
      * simpl. destruct (get name des) as [[? | ?] |]; auto.
      * destruct (get name des) as [[? | ?] |]; simpl; try reflexivity.
        destruct Hdes.
    + destruct Hg as (d & Hcopy & ->).
      apply get_In in Eg. rewrite List.Forall_forall in IH, Hall.
      exact (IH _ Eg (Hall _ Eg) _ _ Hcopy p).
    + rewrite Hg. unfold before. destruct (get name des); reflexivity.
Qed.

(** X16: [copyDir] merges the source into the destination.  After a copy
    that went through, a path holds a regular file exactly when the source
    has one there, with the content of the source, or the source has nothing
    there and the destination had one, with the content it had; and it holds
    a directory exactly when the source or the destination had one there.
    Nothing of the destination is lost except files that the source
    overwrites. *)
Theorem copyDir_merges (src dest r : node) (p : path) :
  distinct_names src ->
  copyDir src (Some dest) = Some r ->
  file_at r p = match file_at src p with
                | Some content => Some content
                | None => file_at dest p
                end
  /\ dir_at r p = dir_at src p || dir_at dest p.
Proof.
  intros Hd H. pose proof (copyDir_at_path src Hd _ _ H p) as Hp.
  unfold file_at, dir_at in *. simpl before in Hp.
  destruct (at_path src p) as [[content | es] |].
  - destruct Hp as [-> Hdest].
    destruct (at_path dest p) as [[? | ?] |]; try destruct Hdest; auto.
  - destruct Hp as [Hr Hdest].
    destruct (at_path r p) as [[? | ?] |]; try discriminate.
    destruct (at_path dest p) as [[? | ?] |]; try destruct Hdest; auto.
  - rewrite Hp. auto.
Qed.

Lemma copyDir_merges_witness :
  distinct_names sample_static
  /\ copyDir sample_static (Some (Dir sample_app))
     = Some (Dir [("server.js", File "patched");
                  ("package.json", File "{}");
                  (".next", Dir [("BUILD_ID", File "42");
                                 ("static", Dir [("app.css", File "new")])]);
                  (".env", File "SECRET=1")])
  /\ file_at (Dir [("server.js", File "patched");
                   ("package.json", File "{}");
                   (".next", Dir [("BUILD_ID", File "42");
                                  ("static", Dir [("app.css", File "new")])]);
                   (".env", File "SECRET=1")]) [".next"; "BUILD_ID"]
     = Some "42".
Proof.
  assert (distinct_names sample_static) as Hd
    by (unfold sample_static; distinct_names_tac).
  split; [exact Hd |]. split; [reflexivity |].
  exact (proj1 (copyDir_merges sample_static (Dir sample_app) _
                  [".next"; "BUILD_ID"] Hd eq_refl)).
Defined.

Lemma copyEntries_fixed (copy : node -> option node -> option node)
    (entries res : list (string * node)) :
  (forall name child, In (name, child) entries ->
     match child with
     | File content => get name res = Some (File content)
     | Dir _ => exists d, get name res = Some d /\ copy child (Some d) = Some d
     end) ->
  copyEntries copy entries res = Some res.
Proof.
  induction entries as [| [n child] rest IH]; intros H; [reflexivity |].
  rewrite copyEntries_cons. pose proof (H n child (or_introl eq_refl)) as Hn.
  assert (copyEntries copy rest res = Some res) as Hrest.
  { apply IH. intros name c Hin. apply H. now right. }
  destruct child as [content | ces].
  - unfold copyFileSync. rewrite Hn. now rewrite set_same.
  - destruct Hn as (d & Hd & Hc). rewrite Hd, Hc. now rewrite set_same.
Qed.

(** X17: copying twice is copying once.  When [copyDir] went through, a
    second copy of the same source over the result goes through as well and
    changes nothing. *)
Theorem copyDir_idempotent (src : node) (dest : option node) (r : node) :
  distinct_names src ->
  copyDir src dest = Some r ->
  copyDir src (Some r) = Some r.
Proof.
  revert dest r. induction src as [content | entries IH] using node_ind';
    intros dest r Hd H; [discriminate |].
  inversion Hd as [| ? Hnd Hall]; subst.
  rewrite copyDir_Dir in H. destruct (mkdirp dest) as [des|]; [| discriminate].
  destruct (copyEntries _ entries des) as [res|] eqn:Ec; [| discriminate].
  injection H as <-. rewrite copyDir_Dir. simpl mkdirp. cbv beta iota.
  rewrite copyEntries_fixed; [reflexivity |].
  intros name child Hin.
  pose proof (copyEntries_get _ entries Hnd des res Ec name) as Hg.
  rewrite (In_get name child entries Hnd Hin) in Hg.
  rewrite List.Forall_forall in IH, Hall.
  destruct child as [content | ces]; [apply Hg |].
  destruct Hg as (d & Hcopy & Hget). exists d. split; [exact Hget |].
  exact (IH _ Hin _ _ (Hall _ Hin) Hcopy).
Qed.

Lemma copyDir_idempotent_witness :
  distinct_names sample_static
  /\ copyDir sample_static (Some (Dir sample_app))
     = Some (Dir [("server.js", File "patched");
                  ("package.json", File "{}");
                  (".next", Dir [("BUILD_ID", File "42");
                                 ("static", Dir [("app.css", File "new")])]);
                  (".env", File "SECRET=1")])
  /\ copyDir sample_static
       (Some (Dir [("server.js", File "patched");
                   ("package.json", File "{}");
                   (".next", Dir [("BUILD_ID", File "42");
                                  ("static", Dir [("app.css", File "new")])]);
                   (".env", File "SECRET=1")]))
     = Some (Dir [("server.js", File "patched");
                  ("package.json", File "{}");
                  (".next", Dir [("BUILD_ID", File "42");
                                 ("static", Dir [("app.css", File "new")])]);
                  (".env", File "SECRET=1")]).
Proof.
  assert (distinct_names sample_static) as Hd
    by (unfold sample_static; distinct_names_tac).
  split; [exact Hd |]. split; [reflexivity |].
  exact (copyDir_idempotent sample_static (Some (Dir sample_app)) _ Hd eq_refl).
Defined.

Lemma copyEntries_succeeds (copy : node -> option node -> option node)
    (entries : list (string * node)) :
  List.NoDup (keys entries) ->
  forall dest,
    (forall name child, In (name, child) entries ->
       match child with
       | File _ => match get name dest with Some (Dir _) => False | _ => True end
       | Dir _ => is_Some (copy child (get name dest))
       end) ->
    is_Some (copyEntries copy entries dest).
Proof.
  induction entries as [| [n child] rest IH]; intros Hnd dest H; [simpl; eauto |].
  change (keys ((n, child) :: rest)) with (n :: keys rest) in Hnd.
  apply List.NoDup_cons_iff in Hnd as [Hn Hnd].
  assert (forall v, is_Some (copyEntries copy rest (set n v dest))) as Hrest.
  { intros v. apply IH; [exact Hnd |]. intros name c Hin.
    assert (n <> name) as Hne.
    { intros ->. apply Hn. now apply (List.in_map fst _ (name, c)). }
    rewrite get_set, (proj2 (String.eqb_neq n name) Hne). apply H. now right. }
  rewrite copyEntries_cons. pose proof (H n child (or_introl eq_refl)) as Hc.
  destruct child as [content | ces].
  - unfold copyFileSync. destruct (get n dest) as [[? | ?] |]; try apply Hrest.
    destruct Hc.
  - destruct Hc as [d ->]. apply Hrest.
Qed.

Lemma copyDir_succeeds (src : node) :
  distinct_names src -> isDirectory src = true ->
  forall dest, (forall p, compatible src dest p) -> is_Some (copyDir src dest).
Proof.
  induction src as [content | entries IH] using node_ind'; intros Hd Hdir dest Hc;
    [discriminate |].
  inversion Hd as [| ? Hnd Hall]; subst.
  rewrite copyDir_Dir. destruct (mkdirp dest) as [des|] eqn:Emk.
  - destruct (copyEntries_succeeds (fun c d => copyDir c d) entries Hnd des)
      as [res ->]; [| eauto].
    intros name child Hin. pose proof (In_get name child entries Hnd Hin) as Hg.
    rewrite List.Forall_forall in IH, Hall.
    destruct child as [content | ces].
    + specialize (Hc [name]). unfold compatible in Hc.
      rewrite at_path_cons, Hg, (before_cons dest des) in Hc by assumption.
      simpl in Hc. now destruct (get name des) as [[? | ?] |].
    + apply (IH _ Hin (Hall _ Hin) eq_refl). intros p.
      specialize (Hc (name :: p)). unfold compatible in *.
      now rewrite at_path_cons, Hg, (before_cons dest des) in Hc by assumption.
  - specialize (Hc []). unfold compatible in Hc. simpl in Hc.
    destruct dest as [[? | ?] |]; try discriminate. destruct Hc.
Qed.

(** X18: [copyDir] throws only on a clash of kinds.  For a source directory
    whose names are distinct at every level, the copy goes through exactly
    when at no path the source has a directory where the destination has a
    regular file, or a regular file where the destination has a directory. *)
Theorem copyDir_succeeds_iff (entries : list (string * node)) (dest : option node) :
  distinct_names (Dir entries) ->
  (exists r, copyDir (Dir entries) dest = Some r)
  <-> forall p, compatible (Dir entries) dest p.
Proof.
  intros Hd. split.
  - intros [r Hr] p. pose proof (copyDir_at_path _ Hd _ _ Hr p) as Hp.
    unfold compatible. destruct (at_path (Dir entries) p) as [[? | ?] |]; [| | exact I].
    + destruct Hp as [_ Hp]. now destruct (before dest p) as [[? | ?] |].
    + destruct Hp as [_ Hp]. now destruct (before dest p) as [[? | ?] |].
  - intros Hc. destruct (copyDir_succeeds _ Hd eq_refl dest Hc) as [r Hr]. eauto.
Qed.

Lemma copyDir_succeeds_iff_witness :
  distinct_names sample_static
  /\ copyDir sample_static (Some (Dir [(".next", File "not a directory")])) = None
  /\ (exists r, copyDir sample_static (Some (Dir sample_app)) = Some r)
  /\ compatible sample_static (Some (Dir sample_app)) [".next"; "static"].
Proof.
  assert (distinct_names sample_static) as Hd
    by (unfold sample_static; distinct_names_tac).
  split; [exact Hd |]. split; [reflexivity |].
  split; [eexists; reflexivity |].
  unfold sample_static in *.
  apply (proj1 (copyDir_succeeds_iff _ (Some (Dir sample_app)) Hd)).
  eexists; reflexivity.
Defined.

(** X22: step 7 removes environment files at the top of [dist] only.  After
    it no regular file whose name starts with [".env"] stands directly in
    [dist]; every other file, at any depth, is where it was with the content
    it had, also one named [.env] inside a subdirectory; and every directory
    is kept. *)
Theorem env_files_removed_at_top_only (dist : list (string * node)) (p : path) :
  List.NoDup (keys dist) ->
  file_at (Dir (remove_env_files dist)) p
  = match p with
    | [name] => if startsWith name ".env" then None else file_at (Dir dist) p
    | _ => file_at (Dir dist) p
    end
  /\ dir_at (Dir (remove_env_files dist)) p = dir_at (Dir dist) p.
Proof.
  intros Hnd. destruct p as [| name p]; [split; reflexivity |].
  unfold file_at, dir_at, remove_env_files. rewrite !at_path_cons.
  rewrite get_filter by assumption. cbn [fst snd].
  destruct (get name dist) as [[content | es] |].
  - rewrite !at_path_File.
    destruct (startsWith name ".env"); simpl; destruct p; auto.
  - rewrite andb_false_r. simpl. destruct p as [| n [| ? ?]]; auto.
    simpl. now destruct (startsWith name ".env").
  - destruct p as [| ? ?]; [| auto]. now destruct (startsWith name ".env").
Qed.

Lemma env_files_removed_at_top_only_witness :
  List.NoDup (keys (sample_app ++ [("public", Dir [(".env", File "NESTED=1")])]))
  /\ file_at (Dir (remove_env_files
                     (sample_app ++ [("public", Dir [(".env", File "NESTED=1")])])))
       [".env"] = None
  /\ file_at (Dir (remove_env_files
                     (sample_app ++ [("public", Dir [(".env", File "NESTED=1")])])))
       ["public"; ".env"] = Some "NESTED=1".
Proof.
  assert (List.NoDup (keys (sample_app ++ [("public", Dir [(".env", File "NESTED=1")])])))
    as Hnd.
  { simpl. repeat (apply List.NoDup_cons; [simpl; intuition discriminate |]).
    apply List.NoDup_nil. }
  split; [exact Hnd |]. split.
  - exact (proj1 (env_files_removed_at_top_only _ [".env"] Hnd)).
  - exact (proj1 (env_files_removed_at_top_only _ ["public"; ".env"] Hnd)).
Defined.

End BuildPackageFacts.

(** ** The environment variables of the settings page *)

Module JsObjectFacts.
Import Js JsMore JsMoreFacts JsObject.
Local Open Scope list_scope.

Lemma insert_index_cons {V} (n : N) (k k0 : string) (v v0 : V) (o : obj V) :
  insert_index n k v ((k0, v0) :: o)
  = match array_index k0 with
    | Some n' =>
        if (n' <? n)%N then (k0, v0) :: insert_index n k v o
        else (k, v) :: (k0, v0) :: o
    | None => (k, v) :: (k0, v0) :: o
    end.
Proof. reflexivity. Qed.

Lemma get_insert_index {V} (n : N) (k k' : string) (v : V) (o : obj V) :
  array_index k = Some n ->
  get k' (insert_index n k v o) = if k =? k' then Some v else get k' o.
Proof.
  intros Hk. induction o as [| [k0 v0] o IH]; [reflexivity |].
  rewrite insert_index_cons.
  destruct (array_index k0) as [n0|] eqn:E0; [| now rewrite get_cons].
  destruct (N.ltb_spec n0 n) as [Hlt | _]; [| now rewrite get_cons].
  rewrite !get_cons, IH.
  destruct (String.eqb_spec k0 k') as [-> | Hne]; [| reflexivity].
  destruct (String.eqb_spec k k') as [-> | _]; [| reflexivity].
  rewrite Hk in E0. injection E0 as <-. lia.
Qed.

Lemma insert_index_perm {V} (n : N) (k : string) (v : V) (o : obj V) :
  insert_index n k v o ≡ₚ (k, v) :: o.
Proof.
  induction o as [| [k0 v0] o IH]; [reflexivity |].
  rewrite insert_index_cons.
  destruct (array_index k0) as [n0|]; [| reflexivity].
  destruct (n0 <? n)%N; [| reflexivity].
  rewrite IH. apply perm_swap.
Qed.

Lemma get_define {V} (k k' : string) (v : V) (o : obj V) :
  get k' (define k v o) = if k =? k' then Some v else get k' o.
Proof.
  unfold define. destruct (get k o), (array_index k) eqn:E;
    auto using get_set, get_insert_index.
Qed.

Lemma define_new {V} (k : string) (v : V) (o : obj V) :
  get k o = None -> define k v o ≡ₚ o ++ [(k, v)].
Proof.
  intros H. unfold define. rewrite H.
  destruct (array_index k).
  - rewrite insert_index_perm. apply Permutation_cons_append.
  - now rewrite set_new.
Qed.

Lemma define_no_index {V} (k : string) (v : V) (o : obj V) :
  array_index k = None -> define k v o = set k v o.
Proof. intros H. unfold define. rewrite H. now destruct (get k o). Qed.

Lemma In_keys_get {V} (k : string) (o : obj V) :
  In k (keys o) <-> get k o <> None.
Proof.
  split.
  - intros Hin H. now apply get_None in H.
  - intros H. destruct (in_dec string_dec k (keys o)) as [Hin | Hout]; [exact Hin |].
    now apply get_None in Hout.
Qed.

Lemma keys_define {V} (k k' : string) (v : V) (o : obj V) :
  In k' (keys (define k v o)) <-> k' = k \/ In k' (keys o).
Proof.
  rewrite !In_keys_get, get_define.
  destruct (String.eqb_spec k k') as [-> | Hne].
  - split; [auto | discriminate].
  - split; [auto | intros [-> | H]; [done | exact H]].
Qed.

Lemma NoDup_keys_define {V} (k : string) (v : V) (o : obj V) :
  List.NoDup (keys o) -> List.NoDup (keys (define k v o)).
Proof.
  intros Hnd. unfold define.
  destruct (get k o) eqn:Eg; [now apply NoDup_keys_set |].
  destruct (array_index k); [| now apply NoDup_keys_set].
  apply (Permutation_NoDup (l := k :: keys o)).
  - symmetry. apply (Permutation_map fst (insert_index_perm _ k v o)).
  - apply List.NoDup_cons; [now apply get_None | exact Hnd].
Qed.

Lemma get_assign {V} (k k' : string) (v : V) (o : obj V) :
  get k' (assign k v o)
  = if k =? "__proto__" then get k' o
    else if k =? k' then Some v else get k' o.
Proof. unfold assign. destruct (k =? "__proto__"); [reflexivity | apply get_define]. Qed.

Lemma keys_assign {V} (k k' : string) (v : V) (o : obj V) :
  In k' (keys (assign k v o)) -> k' = k \/ In k' (keys o).
Proof.
  unfold assign. destruct (k =? "__proto__"); [auto | apply keys_define].
Qed.

Lemma NoDup_keys_assign {V} (k : string) (v : V) (o : obj V) :
  List.NoDup (keys o) -> List.NoDup (keys (assign k v o)).
Proof.
  unfold assign. destruct (k =? "__proto__"); [auto | apply NoDup_keys_define].
Qed.

Lemma Permutation_filter {A} (f : A -> bool) (l l' : list A) :
  l ≡ₚ l' -> List.filter f l ≡ₚ List.filter f l'.
Proof.
  induction 1 as [| x l l' _ IH | x y l | l l' l'' _ IH1 _ IH2]; simpl.
  - reflexivity.
  - destruct (f x); [now apply perm_skip | exact IH].
  - destruct (f x), (f y); try reflexivity. apply perm_swap.
  - now rewrite IH1.
Qed.

Lemma filter_filter' {A} (f g : A -> bool) (l : list A) :
  List.filter f (List.filter g l) = List.filter (fun a => f a && g a) l.
Proof.
  induction l as [| a l IH]; [reflexivity |]. simpl.
  destruct (g a); simpl; rewrite ?andb_true_r, ?andb_false_r;
    [destruct (f a) |]; now rewrite IH.
Qed.

End JsObjectFacts.

Module SettingsFacts.
Import Js JsMore JsMoreFacts JsObject JsObjectFacts Settings.
Local Open Scope list_scope.

Lemma fold_define_get (l : list (string * string)) :
  forall (o : obj string) (k : string),
    ~ In k (map fst l) ->
    get k (fold_left (fun acc e => define (fst e) (snd e) acc) l o) = get k o.
Proof.
  induction l as [| a l IH]; intros o k Hk; [reflexivity |].
  simpl in *. rewrite IH by tauto. rewrite get_define.
  destruct (String.eqb_spec (fst a) k); [tauto | reflexivity].
Qed.

Lemma fold_assign_get (vars : list EnvVarInfo) :
  forall (o : obj string) (k : string),
    ~ In k (map key vars) ->
    get k (fold_left (fun acc v => assign (key v) (value v) acc) vars o) = get k o.
Proof.
  induction vars as [| a l IH]; intros o k Hk; [reflexivity |].
  simpl in *. rewrite IH by tauto. rewrite get_assign.
  destruct (key a =? "__proto__"); [reflexivity |].
  destruct (String.eqb_spec (key a) k); [tauto | reflexivity].
Qed.

Lemma fold_define_NoDup (l : list (string * string)) :
  forall o : obj string,
    List.NoDup (keys o) ->
    List.NoDup (keys (fold_left (fun acc e => define (fst e) (snd e) acc) l o)).
Proof.
  induction l as [| a l IH]; intros o Ho; [exact Ho |].
  simpl. apply IH. now apply NoDup_keys_define.
Qed.

Lemma fold_assign_NoDup (vars : list EnvVarInfo) :
  forall o : obj string,
    List.NoDup (keys o) ->
    List.NoDup (keys (fold_left (fun acc v => assign (key v) (value v) acc) vars o)).
Proof.
  induction vars as [| a l IH]; intros o Ho; [exact Ho |].
  simpl. apply IH. now apply NoDup_keys_assign.
Qed.

Lemma fresh_key (o : obj string) (v : EnvVarInfo) (vars : list EnvVarInfo) :
  List.NoDup (keys o ++ map key (v :: vars)) ->
  get (key v) o = None /\ List.NoDup (keys o ++ map key vars)
  /\ forall x, List.NoDup (keys (o ++ [(key v, x)]) ++ map key vars).
Proof.
  intros Hnd. simpl in Hnd. split; [| split].
  - apply get_None. intros Hin. apply List.NoDup_remove_2 in Hnd. apply Hnd.
    apply in_or_app. now left.
  - now apply List.NoDup_remove_1 in Hnd.
  - intros x. unfold keys. rewrite map_app. simpl. now rewrite <- app_assoc.
Qed.

(** With distinct keys, [initialValues] holds the variables that came, but
    for one of key ["__proto__"]: as a set in any case, and in the order of
    the response when no key is an array index. *)
Lemma initialValues_perm (vars : list EnvVarInfo) :
  List.NoDup (map key vars) ->
  initialValues vars
  ≡ₚ map (fun v => (key v, value v))
       (List.filter (fun v => negb (key v =? "__proto__")) vars).
Proof.
  unfold initialValues.
  assert (forall o,
            List.NoDup (keys o ++ map key vars) ->
            fold_left (fun acc v => assign (key v) (value v) acc) vars o
            ≡ₚ o ++ map (fun v => (key v, value v))
                     (List.filter (fun v => negb (key v =? "__proto__")) vars)) as H.
  { induction vars as [| v vars IH]; intros o Hnd.
    - simpl. now rewrite app_nil_r.
    - destruct (fresh_key o v vars Hnd) as (Hnone & Hnd' & Hnd'').
      cbn [fold_left List.filter]. unfold assign at 2.
      destruct (key v =? "__proto__"); cbn [negb]; [now apply IH |].
      cbn [map]. rewrite <- (Permutation_middle o _ (key v, value v)).
      assert (List.NoDup (keys (define (key v) (value v) o) ++ map key vars)) as Hd.
      { apply (Permutation_NoDup (l := keys (o ++ [(key v, value v)]) ++ map key vars));
          [| apply Hnd''].
        apply Permutation_app_tail. symmetry.
        apply (Permutation_map fst), define_new, Hnone. }
      rewrite (IH _ Hd), (define_new _ _ _ Hnone).
      rewrite <- Permutation_cons_append. reflexivity. }
  intros Hnd. now rewrite H.
Qed.

Lemma initialValues_order (vars : list EnvVarInfo) :
  List.NoDup (map key vars) ->
  (forall v, In v vars -> array_index (key v) = None) ->
  initialValues vars
  = map (fun v => (key v, value v))
      (List.filter (fun v => negb (key v =? "__proto__")) vars).
Proof.
  unfold initialValues.
  assert (forall o,
            List.NoDup (keys o ++ map key vars) ->
            (forall v, In v vars -> array_index (key v) = None) ->
            fold_left (fun acc v => assign (key v) (value v) acc) vars o
            = o ++ map (fun v => (key v, value v))
                    (List.filter (fun v => negb (key v =? "__proto__")) vars)) as H.
  { induction vars as [| v vars IH]; intros o Hnd Hidx.
    - simpl. now rewrite app_nil_r.
    - destruct (fresh_key o v vars Hnd) as (Hnone & Hnd' & Hnd'').
      assert (forall x, In x vars -> array_index (key x) = None) as Hidx'
        by (intros x Hx; apply Hidx; now right).
      cbn [fold_left List.filter]. unfold assign at 2.
      destruct (key v =? "__proto__"); cbn [negb]; [now apply IH |].
      rewrite define_no_index by (apply Hidx; now left).
      rewrite set_new by assumption. rewrite IH by auto.
      cbn [map]. now rewrite <- app_assoc. }
  intros Hnd Hidx. now rewrite H.
Qed.

Lemma find_key (vars : list EnvVarInfo) (v : EnvVarInfo) :
  List.NoDup (map key vars) -> In v vars ->
  find (fun x => key x =? key v) vars = Some v.
Proof.
  induction vars as [| a vars IH]; intros Hnd Hin; [destruct Hin |].
  simpl in Hnd. apply List.NoDup_cons_iff in Hnd as [Ha Hnd]. simpl.
  destruct Hin as [-> | Hin].
  - now rewrite String.eqb_refl.
  - destruct (String.eqb_spec (key a) (key v)) as [E | _]; [| auto].
    exfalso. apply Ha. rewrite E. now apply in_map.
Qed.

Lemma filter_map {A B} (f : B -> bool) (g : A -> B) (l : list A) :
  List.filter f (map g l) = map g (List.filter (fun a => f (g a)) l).
Proof.
  induction l as [| a l IH]; [reflexivity |]. simpl.
  destruct (f (g a)); simpl; now rewrite IH.
Qed.

Lemma filter_ext_In' {A} (f g : A -> bool) (l : list A) :
  (forall a, In a l -> f a = g a) -> List.filter f l = List.filter g l.
Proof.
  induction l as [| a l IH]; intros H; [reflexivity |]. simpl.
  rewrite (H a (or_introl eq_refl)), IH; [reflexivity |].
  intros b Hb. apply H. now right.
Qed.

Lemma is_update_original (c : EnvConfigResponse) (v : EnvVarInfo) :
  List.NoDup (map key (variables c)) -> In v (variables c) ->
  is_update (Some c) (key v, value v) = negb (masked v).
Proof.
  intros Hnd Hin. unfold is_update, original, masked.
  rewrite find_key by assumption. rewrite String.eqb_refl, andb_true_r.
  now destruct (sensitive v && includes (value v) "*").
Qed.

(** X19: saving right after loading sends back no masked secret.  When the
    keys the backend sent are distinct and nothing has been edited,
    [handleEnvSave] sends, each once, exactly the variables that are not both
    sensitive and shown with a ["*"] and whose key is not ["__proto__"], each
    with the value it was loaded with; and it sends them in the order of the
    response when no key is an array index (keys that are array indices are
    listed first by [Object.entries]). *)
Theorem save_without_edits (c : EnvConfigResponse) :
  List.NoDup (map key (variables c)) ->
  updates (Some c) (initialValues (variables c))
  ≡ₚ map (fun v => (key v, value v))
       (List.filter (fun v => negb (masked v) && negb (key v =? "__proto__"))
          (variables c))
  /\ ((forall v, In v (variables c) -> array_index (key v) = None) ->
      updates (Some c) (initialValues (variables c))
      = map (fun v => (key v, value v))
          (List.filter (fun v => negb (masked v) && negb (key v =? "__proto__"))
             (variables c))).
Proof.
  intros Hnd.
  assert (List.filter (is_update (Some c))
            (map (fun v => (key v, value v))
               (List.filter (fun v => negb (key v =? "__proto__")) (variables c)))
          = map (fun v => (key v, value v))
              (List.filter (fun v => negb (masked v) && negb (key v =? "__proto__"))
                 (variables c))) as Hf.
  { rewrite filter_map, filter_filter'. f_equal. apply filter_ext_In'.
    intros v Hv. now rewrite is_update_original. }
  unfold updates. split.
  - rewrite <- Hf. apply Permutation_filter. now apply initialValues_perm.
  - intros Hidx. now rewrite initialValues_order.
Qed.

Lemma save_without_edits_witness :
  List.NoDup (map key (variables sample_indexed))
  /\ updates (Some sample_indexed) (initialValues (variables sample_indexed))
     = [("1", "one"); ("B", "b"); ("A", "a")]
  /\ updates (Some sample_indexed) (initialValues (variables sample_indexed))
     ≡ₚ [("B", "b"); ("1", "one"); ("A", "a")].
Proof.
  assert (List.NoDup (map key (variables sample_indexed))) as Hnd.
  { simpl. repeat (apply List.NoDup_cons; [simpl; intuition discriminate |]).
    apply List.NoDup_nil. }
  split; [exact Hnd |]. split; [reflexivity |].
  exact (proj1 (save_without_edits sample_indexed Hnd)).
Defined.

Lemma NoDup_edited (c : EnvConfigResponse) (changes : list (string * string)) :
  List.NoDup (keys (edited c changes)).
Proof.
  unfold edited, handleEnvVarChange. apply fold_define_NoDup.
  unfold initialValues. apply fold_assign_NoDup. apply List.NoDup_nil.
Qed.

Lemma get_initialValues (vars : list EnvVarInfo) (v : EnvVarInfo) :
  List.NoDup (map key vars) -> In v vars ->
  get (key v) (initialValues vars)
  = if key v =? "__proto__" then None else Some (value v).
Proof.
  intros Hnd Hin. apply in_split in Hin as (l1 & l2 & ->).
  rewrite map_app in Hnd. simpl in Hnd.
  pose proof (List.NoDup_remove_2 _ _ _ Hnd) as Hout.
  unfold initialValues. rewrite fold_left_app. cbn [fold_left].
  rewrite fold_assign_get by (intros H; apply Hout, in_or_app; now right).
  rewrite get_assign, String.eqb_refl.
  destruct (key v =? "__proto__"); [| reflexivity].
  rewrite fold_assign_get by (intros H; apply Hout, in_or_app; now left).
  reflexivity.
Qed.

(** X20: a masked secret the user did not touch is never sent back.  When
    the keys the backend sent are distinct, a variable that is sensitive and
    shown with a ["*"] is absent from the updates of [handleEnvSave] whatever
    other variables were changed, as long as no change was made to its own
    key. *)
Theorem untouched_secret_not_sent (c : EnvConfigResponse) (v : EnvVarInfo)
    (changes : list (string * string)) :
  List.NoDup (map key (variables c)) ->
  In v (variables c) ->
  masked v = true ->
  get (key v) changes = None ->
  get (key v) (updates (Some c) (edited c changes)) = None.
Proof.
  intros Hnd Hin Hm Hc. unfold updates.
  rewrite get_filter by apply NoDup_edited.
  assert (get (key v) (edited c changes)
          = if key v =? "__proto__" then None else Some (value v)) as ->.
  { unfold edited, handleEnvVarChange.
    rewrite fold_define_get by now apply get_None.
    now apply get_initialValues. }
  destruct (key v =? "__proto__"); [reflexivity |].
  now rewrite is_update_original, Hm.
Qed.

Lemma untouched_secret_not_sent_witness :
  get "LLM_API_KEY"
    (updates (Some sample_env)
       (edited sample_env [("LLM_MODEL", "gpt-4.1"); ("NEW_KEY", "x")])) = None
  /\ updates (Some sample_env)
       (edited sample_env [("LLM_MODEL", "gpt-4.1"); ("NEW_KEY", "x")])
     = [("LLM_MODEL", "gpt-4.1"); ("TTS_VOICE", "*"); ("NEW_KEY", "x")].
Proof.
  split; [| reflexivity].
  apply (untouched_secret_not_sent sample_env
           {| key := "LLM_API_KEY"; value := "sk-****"; description := "";
              category := "llm"; required := true; default := "";
              sensitive := true; is_set := true |}).
  - simpl. repeat (apply List.NoDup_cons; [simpl; intuition discriminate |]).
    apply List.NoDup_nil.
  - simpl. auto.
  - reflexivity.
  - reflexivity.
Defined.

Lemma fold_define_last (changes post : list (string * string)) (k x : string) :
  forall o : obj string,
    get k post = None ->
    get k (fold_left (fun acc e => handleEnvVarChange (fst e) (snd e) acc)
             (changes ++ (k, x) :: post) o) = Some x.
Proof.
  intros o Hpost. unfold handleEnvVarChange. rewrite fold_left_app.
  cbn [fold_left fst snd].
  rewrite fold_define_get by now apply get_None.
  rewrite get_define. now rewrite String.eqb_refl.
Qed.

(** X21: a value the user changed is always sent.  The last change made to
    a key decides what is sent for it: when that value differs from the value
    the backend sent for the key, or the backend sent no variable of that
    key, the updates of [handleEnvSave] hold the key with that value. *)
Theorem changed_value_sent (c : EnvConfigResponse)
    (before_it after_it : list (string * string)) (k x : string) :
  get k after_it = None ->
  (forall v, In v (variables c) -> key v = k -> value v <> x) ->
  get k (updates (Some c) (edited c (before_it ++ (k, x) :: after_it))) = Some x.
Proof.
  intros Hafter Hdiff. unfold updates.
  rewrite get_filter by apply NoDup_edited.
  unfold edited. rewrite fold_define_last by assumption.
  assert (is_update (Some c) (k, x) = true) as ->; [| reflexivity].
  unfold is_update, original.
  destruct (find (fun v => key v =? k) (variables c)) as [o|] eqn:E; [| reflexivity].
  apply find_some in E as [Hin Hk]. apply String.eqb_eq in Hk.
  assert ((x =? value o) = false) as ->.
  { apply String.eqb_neq. intros ->. now apply (Hdiff o). }
  now rewrite andb_false_r.
Qed.

Lemma changed_value_sent_witness :
  get "LLM_API_KEY"
    (updates (Some sample_env)
       (edited sample_env ([("LLM_API_KEY", "sk-****1")]
                           ++ ("LLM_API_KEY", "sk-new*") :: [("LLM_MODEL", "m")])))
  = Some "sk-new*".
Proof.
  apply (changed_value_sent sample_env [("LLM_API_KEY", "sk-****1")]
           [("LLM_MODEL", "m")] "LLM_API_KEY" "sk-new*").
  - reflexivity.
  - intros v [<- | [<- | [<- | []]]]; simpl; intros; discriminate.
Defined.

Lemma keys_fold_define (l : list (string * string)) :
  forall (o : obj string) (k : string),
    In k (keys (fold_left (fun acc e => define (fst e) (snd e) acc) l o)) ->
    In k (keys o) \/ In k (map fst l).
Proof.
  induction l as [| a l IH]; intros o k Hk; [now left |].
  simpl in Hk. apply IH in Hk as [Hk | Hk]; [| right; now right].
  apply keys_define in Hk as [-> | Hk]; [right; now left | now left].
Qed.

Lemma keys_fold_assign (vars : list EnvVarInfo) :
  forall (o : obj string) (k : string),
    In k (keys (fold_left (fun acc v => assign (key v) (value v) acc) vars o)) ->
    In k (keys o) \/ In k (map key vars).
Proof.
  induction vars as [| a l IH]; intros o k Hk; [now left |].
  simpl in Hk. apply IH in Hk as [Hk | Hk]; [| right; now right].
  apply keys_assign in Hk as [-> | Hk]; [right; now left | now left].
Qed.

(** X27: [handleEnvSave] sends no key twice and no key out of nowhere.
    Whatever was loaded, also with repeated keys, and whatever was changed
    since, the updates hold every key at most once, and each key they hold is
    the key of a loaded variable or of a change the user made. *)
Theorem updates_keys (c : EnvConfigResponse) (changes : list (string * string)) :
  List.NoDup (keys (updates (Some c) (edited c changes)))
  /\ forall k, In k (keys (updates (Some c) (edited c changes))) ->
               In k (map key (variables c)) \/ In k (map fst changes).
Proof.
  split.
  - apply NoDup_keys_filter, NoDup_edited.
  - intros k Hk. unfold updates, keys in Hk.
    apply in_map_iff in Hk as (e & <- & He). apply filter_In in He as [He _].
    apply (in_map fst) in He. unfold edited, handleEnvVarChange in He.
    apply keys_fold_define in He as [He | He]; [| now right].
    unfold initialValues in He. apply keys_fold_assign in He as [[] | He]. now left.
Qed.

End SettingsFacts.

(** ** The packaging script, from the standalone output to [dist] *)

Module MainFacts.
Import Js JsMore JsMoreFacts BuildPackage BuildPackageFacts.
Local Open Scope list_scope.













End MainFacts.

(** ** The settings tabs *)

Module ConfigTabFacts.
Import Js JsFacts Api ApiFacts ConfigTab.

Lemma app_cancel_r (x y s : string) : x +:+ s = y +:+ s -> x = y.
Proof.
  intros H.
  assert (String.length x = String.length y) as Hlen.
  { apply (f_equal String.length) in H. rewrite !length_app in H. lia. }
  revert y H Hlen. induction x as [| a x IH]; intros [| b y] H Hlen;
    try discriminate; [reflexivity |].
  rewrite !app_cons in H. injection H as -> H. f_equal. apply IH; auto.
Qed.

Lemma config_path_inj (t1 t2 : ConfigType) (r1 r2 : string) :
  ConfigType_name t1 +:+ "/" +:+ r1 = ConfigType_name t2 +:+ "/" +:+ r2 ->
  t1 = t2 /\ r1 = r2.
Proof.
  destruct t1, t2; intros H; try (now discriminate H);
    split; try reflexivity;
    exact (app_cancel_l "/" _ _ (app_cancel_l _ _ _ H)).
Qed.

Lemma apiUrl_config (g : Globals) (rest : string) :
  apiUrl g ("/api/v1/config/" +:+ rest)
  = normalizeBase (resolveApiBaseUrl g) +:+ "/api/v1/config/" +:+ rest.
Proof. reflexivity. Qed.

(** X24: the configuration endpoints never collide.  For each of
    [setActive], [testConnection], [deleteConfig] and [loadConfigs], two
    calls get the same URL only for the same configuration type and the same
    configuration id, whatever characters the ids hold; and a [setActive]
    URL is never a [testConnection] URL. *)
Theorem config_endpoints_distinct (g : Globals) (t1 t2 : ConfigType)
    (id1 id2 : string) :
  (apiUrl g (setActive_path t1 id1) = apiUrl g (setActive_path t2 id2)
   <-> t1 = t2 /\ id1 = id2)
  /\ (apiUrl g (testConnection_path t1 id1) = apiUrl g (testConnection_path t2 id2)
      <-> t1 = t2 /\ id1 = id2)
  /\ (apiUrl g (deleteConfig_path t1 id1) = apiUrl g (deleteConfig_path t2 id2)
      <-> t1 = t2 /\ id1 = id2)
  /\ (apiUrl g (loadConfigs_path t1) = apiUrl g (loadConfigs_path t2) <-> t1 = t2)
  /\ apiUrl g (setActive_path t1 id1) <> apiUrl g (testConnection_path t2 id2).
Proof.
  unfold setActive_path, testConnection_path, deleteConfig_path, loadConfigs_path.
  rewrite !apiUrl_config.
  assert (forall r1 r2,
            normalizeBase (resolveApiBaseUrl g) +:+ "/api/v1/config/"
              +:+ ConfigType_name t1 +:+ "/" +:+ r1
            = normalizeBase (resolveApiBaseUrl g) +:+ "/api/v1/config/"
              +:+ ConfigType_name t2 +:+ "/" +:+ r2 ->
            t1 = t2 /\ r1 = r2) as Hinj.
  { intros r1 r2 E. apply app_cancel_l, app_cancel_l in E.
    now apply config_path_inj. }
  split; [| split; [| split; [| split]]].
  - split; [| now intros [-> ->]].
    intros E. apply Hinj in E as [-> E]. apply app_cancel_r in E. auto.
  - split; [| now intros [-> ->]].
    intros E. apply Hinj in E as [-> E]. apply app_cancel_r in E. auto.
  - split; [| now intros [-> ->]]. apply Hinj.
  - split; [| now intros ->].
    intros E. apply app_cancel_l, app_cancel_l in E.
    destruct t1, t2; (reflexivity || discriminate E).
  - intros E. apply Hinj in E as [_ E].
    change (id1 +:+ "/active") with (id1 +:+ "/activ" +:+ "e") in E.
    change (id2 +:+ "/test") with (id2 +:+ "/tes" +:+ "t") in E.
    rewrite <- !app_assoc in E. apply snoc_inj in E as [_ E]. discriminate E.
Qed.

End ConfigTabFacts.

Module RTXModelSelectorFacts.
Import ConfigTab RTXModelSelector.
Local Open Scope list_scope.

Section Selector.
Context {number : Type}.
Implicit Types (s : Selection number) (providers : list (RTXProvider number)).

Lemma effect_provider (t : ConfigType) providers s :
  selectedProvider (effect t providers s) = selectedProvider s.
Proof. now destruct t. Qed.

Lemma currentProviderData_effect (t : ConfigType) providers s :
  currentProviderData providers (effect t providers s)
  = currentProviderData providers s.
Proof. unfold currentProviderData. now rewrite effect_provider. Qed.

Lemma current_voices_effect (t : ConfigType) providers s :
  current_voices providers (effect t providers s) = current_voices providers s.
Proof.
  unfold current_voices, providerConfig. now rewrite currentProviderData_effect.
Qed.

Lemma current_models_effect (t : ConfigType) providers s :
  current_models providers (effect t providers s) = current_models providers s.
Proof. unfold current_models. now rewrite currentProviderData_effect. Qed.

Lemma providerConfig_effect (t : ConfigType) providers s :
  providerConfig providers (effect t providers s) = providerConfig providers s.
Proof. unfold providerConfig. now rewrite currentProviderData_effect. Qed.

Lemma sync_range_idem (range : option (Range number)) (x : option number) :
  sync_range number range (sync_range number range x) = sync_range number range x.
Proof. destruct range, x; reflexivity. Qed.

(** Picking the selected entry when it is listed and the first entry
    otherwise gives a listed entry, and picking again changes nothing. *)
Lemma pick_listed {A} (key : A -> string) (l : list A) (selected : string) :
  let picked :=
    match l with
    | first :: _ =>
        if existsb (fun a => key a =? selected) l then selected else key first
    | [] => selected
    end in
  (l <> [] -> In picked (map key l))
  /\ match l with
     | first :: _ =>
         if existsb (fun a => key a =? picked) l then picked else key first
     | [] => picked
     end = picked.
Proof.
  destruct l as [| first l]; [split; [now intros [] | reflexivity] |].
  cbv zeta. destruct (existsb (fun a => key a =? selected) (first :: l)) eqn:E.
  - rewrite E. split; [| reflexivity]. intros _.
    apply existsb_exists in E as (a & Ha & Hk). apply String.eqb_eq in Hk as <-.
    now apply in_map.
  - split; [intros _; now left |].
    assert (existsb (fun a => key a =? key first) (first :: l) = true) as ->.
    { simpl. now rewrite String.eqb_refl. }
    reflexivity.
Qed.

(** X25: the effect of the RealTimeX selector settles in one step and leaves
    a consistent selection.  Running it again on its own result changes
    nothing; it never changes the provider; for TTS it touches neither the
    model nor, beyond the rule for ranges, anything but the voice, which
    afterwards is one of the provider's voices when there are any; for the
    other types it touches only the model, which afterwards is one of the
    provider's models when there are any. *)
Theorem effect_settles (t : ConfigType) providers s :
  effect t providers (effect t providers s) = effect t providers s
  /\ selectedProvider (effect t providers s) = selectedProvider s
  /\ (t = tts ->
      selectedModel (effect t providers s) = selectedModel s
      /\ (current_voices providers s <> [] ->
          In (selectedVoice (effect t providers s)) (current_voices providers s))
      /\ (selectedSpeed (effect t providers s) = None
          <-> (providerConfig providers s ≫= speed) = None))
  /\ (t <> tts ->
      selectedVoice (effect t providers s) = selectedVoice s
      /\ selectedSpeed (effect t providers s) = selectedSpeed s
      /\ selectedQuality (effect t providers s) = selectedQuality s
      /\ (current_models providers s <> [] ->
          In (selectedModel (effect t providers s))
             (map RTXModelSelector.id (current_models providers s)))).
Proof.
  split; [| split; [apply effect_provider | split]].
  - pose proof (pick_listed (@id) (current_models providers s) (selectedModel s))
      as [_ Hm].
    pose proof (pick_listed (fun v : string => v) (current_voices providers s)
                  (selectedVoice s)) as [_ Hv].
    cbv zeta in Hm, Hv.
    destruct t; unfold effect at 1;
      rewrite ?current_voices_effect, ?current_models_effect, ?providerConfig_effect;
      unfold effect; cbn [selectedProvider selectedModel selectedVoice
                          selectedSpeed selectedQuality];
      rewrite ?sync_range_idem, ?Hm, ?Hv; reflexivity.
  - intros ->. split; [reflexivity |]. split.
    + intros Hne.
      pose proof (pick_listed (fun v : string => v) (current_voices providers s)
                    (selectedVoice s)) as [Hin _].
      cbv zeta in Hin. rewrite map_id in Hin. now apply Hin.
    + cbn [effect selectedSpeed]. unfold sync_range.
      destruct (providerConfig providers s) as [c|]; simpl; [| tauto].
      destruct (speed c), (selectedSpeed s); simpl; split; intros; congruence.
  - intros Ht. destruct t; try congruence; (do 3 (split; [reflexivity |]));
      intros Hne;
      pose proof (pick_listed (@id) (current_models providers s) (selectedModel s))
        as [Hin _]; cbv zeta in Hin; now apply Hin.
Qed.

End Selector.

End RTXModelSelectorFacts.
